(** * Portfolio view model of trackerfi-front

    A shallow embedding of [components/PortfolioTokenDisplay.tsx]: the chain
    normaliser ([getChainColor], [getChainDisplayName]), the sort engine
    ([sortedTokens]) and the grouping engine ([getTokensByBlockchain],
    [renderBlockchainSection]); then the sort buttons, the cards
    ([renderToken]) and the keys of the rows of the same component, the
    total of the home screen that shows it, and the wallet view
    ([hooks/useWalletTokens], [components/TokenDisplay]).

    JavaScript values are modelled as the program uses them:
    - a Number is an IEEE-754 binary64 value, Rocq's primitive [float];
    - a String is a sequence of 8-bit code units ([string]); the names the
      program matches on are ASCII, and code units outside ASCII are left
      alone by the case conversions;
    - a field that may be missing is an [option] (absent, [undefined] or
      [null]) or a [jsval] when the program converts it with [toString];
    - the object that collects the groups is an ordinary object: it
      inherits from [Object.prototype] and lists its keys as
      [Object.entries] does;
    - a call that may throw returns a [completion].

    Two built-ins are left open by ECMA-262 and are treated accordingly:
    [localeCompare] is a parameter of the component, and
    [Array.prototype.sort] is a stable insertion sort, the one result the
    standard allows whenever the comparator is consistent. *)

From Stdlib Require Import ZArith NArith List String Ascii Bool Lia Permutation Sorted.
From Stdlib Require Import Floats.
Import ListNotations.
Local Open Scope string_scope.

(** ** Strings *)

Module JsString.

(** [String.prototype.toUpperCase] on one code unit: a-z go to A-Z. *)
Definition upper_ascii (c : ascii) : ascii :=
  let n := nat_of_ascii c in
  if andb (Nat.leb 97 n) (Nat.leb n 122) then ascii_of_nat (n - 32) else c.

(** [String.prototype.toLowerCase] on one code unit: A-Z go to a-z. *)
Definition lower_ascii (c : ascii) : ascii :=
  let n := nat_of_ascii c in
  if andb (Nat.leb 65 n) (Nat.leb n 90) then ascii_of_nat (n + 32) else c.

Fixpoint toUpperCase (s : string) : string :=
  match s with
  | EmptyString => EmptyString
  | String c r => String (upper_ascii c) (toUpperCase r)
  end.

Fixpoint toLowerCase (s : string) : string :=
  match s with
  | EmptyString => EmptyString
  | String c r => String (lower_ascii c) (toLowerCase r)
  end.

(** Truthiness of a string: only the empty string is falsy. *)
Definition truthy (s : string) : bool :=
  match s with EmptyString => false | _ => true end.

(** [a || b] on strings that may be absent. *)
Definition or_else (a : option string) (b : string) : string :=
  match a with
  | Some s => if truthy s then s else b
  | None => b
  end.

(** Two strings are case variants of each other when they have the same
    upper-case form. *)
Definition case_variant (s t : string) : Prop := toUpperCase s = toUpperCase t.

End JsString.

(** ** Chain normaliser *)

(** [chain?.toUpperCase()]: [undefined] when the chain is absent. *)
Definition chainUpper (chain : option string) : option string :=
  option_map JsString.toUpperCase chain.

(** The [case] labels of the switch in [getChainColor], in source order. *)
Definition color_table : list (string * string) :=
  [ ("ETHEREUM", "#627EEA"); ("ETH", "#627EEA");
    ("POLYGON", "#8247E5"); ("MATIC", "#8247E5");
    ("BSC", "#F3BA2F"); ("BINANCE", "#F3BA2F");
    ("ARBITRUM", "#28A0F0"); ("ARB", "#28A0F0");
    ("OPTIMISM", "#FF0420"); ("OP", "#FF0420");
    ("AVALANCHE", "#E84142"); ("AVAX", "#E84142");
    ("SOLANA", "#9945FF"); ("SOL", "#9945FF");
    ("SUI", "#6FBCF0");
    ("BASE", "#0052FF");
    ("FANTOM", "#1969FF"); ("FTM", "#1969FF");
    ("EVM", "#8B5CF6") ].

(** The [case] labels of the switch in [getChainDisplayName]. *)
Definition display_table : list (string * string) :=
  [ ("EVM", "EVM");
    ("ETH", "Ethereum");
    ("MATIC", "Polygon");
    ("ARB", "Arbitrum");
    ("OP", "Optimism");
    ("AVAX", "Avalanche");
    ("SOL", "Solana");
    ("FTM", "Fantom") ].

(** A [switch] over string labels: the first label strictly equal to the
    scrutinee selects the result. *)
Fixpoint switch_lookup (cases : list (string * string)) (x : string) : option string :=
  match cases with
  | [] => None
  | (label, result) :: rest =>
      if String.eqb x label then Some result else switch_lookup rest x
  end.

Definition switch_on (cases : list (string * string)) (x : option string) : option string :=
  match x with
  | Some s => switch_lookup cases s
  | None => None
  end.

Definition getChainColor (chain : option string) : string :=
  match switch_on color_table (chainUpper chain) with
  | Some color => color
  | None => "#666"
  end.

Definition getChainDisplayName (chain : option string) : string :=
  match switch_on display_table (chainUpper chain) with
  | Some name => name
  | None => JsString.or_else chain "Unknown"
  end.

(** ** Numbers

    [parseFloat] and [Number.prototype.toString] as ECMA-262 defines them,
    on binary64 values.  The decimal conversions are exact: they go through
    integers and round once, to nearest, ties to even. *)

Module JsNumber.

Local Open Scope Z_scope.

Definition NaN : float := PrimFloat.nan.
Definition Infinity : float := PrimFloat.infinity.

(** JavaScript truthiness of a Number: [0], [-0] and [NaN] are falsy. *)
Definition truthy (x : float) : bool :=
  negb (PrimFloat.eqb x 0%float) && PrimFloat.eqb x x.

Definition isNaN (x : float) : bool := negb (PrimFloat.eqb x x).

(** The Number value for [m * 10 ^ e10] with [0 <= m], negated when [neg].
    A negative exponent divides with a sticky bit, so that the single
    rounding of [binary_normalize] sees on which side of a midpoint the
    exact quotient lies.  Magnitudes far outside the binary64 range are
    settled without building the power of ten. *)
Definition of_decimal (neg : bool) (m e10 : Z) : float :=
  let signed (x : float) := if neg then PrimFloat.opp x else x in
  if m <=? 0 then signed 0%float
  else
    let mag := Z.log2 m * 30103 / 100000 + e10 in
    if 400 <? mag then signed Infinity
    else if mag <? -400 then signed 0%float
    else if 0 <=? e10 then
      signed (SF2Prim (binary_normalize prec emax (m * 10 ^ e10) 0 false))
    else
      let d := 10 ^ (- e10) in
      let k := Z.log2 d + 66 in
      let (q, r) := Z.div_eucl (Z.shiftl m k) d in
      let sticky := if r =? 0 then 0 else 1 in
      signed (SF2Prim (binary_normalize prec emax (2 * q + sticky) (- k - 1) false)).

Definition is_digit (c : ascii) : bool :=
  let n := nat_of_ascii c in (Nat.leb 48 n && Nat.leb n 57)%bool.

Definition digit_value (c : ascii) : Z := Z.of_nat (nat_of_ascii c) - 48.

(** White space that [parseFloat] skips at the start of its argument:
    TAB, LF, VT, FF, CR and SP. *)
Definition is_white_space (c : ascii) : bool :=
  let n := nat_of_ascii c in
  ((Nat.leb 9 n && Nat.leb n 13) || Nat.eqb n 32)%bool.

Fixpoint trim_start (s : string) : string :=
  match s with
  | String c r => if is_white_space c then trim_start r else s
  | EmptyString => s
  end.

(** Leading [DecimalDigits]: their value on top of [acc], how many there
    were on top of [count], and what follows them. *)
Fixpoint parse_digits (s : string) (acc count : Z) : Z * Z * string :=
  match s with
  | String c r =>
      if is_digit c then parse_digits r (10 * acc + digit_value c) (count + 1)
      else (acc, count, s)
  | EmptyString => (acc, count, s)
  end.

Definition parse_sign (s : string) : bool * string :=
  match s with
  | String "-"%char r => (true, r)
  | String "+"%char r => (false, r)
  | _ => (false, s)
  end.

(** [ExponentPart], when one is there with at least one digit. *)
Definition parse_exponent (s : string) : Z :=
  match s with
  | String c r =>
      if (Ascii.eqb c "e" || Ascii.eqb c "E")%bool then
        let (neg, r1) := parse_sign r in
        let '(e, n, _) := parse_digits r1 0 0 in
        if n =? 0 then 0 else if neg then - e else e
      else 0
  | EmptyString => 0
  end.

(** [parseFloat(string)]: the longest prefix of the trimmed argument that
    is a [StrDecimalLiteral], or [NaN] when there is none. *)
Definition parseFloat (input : string) : float :=
  let (neg, s) := parse_sign (trim_start input) in
  if String.prefix "Infinity" s then (if neg then PrimFloat.opp Infinity else Infinity)
  else
    let '(ip, ic, s1) := parse_digits s 0 0 in
    let '(m, fc, s2) :=
      match s1 with
      | String "."%char r => parse_digits r ip 0
      | _ => (ip, 0, s1)
      end in
    if ic + fc =? 0 then NaN
    else of_decimal neg m (parse_exponent s2 - fc).

(** *** The order of the Numbers

    The Numbers other than [NaN], in units of the least subnormal, with the
    two infinities: this is how they compare. *)

Inductive ext : Type := NegInf | Fin (z : Z) | PosInf.

Definition ext_compare (u v : ext) : comparison :=
  match u, v with
  | NegInf, NegInf => Eq
  | NegInf, _ => Lt
  | Fin _, NegInf => Gt
  | Fin a, Fin b => a ?= b
  | Fin _, PosInf => Lt
  | PosInf, PosInf => Eq
  | PosInf, _ => Gt
  end.

Definition scaled (m : positive) (e : Z) : Z := Zpos m * 2 ^ (e - emin).

Definition SFrank (x : spec_float) : option ext :=
  match x with
  | S754_nan => None
  | S754_infinity s => Some (if s then NegInf else PosInf)
  | S754_zero _ => Some (Fin 0)
  | S754_finite s m e => Some (Fin (cond_Zopp s (scaled m e)))
  end.

Definition rank (x : float) : option ext := SFrank (Prim2SF x).

(** *** [Number::toString], radix 10 *)

Definition digit_char (d : Z) : ascii := ascii_of_nat (Z.to_nat (48 + d)).

Fixpoint digits_loop (fuel : nat) (n : Z) (acc : string) : string :=
  match fuel with
  | O => acc
  | S fuel' =>
      let acc' := String (digit_char (n mod 10)) acc in
      if n <? 10 then acc' else digits_loop fuel' (n / 10) acc'
  end.

(** The decimal digits of [n], for [0 <= n]. *)
Definition digits (n : Z) : string :=
  digits_loop (S (Z.to_nat (Z.log2 n))) n EmptyString.

Fixpoint zeros (n : nat) : string :=
  match n with O => EmptyString | S n' => String "0"%char (zeros n') end.

(** [num / den < 10 ^ n], on exact integers. *)
Definition lt_pow10 (num den n : Z) : bool :=
  if 0 <=? n then num <? den * 10 ^ n else num * 10 ^ (- n) <? den.

Fixpoint first_pow10_above (fuel : nat) (num den n : Z) : Z :=
  match fuel with
  | O => n
  | S fuel' =>
      if lt_pow10 num den n then n else first_pow10_above fuel' num den (n + 1)
  end.

(** The least [n] with [num / den < 10 ^ n]. *)
Definition decimal_exponent (num den : Z) : Z :=
  first_pow10_above 4 num den ((Z.log2 num - Z.log2 den) * 30103 / 100000 - 1).

(** For [k] digits: the [k]-digit integers [s] just below and just above
    [x / 10 ^ (n - k)]; one is kept when [s * 10 ^ (n - k)] is the Number
    [x], the closer one when both are, the even one on a tie. *)
Definition candidate (x : float) (num den n k : Z) : option Z :=
  let p := n - k in
  let '(a, b) := if 0 <=? p then (num, den * 10 ^ p) else (num * 10 ^ (- p), den) in
  let lo := a / b in
  let hi := lo + 1 in
  let ok s := PrimFloat.eqb (of_decimal false s p) x in
  match ok lo, ok hi with
  | true, true =>
      match (a - lo * b) ?= (hi * b - a) with
      | Lt => Some lo
      | Gt => Some hi
      | Eq => Some (if Z.even lo then lo else hi)
      end
  | true, false => Some lo
  | false, true => Some hi
  | false, false => None
  end.

(** The least [k], from [k] up, with a candidate; seventeen digits always
    have one, and the fuel is not used up. *)
Fixpoint shortest (fuel : nat) (x : float) (num den n k : Z) : Z * Z :=
  match fuel with
  | O => (0, 1)
  | S fuel' =>
      match candidate x num den n k with
      | Some s => (s, k)
      | None => shortest fuel' x num den n (k + 1)
      end
  end.

(** The integers [n], [k] and [s] of [Number::toString] for a finite
    [x > 0]: [k] as small as possible with [s * 10 ^ (n - k)] the Number [x]
    and [10 ^ (k - 1) <= s < 10 ^ k]. *)
Definition shortest_decimal (x : float) : Z * Z * Z :=
  match Prim2SF x with
  | S754_finite _ mx ex =>
      let (num, den) := if 0 <=? ex then (Zpos mx * 2 ^ ex, 1) else (Zpos mx, 2 ^ (- ex)) in
      let n := decimal_exponent num den in
      let (s, k) := shortest 17 x num den n 1 in
      if s =? 10 ^ k then (n + 1, k, s / 10) else (n, k, s)
  | _ => (0, 1, 0)
  end.

Definition substring_from (i : Z) (s : string) : string :=
  String.substring (Z.to_nat i) (String.length s - Z.to_nat i) s.

Definition format_decimal (n k s : Z) : string :=
  let ds := digits s in
  if (k <=? n) && (n <=? 21) then
    ds ++ zeros (Z.to_nat (n - k))
  else if (0 <? n) && (n <=? 21) then
    String.substring 0 (Z.to_nat n) ds ++ "." ++ substring_from n ds
  else if (-6 <? n) && (n <=? 0) then
    "0." ++ zeros (Z.to_nat (- n)) ++ ds
  else
    let e := n - 1 in
    let exponent := (if e <? 0 then "-" else "+") ++ digits (Z.abs e) in
    if k =? 1 then ds ++ "e" ++ exponent
    else String.substring 0 1 ds ++ "." ++ substring_from 1 ds ++ "e" ++ exponent.

(** [Number.prototype.toString()] *)
Definition toString (x : float) : string :=
  match Prim2SF x with
  | S754_nan => "NaN"
  | S754_zero _ => "0"
  | S754_infinity neg => if neg then "-Infinity" else "Infinity"
  | S754_finite neg _ _ =>
      let '(n, k, s) := shortest_decimal (PrimFloat.abs x) in
      (if neg then "-" else "") ++ format_decimal n k s
  end.

End JsNumber.

(** ** Values of the optional fields *)

(** What a field of a holding can hold once the response is parsed: nothing,
    a Number or a String. *)
Inductive jsval : Type :=
| JsUndefined
| JsNull
| JsNum (x : float)
| JsStr (s : string).

(** [v?.toString()] *)
Definition toString_opt (v : jsval) : option string :=
  match v with
  | JsUndefined | JsNull => None
  | JsNum x => Some (JsNumber.toString x)
  | JsStr s => Some s
  end.

(** [parseFloat(v?.toString() || '0')], the expression the sort engine and
    the subtotal share. *)
Definition parseFloat_or_0 (v : jsval) : float :=
  JsNumber.parseFloat (JsString.or_else (toString_opt v) "0").

(** [x || 0] on a Number that may be absent. *)
Definition number_or_0 (x : option float) : float :=
  match x with
  | Some v => if JsNumber.truthy v then v else 0%float
  | None => 0%float
  end.

(** ** Holdings *)

Module Token.

(** [TrackedWalletToken] of [hooks/useWalletTracking]. *)
Record TrackedWalletToken : Type := mk {
  id : string;
  name : option string;
  symbol : option string;
  address : string;
  chain : option string;
  position_type : string;
  quantity : jsval;
  price : jsval;
  value : jsval;
  price_change_24h : option float;
  decimals : option float;
  icon_url : option string;
  updated_at : option string;
  wallet_address : string;
  wallet_chain : string
}.

End Token.

Abbreviation TrackedWalletToken := Token.TrackedWalletToken.

(** ** [Array.prototype.sort]

    ECMA-262 fixes the result of [sort] for a consistent comparator: the
    one stable ordering.  The order in which the comparator is called is
    left to the engine; this model inserts each element, from the last to
    the first, into the sorted rest, in front of the first element it is
    not greater than.  For a comparator that is not consistent the
    standard leaves the order itself to the engine: there the model
    stands for one engine among others, and only what holds of every
    permutation is said of the program. *)

Module JsArray.

(** How [sort] reads the Number a comparator returns: its sign, with [NaN]
    read as [+0]. *)
Definition verdict (v : float) : comparison :=
  if PrimFloat.ltb v 0%float then Lt
  else if PrimFloat.ltb 0%float v then Gt
  else Eq.

(** The same reading on the specification of binary64. *)
Definition SFverdict (v : spec_float) : comparison :=
  match v with
  | S754_finite s _ _ | S754_infinity s => if s then Lt else Gt
  | _ => Eq
  end.

Section Sort.
Context {A : Type}.
Variable comparefn : A -> A -> float.

(** [x] may stand in front of [y]: the comparator does not put [x] after
    [y]. *)
Definition in_order (x y : A) : Prop := verdict (comparefn x y) <> Gt.

Fixpoint insert (x : A) (l : list A) : list A :=
  match l with
  | [] => [x]
  | y :: l' =>
      match verdict (comparefn x y) with
      | Gt => y :: insert x l'
      | _ => x :: l
      end
  end.

Fixpoint sort (l : list A) : list A :=
  match l with
  | [] => []
  | x :: l' => insert x (sort l')
  end.

End Sort.

(** [a] stands at some place of the sequence and [b] at a later one. *)
Inductive occurs_before {A : Type} (a b : A) : list A -> Prop :=
| before_here (l : list A) : In b l -> occurs_before a b (a :: l)
| before_later (x : A) (l : list A) : occurs_before a b l -> occurs_before a b (x :: l).

(** A class of elements of [l] that the comparator judges equal to one
    another. *)
Definition tie_class {A : Type} (comparefn : A -> A -> float) (l : list A) (P : A -> bool) : Prop :=
  forall x y, In x l -> In y l -> P x = true -> P y = true ->
              verdict (comparefn x y) = Eq.

(** The comparator is transitive on the elements of [l]. *)
Definition transitive_on {A : Type} (comparefn : A -> A -> float) (l : list A) : Prop :=
  forall x y z, In x l -> In y l -> In z l ->
                in_order comparefn x y -> in_order comparefn y z -> in_order comparefn x z.

(** The elements [comparefn] ties with [x]. *)
Definition ties_with {A : Type} (comparefn : A -> A -> float) (x y : A) : bool :=
  match verdict (comparefn x y) with Eq => true | _ => false end.

(** [reduce] with an initial value. *)
Definition reduce {A B : Type} (f : B -> A -> B) (init : B) (l : list A) : B :=
  fold_left f l init.

End JsArray.

(** ** Ordinary objects used as maps *)

Module JsObject.

(** An object made by the literal [{}]: its own properties in the order of
    their creation.  Its prototype is [Object.prototype]. *)
Definition t (V : Type) : Type := list (string * V).

(** The property names every such object inherits. *)
Definition Object_prototype_names : list string :=
  [ "constructor"; "__defineGetter__"; "__defineSetter__"; "hasOwnProperty";
    "__lookupGetter__"; "__lookupSetter__"; "isPrototypeOf";
    "propertyIsEnumerable"; "toString"; "valueOf"; "__proto__";
    "toLocaleString" ].

(** What [obj[key]] evaluates to: the value of an own property, a function
    or object found on the prototype, or [undefined]. *)
Inductive lookup (V : Type) : Type :=
| Own (v : V)
| Inherited
| Undefined.
Arguments Own {V} v.
Arguments Inherited {V}.
Arguments Undefined {V}.

Fixpoint get_own {V : Type} (obj : t V) (key : string) : option V :=
  match obj with
  | [] => None
  | (k, v) :: rest => if String.eqb key k then Some v else get_own rest key
  end.

Definition inherits (key : string) : bool :=
  existsb (String.eqb key) Object_prototype_names.

Definition get {V : Type} (obj : t V) (key : string) : lookup V :=
  match get_own obj key with
  | Some v => Own v
  | None => if inherits key then Inherited else Undefined
  end.

(** [obj[key] = v] for a key that is not inherited: the own property is
    updated in place, or created last. *)
Fixpoint set {V : Type} (obj : t V) (key : string) (v : V) : t V :=
  match obj with
  | [] => [(key, v)]
  | (k, w) :: rest =>
      if String.eqb key k then (k, v) :: rest else (k, w) :: set rest key v
  end.

(** An array index is a canonical numeric string for an integer from [0]
    to [2^32 - 2]. *)
Definition array_index (key : string) : option Z :=
  let '(n, count, rest) := JsNumber.parse_digits key 0 0 in
  if (String.eqb rest "" && String.eqb (JsNumber.digits n) key
      && Z.leb n 4294967294)%bool
  then Some n else None.

Fixpoint insert_index {V : Type} (i : Z) (p : string * V)
    (l : list (Z * (string * V))) : list (Z * (string * V)) :=
  match l with
  | [] => [(i, p)]
  | (j, q) :: l' =>
      if Z.leb i j then (i, p) :: l else (j, q) :: insert_index i p l'
  end.

(** The own properties whose names are array indices, by ascending index. *)
Fixpoint index_properties {V : Type} (obj : t V) : list (Z * (string * V)) :=
  match obj with
  | [] => []
  | (k, v) :: rest =>
      match array_index k with
      | Some i => insert_index i (k, v) (index_properties rest)
      | None => index_properties rest
      end
  end.

Definition is_array_index (key : string) : bool :=
  match array_index key with Some _ => true | None => false end.

(** The other own properties, by creation. *)
Definition string_properties {V : Type} (obj : t V) : t V :=
  filter (fun p => negb (is_array_index (fst p))) obj.

(** [Object.entries(obj)]: array indices first, ascending, then the other
    names in the order of their creation. *)
Definition entries {V : Type} (obj : t V) : list (string * V) :=
  map snd (index_properties obj) ++ string_properties obj.

Definition keys {V : Type} (obj : t V) : list string := map fst (entries obj).

End JsObject.

(** ** Completions *)

Inductive js_error : Type := TypeError.

(** A call either returns or throws. *)
Inductive completion (A : Type) : Type :=
| Return (a : A)
| Throw (e : js_error).
Arguments Return {A} a.
Arguments Throw {A} e.

Definition bind {A B : Type} (c : completion A) (f : A -> completion B) : completion B :=
  match c with
  | Return a => f a
  | Throw e => Throw e
  end.

(** [forEach] with a callback that updates a state and may throw. *)
Fixpoint forEach {A S : Type} (callback : S -> A -> completion S) (l : list A) (st : S) : completion S :=
  match l with
  | [] => Return st
  | x :: l' => bind (callback st x) (forEach callback l')
  end.

(** One [String.prototype.localeCompare]: the comparison by code units,
    yielding [-1], [0] or [1]. *)
Definition codeUnitCompare (s t : string) : float :=
  match String.compare s t with
  | Lt => (-1)%float
  | Eq => 0%float
  | Gt => 1%float
  end.

(** ** The component *)

Section PortfolioTokenDisplay.

(** [localeCompare] is left to the engine and its locale data. *)
Variable localeCompare : string -> string -> float.

(** The comparator passed to [sort]. *)
Definition compareTokens (sortBy : string) (a b : TrackedWalletToken) : float :=
  if String.eqb sortBy "value" then
    let valueA := parseFloat_or_0 (Token.value a) in
    let valueB := parseFloat_or_0 (Token.value b) in
    (valueB - valueA)%float
  else if String.eqb sortBy "balance" then
    let balanceA := parseFloat_or_0 (Token.quantity a) in
    let balanceB := parseFloat_or_0 (Token.quantity b) in
    (balanceB - balanceA)%float
  else if String.eqb sortBy "performance" then
    let perfA := number_or_0 (Token.price_change_24h a) in
    let perfB := number_or_0 (Token.price_change_24h b) in
    (perfB - perfA)%float
  else if String.eqb sortBy "alphabetical" then
    let nameA := JsString.toLowerCase
      (JsString.or_else (Token.name a) (JsString.or_else (Token.symbol a) "")) in
    let nameB := JsString.toLowerCase
      (JsString.or_else (Token.name b) (JsString.or_else (Token.symbol b) "")) in
    localeCompare nameA nameB
  else if String.eqb sortBy "chain" then
    let chainA := JsString.toLowerCase (getChainDisplayName (Token.chain a)) in
    let chainB := JsString.toLowerCase (getChainDisplayName (Token.chain b)) in
    localeCompare chainA chainB
  else 0%float.

(** [sortedTokens]: a sorted copy of [tokens]. *)
Definition sortedTokens (tokens : list TrackedWalletToken) (sortBy : string) : list TrackedWalletToken :=
  JsArray.sort (compareTokens sortBy) tokens.

Definition Grouped : Type := JsObject.t (list TrackedWalletToken).

(** The body of the [forEach] callback in [getTokensByBlockchain]. *)
Definition groupToken (grouped : Grouped) (token : TrackedWalletToken) : completion Grouped :=
  let chain := getChainDisplayName (Token.chain token) in
  let grouped :=
    match JsObject.get grouped chain with
    | JsObject.Undefined => JsObject.set grouped chain []
    | _ => grouped
    end in
  match JsObject.get grouped chain with
  | JsObject.Own arr => Return (JsObject.set grouped chain (arr ++ [token])%list)
  | _ => Throw TypeError
  end.

(** [getTokensByBlockchain] over the sorted sequence. *)
Definition getTokensByBlockchain (sorted : list TrackedWalletToken) : completion Grouped :=
  forEach groupToken sorted [].

(** What [renderBlockchainSection] shows for one entry. *)
Record BlockchainSection : Type := {
  blockchainTitle : string;
  tokenCount : nat;
  totalValue : float;
  sectionData : list TrackedWalletToken
}.

Definition sumValue (sum : float) (token : TrackedWalletToken) : float :=
  (sum + parseFloat_or_0 (Token.value token))%float.

Definition renderBlockchainSection (item : string * list TrackedWalletToken) : BlockchainSection :=
  let (blockchain, blockchainTokens) := item in
  {| blockchainTitle := blockchain;
     tokenCount := List.length blockchainTokens;
     totalValue := JsArray.reduce sumValue 0%float blockchainTokens;
     sectionData := blockchainTokens |}.

(** The props the component branches on; the callbacks and
    [showWalletAddress] only reach the presentation. *)
Record PortfolioTokenDisplayProps : Type := {
  tokens : list TrackedWalletToken;
  loading : bool;
  error : option string
}.

(** What the component returns: one of the three notices, the grouped list
    with its sections, or the flat list of holdings. *)
Inductive Rendered : Type :=
| LoadingNotice
| ErrorNotice (message : string)
| EmptyNotice
| GroupedList (sections : list BlockchainSection)
| FlatList (data : list TrackedWalletToken).

(** The sections of [Object.entries(getTokensByBlockchain())]. *)
Definition blockchainSections (sorted : list TrackedWalletToken) : completion (list BlockchainSection) :=
  bind (getTokensByBlockchain sorted)
       (fun grouped => Return (map renderBlockchainSection (JsObject.entries grouped))).

(** The component, for the current value of the [sortBy] state. *)
Definition PortfolioTokenDisplay (props : PortfolioTokenDisplayProps) (sortBy : string) : completion Rendered :=
  let sorted := sortedTokens (tokens props) sortBy in
  if loading props then Return LoadingNotice
  else if JsString.truthy (JsString.or_else (error props) "") then
    Return (ErrorNotice (JsString.or_else (error props) ""))
  else if Nat.eqb (List.length (tokens props)) 0 then Return EmptyNotice
  else if String.eqb sortBy "chain" then
    bind (blockchainSections sorted) (fun sections => Return (GroupedList sections))
  else Return (FlatList sorted).

End PortfolioTokenDisplay.

(** ** What the spec calls the parts *)

(** The five documented sort criteria. *)
Definition sortOptions : list string :=
  [ "value"; "balance"; "performance"; "alphabetical"; "chain" ].

(** The display name a holding is grouped under. *)
Definition chainOf (token : TrackedWalletToken) : string :=
  getChainDisplayName (Token.chain token).

(** The holdings of one chain, in the order they have in [l]. *)
Definition holdingsOf (chain : string) (l : list TrackedWalletToken) : list TrackedWalletToken :=
  filter (fun token => String.eqb (chainOf token) chain) l.

Definition mem (k : string) (l : list string) : bool := existsb (String.eqb k) l.

(** The distinct names of a sequence, each at its first occurrence. *)
Definition first_occurrences (l : list string) : list string :=
  fold_left (fun seen k => if mem k seen then seen else seen ++ [k])%list l [].

(** The groups of a sequence: one per distinct display name, in the order
    of first occurrence, each with its holdings in the order of [l]. *)
Definition groupsOf (l : list TrackedWalletToken) : list (string * list TrackedWalletToken) :=
  map (fun k => (k, holdingsOf k l)) (first_occurrences (map chainOf l)).

(** A display name that collides with a property of [Object.prototype]. *)
Definition inheritedName (token : TrackedWalletToken) : bool :=
  JsObject.inherits (chainOf token).

(** Ascending order of the names that are array indices. *)
Definition index_le (a b : string) : Prop :=
  match JsObject.array_index a, JsObject.array_index b with
  | Some i, Some j => (i <= j)%Z
  | _, _ => False
  end.

Definition notIndex (k : string) : bool := negb (JsObject.is_array_index k).

(** An indexed property carries the index of its own name. *)
Definition indexed_ok {V : Type} (e : Z * (string * V)) : Prop :=
  JsObject.array_index (fst (snd e)) = Some (fst e).

(** The Number a numeric criterion compares holdings by; the other
    criteria compare strings. *)
Definition sortKey (sortBy : string) (token : TrackedWalletToken) : float :=
  if String.eqb sortBy "value" then parseFloat_or_0 (Token.value token)
  else if String.eqb sortBy "balance" then parseFloat_or_0 (Token.quantity token)
  else if String.eqb sortBy "performance" then number_or_0 (Token.price_change_24h token)
  else 0%float.

(** No holding has the key [NaN]. *)
Definition keysParse (sortBy : string) (l : list TrackedWalletToken) : bool :=
  forallb (fun token => negb (JsNumber.isNaN (sortKey sortBy token))) l.

(** The conversion section 7 of the spec describes: "any field that fails
    to parse as a finite number is treated as zero for sorting/aggregation".
    The program computes [parseFloat_or_0]; this one is what it is compared
    with. *)
Definition parseOrZero (v : jsval) : float :=
  let x := parseFloat_or_0 v in
  if PrimFloat.is_finite x then x else 0%float.

(** The subtotal the spec asks for: the sum of [parseOrZero] over the
    values of a group. *)
Definition subtotalUsd (group : list TrackedWalletToken) : float :=
  fold_left (fun sum token => (sum + parseOrZero (Token.value token))%float) group 0%float.

(** The sort by quantity the spec asks for: the same engine, comparing
    [parseOrZero] keys. *)
Definition sortByQuantityOrZero (tokens : list TrackedWalletToken) : list TrackedWalletToken :=
  JsArray.sort
    (fun a b => (parseOrZero (Token.quantity b) - parseOrZero (Token.quantity a))%float)
    tokens.

(** The props of a loaded portfolio. *)
Definition loaded (l : list TrackedWalletToken) : PortfolioTokenDisplayProps :=
  {| tokens := l; loading := false; error := None |}.

(** The titles of the sections of a grouped list, in the order shown. *)
Definition titles (r : completion Rendered) : option (list string) :=
  match r with
  | Return (GroupedList sections) => Some (map blockchainTitle sections)
  | _ => None
  end.

(** ** Sample holdings *)

Definition holding (nm ch : string) (q v : jsval) (perf : option float) : TrackedWalletToken :=
  Token.mk nm (Some nm) (Some nm) "0x00" (Some ch) "wallet" q JsUndefined v perf
           None None None "0xabc" "EVM".

(** The holdings of the example in section 8 of the spec. *)
Definition spec_example : list TrackedWalletToken :=
  [ holding "USDC" "ETH" JsUndefined (JsStr "100.50") None;
    holding "SOL" "SOLANA" JsUndefined (JsStr "50") None;
    holding "ARB" "ARB" JsUndefined JsNull None ].

(** Its groups, as [getTokensByBlockchain] builds them. *)
Definition spec_example_grouped : Grouped :=
  [ ("Ethereum", [holding "USDC" "ETH" JsUndefined (JsStr "100.50") None]);
    ("SOLANA", [holding "SOL" "SOLANA" JsUndefined (JsStr "50") None]);
    ("Arbitrum", [holding "ARB" "ARB" JsUndefined JsNull None]) ].

Definition no_value (token : TrackedWalletToken) : bool :=
  match Token.value token with
  | JsUndefined | JsNull => true
  | _ => false
  end.

Definition mixed_values : list TrackedWalletToken :=
  [ holding "A" "ETH" JsUndefined JsNull None;
    holding "B" "SOL" JsUndefined (JsNum 5) None;
    holding "C" "ARB" JsUndefined JsUndefined None;
    holding "D" "ETH" JsUndefined (JsStr "10") None ].

(** A value that does not parse, next to one that does. *)
Definition unparseable_value : list TrackedWalletToken :=
  [ holding "X" "ETH" JsUndefined (JsStr "N/A") None;
    holding "Y" "ETH" JsUndefined (JsNum 5) None ].

Definition nan_value : list TrackedWalletToken :=
  [ holding "X" "ETH" JsUndefined (JsNum JsNumber.NaN) None;
    holding "Y" "ETH" JsUndefined (JsNum 5) None ].

(** A chain whose name is a property of [Object.prototype]. *)
Definition prototype_chain : list TrackedWalletToken :=
  [ holding "USDC" "ETH" JsUndefined (JsStr "100.50") None;
    holding "X" "constructor" JsUndefined (JsStr "50") None ].

(** Chains named by their numeric identifiers. *)
Definition numeric_chains : list TrackedWalletToken :=
  [ holding "OP" "10" JsUndefined (JsStr "7") None;
    holding "ETH" "9" JsUndefined (JsStr "3") None ].

Definition mixed_names : list TrackedWalletToken :=
  [ holding "Bitcoin" "ETH" JsUndefined JsNull None;
    holding "aave" "SOL" JsUndefined JsNull None;
    holding "Chainlink" "ARB" JsUndefined JsNull None ].

(* ================================================================= *)
(** * The rest of the portfolio view, and the wallet view *)

(** ** The sort buttons *)

(** The options [renderSortButtons] maps over: the criterion a button
    sets, and its caption. *)
Definition sortButtons : list (string * string) :=
  [ ("value", "Holdings"); ("balance", "Quantity"); ("performance", "24h%");
    ("alphabetical", "Name"); ("chain", "Chain") ].

(** [useState<SortOption>('value')] *)
Definition initialSortBy : string := "value".

(** [onPress] of the button at place [i]: [setSortBy(option.key)].  A
    place without a button receives no press. *)
Definition pressSortButton (sortBy : string) (i : nat) : string :=
  match nth_error sortButtons i with
  | Some option => fst option
  | None => sortBy
  end.

(** The [sortBy] state after a sequence of presses. *)
Definition pressSortButtons (presses : list nat) : string :=
  fold_left pressSortButton presses initialSortBy.

(** [sortBy === option.key] for each button: the ones that carry
    [sortButtonActive]. *)
Definition activeSortButtons (sortBy : string) : list bool :=
  map (fun option => String.eqb sortBy (fst option)) sortButtons.

(** ** [Number.prototype.toFixed]

    For a finite [x] below [10 ^ 21] in magnitude: the integer [n] nearest
    to [x * 10 ^ f], the larger one on a tie, written with [f] digits
    after the point.  The other Numbers are written as [toString] writes
    them. *)
Definition toFixed (x : float) (fractionDigits : nat) : string :=
  let f := Z.of_nat fractionDigits in
  let fixed (n : Z) : string :=
    let m := JsNumber.digits n in
    let m := JsNumber.zeros (fractionDigits + 1 - String.length m) ++ m in
    let k := String.length m in
    if Nat.eqb fractionDigits 0 then m
    else String.substring 0 (k - fractionDigits) m ++ "."
         ++ String.substring (k - fractionDigits) fractionDigits m in
  match Prim2SF x with
  | S754_finite neg mx ex =>
      let (num, den) :=
        if (0 <=? ex)%Z then (Zpos mx * 2 ^ ex, 1)%Z else (Zpos mx, 2 ^ (- ex))%Z in
      if (10 ^ 21 * den <=? num)%Z then JsNumber.toString x
      else (if neg then "-" else "") ++ fixed ((2 * num * 10 ^ f + den) / (2 * den))%Z
  | S754_zero _ => fixed 0%Z
  | _ => JsNumber.toString x
  end.

(** ** [renderToken] *)

(** What one place of the values grid holds, the value of
    [v && !isNaN(parseFloat(v.toString())) && <View>...</View>]: the field
    itself when it is falsy, [false] when its text is not a number, or the
    box, with the Number it hands to [toLocaleString]. *)
Inductive GridChild : Type :=
| Falsy (v : jsval)
| NotShown
| ValueBox (x : float).

Definition parsedBox (text : string) : GridChild :=
  let x := JsNumber.parseFloat text in
  if JsNumber.isNaN x then NotShown else ValueBox x.

Definition valueBox (v : jsval) : GridChild :=
  match v with
  | JsUndefined | JsNull => Falsy v
  | JsNum x => if JsNumber.truthy x then parsedBox (JsNumber.toString x) else Falsy v
  | JsStr s => if JsString.truthy s then parsedBox s else Falsy v
  end.

(** The card of one holding.  The locale formatting of the three boxes is
    left to the engine. *)
Record TokenCard : Type := {
  tokenName : string;
  tokenSymbol : string;
  chainBadge : string;
  chainText : string;
  priceBox : GridChild;
  quantityBox : GridChild;
  holdingsBox : GridChild;
  performancePositive : bool;
  performanceText : string;
  contractText : string;
  walletText : option string
}.

Definition renderToken (showWalletAddress : bool) (item : TrackedWalletToken) : TokenCard :=
  let chainDisplayName := getChainDisplayName (Token.chain item) in
  let performance := number_or_0 (Token.price_change_24h item) in
  {| tokenName := JsString.or_else (Token.name item) "Unknown Token";
     tokenSymbol := JsString.or_else (Token.symbol item) "UNK";
     chainBadge := getChainColor (Token.chain item);
     chainText := chainDisplayName;
     priceBox := valueBox (Token.price item);
     quantityBox := valueBox (Token.quantity item);
     holdingsBox := valueBox (Token.value item);
     performancePositive := PrimFloat.leb 0%float performance;
     performanceText :=
       (if PrimFloat.leb 0%float performance then "+" else "")
       ++ toFixed (performance * 100)%float 2 ++ "%";
     contractText := JsString.or_else (Some (Token.address item)) "N/A";
     walletText :=
       if showWalletAddress
       then Some (JsString.or_else (Some (Token.wallet_address item)) "N/A")
       else None |}.

(** The colour of the indicator in the header of a section:
    [getChainColor(blockchain)], on the display name the section is
    entered under. *)
Definition chainIndicator (item : string * list TrackedWalletToken) : string :=
  getChainColor (Some (fst item)).

(** ** The home screen *)

(** The value of [token.value || 0] and of the running total: a Number or
    a String. *)
Inductive primitive : Type :=
| Num (x : float)
| Str (s : string).

(** [v || 0] *)
Definition or_0 (v : jsval) : primitive :=
  match v with
  | JsUndefined | JsNull => Num 0%float
  | JsNum x => if JsNumber.truthy x then Num x else Num 0%float
  | JsStr s => if JsString.truthy s then Str s else Num 0%float
  end.

(** [a + b]: the sum of two Numbers; with a String on either side, the
    concatenation of the two as strings. *)
Definition plus (a b : primitive) : primitive :=
  match a, b with
  | Num x, Num y => Num (x + y)%float
  | Num x, Str t => Str (JsNumber.toString x ++ t)
  | Str s, Num y => Str (s ++ JsNumber.toString y)
  | Str s, Str t => Str (s ++ t)
  end.

(** [getTotalValue] of the home screen. *)
Definition getTotalValue (tokens : list TrackedWalletToken) : primitive :=
  JsArray.reduce (fun total token => plus total (or_0 (Token.value token))) (Num 0%float) tokens.


(** ** More sample data *)

(** The sections of the grouped list for the example of section 8 of the
    spec. *)
Definition spec_example_sections : list BlockchainSection :=
  [ {| blockchainTitle := "Arbitrum"; tokenCount := 1; totalValue := 0%float;
       sectionData := [holding "ARB" "ARB" JsUndefined JsNull None] |};
    {| blockchainTitle := "Ethereum"; tokenCount := 1; totalValue := 100.5%float;
       sectionData := [holding "USDC" "ETH" JsUndefined (JsStr "100.50") None] |};
    {| blockchainTitle := "SOLANA"; tokenCount := 1; totalValue := 50%float;
       sectionData := [holding "SOL" "SOLANA" JsUndefined (JsStr "50") None] |} ].

(** A holding whose value came as a text that is not empty. *)
Definition textValue (token : TrackedWalletToken) : bool :=
  match Token.value token with
  | JsStr s => JsString.truthy s
  | _ => false
  end.

(** ** The keys of the rows *)

(** [`${item.id || item.address}-${index}`], the key of a row of the flat
    list; the index of a row is written with its decimal digits. *)
Definition tokenKey (item : TrackedWalletToken) (index : nat) : string :=
  JsString.or_else (Some (Token.id item)) (Token.address item)
  ++ "-" ++ JsNumber.digits (Z.of_nat index).

(** [`${blockchain}-${token.id || token.address}-${index}`], the key of a
    row of a section. *)
Definition sectionTokenKey (blockchain : string) (token : TrackedWalletToken) (index : nat) : string :=
  blockchain ++ "-" ++ tokenKey token index.

(** The keys [keyExtractor] hands out for the rows of [data]. *)
Definition rowKeys (keyExtractor : TrackedWalletToken -> nat -> string)
    (data : list TrackedWalletToken) : list string :=
  map (fun row => keyExtractor (snd row) (fst row)) (combine (seq 0 (List.length data)) data).

(** The value of a sequence of decimal digits, on top of [acc]. *)
Fixpoint decimal_value (s : string) (acc : Z) : Z :=
  match s with
  | EmptyString => acc
  | String c r => decimal_value r (10 * acc + JsNumber.digit_value c)
  end.

Fixpoint all_digits (s : string) : bool :=
  match s with
  | EmptyString => true
  | String c r => JsNumber.is_digit c && all_digits r
  end.

(** The text the criterion by name compares holdings by. *)
Definition nameKey (token : TrackedWalletToken) : string :=
  JsString.toLowerCase
    (JsString.or_else (Token.name token) (JsString.or_else (Token.symbol token) "")).

(** The text the criterion by chain compares holdings by. *)
Definition chainKey (token : TrackedWalletToken) : string :=
  JsString.toLowerCase (getChainDisplayName (Token.chain token)).

(** The props under which the lists are built. *)
Definition listed (props : PortfolioTokenDisplayProps) : Prop :=
  loading props = false /\
  JsString.truthy (JsString.or_else (error props) "") = false /\
  tokens props <> [].

(** ** The wallet view

    [hooks/useWalletTokens] and [components/TokenDisplay]: the tokens of
    the connected wallets, as a flat list or grouped by the blockchain of
    their wallet. *)

(** [Object.values(obj)] *)
Definition Object_values {V : Type} (obj : JsObject.t V) : list V :=
  map snd (JsObject.entries obj).

Module WalletView.

Record Token : Type := mkToken {
  id : string;
  name : string;
  symbol : string;
  address : string;
  chain : string;
  position_type : string;
  quantity : option string;
  price : option float;
  value : option float;
  price_change_24h : option float;
  decimals : option float;
  icon_url : option string;
  updated_at : option string
}.

Record WalletTokens : Type := {
  wallet_address : string;
  blockchain : string;
  tokens : list Token
}.

Record Wallet : Type := {
  wallet_id : string;
  user_id : string;
  wallet_blockchain : string;
  wallet_wallet_address : string;
  connected_at : string
}.

(** [{...token, wallet_address}] *)
Record WalletToken : Type := {
  token : Token;
  token_wallet_address : string
}.

(** [{...token, wallet_address, blockchain}], and [{...token, blockchain}]
    on a token that carries its wallet address. *)
Record ChainToken : Type := {
  walletToken : WalletToken;
  token_blockchain : string
}.

(** [getAllTokens] *)
Definition getAllTokens (walletTokens : JsObject.t WalletTokens) : list ChainToken :=
  fold_left
    (fun allTokens walletData =>
       fold_left
         (fun allTokens token =>
            allTokens ++ [ {| walletToken :=
                                {| token := token;
                                   token_wallet_address := wallet_address walletData |};
                              token_blockchain := blockchain walletData |} ])%list
         (tokens walletData) allTokens)
    (Object_values walletTokens) [].

Definition Grouped : Type := JsObject.t (list WalletToken).

(** [tokensByBlockchain[walletData.blockchain].push({...})] *)
Definition pushToken (walletData : WalletTokens) (grouped : Grouped) (token : Token) : completion Grouped :=
  match JsObject.get grouped (blockchain walletData) with
  | JsObject.Own arr =>
      Return (JsObject.set grouped (blockchain walletData)
                (arr ++ [ {| token := token;
                             token_wallet_address := wallet_address walletData |} ])%list)
  | _ => Throw TypeError
  end.

(** The body of the outer [forEach] of [getTokensByBlockchain]. *)
Definition groupWallet (grouped : Grouped) (walletData : WalletTokens) : completion Grouped :=
  let grouped :=
    match JsObject.get grouped (blockchain walletData) with
    | JsObject.Undefined => JsObject.set grouped (blockchain walletData) []
    | _ => grouped
    end in
  forEach (pushToken walletData) (tokens walletData) grouped.

(** [getTokensByBlockchain] *)
Definition getTokensByBlockchain (walletTokens : JsObject.t WalletTokens) : completion Grouped :=
  forEach groupWallet (Object_values walletTokens) [].

(** What the hook hands to the component. *)
Record HookState : Type := {
  wallets : list Wallet;
  walletTokens : JsObject.t WalletTokens;
  loading : bool;
  refreshing : bool;
  error : option string
}.

Record BlockchainSection : Type := {
  blockchainTitle : string;
  tokenCount : nat;
  sectionData : list ChainToken
}.

Definition renderBlockchainSection (item : string * list WalletToken) : BlockchainSection :=
  let (blockchain, tokens) := item in
  {| blockchainTitle := blockchain;
     tokenCount := List.length tokens;
     sectionData :=
       map (fun token => {| walletToken := token; token_blockchain := blockchain |}) tokens |}.

Inductive Rendered : Type :=
| LoadingNotice
| ErrorNotice (message : string)
| NoWalletsNotice
| NoTokensNotice (subtext : string)
| GroupedList (sections : list BlockchainSection)
| FlatList (data : list ChainToken).

(** The component: both lists are computed before any notice is chosen. *)
Definition TokenDisplay (groupByBlockchain : bool) (hook : HookState) : completion Rendered :=
  let allTokens := getAllTokens (walletTokens hook) in
  bind (getTokensByBlockchain (walletTokens hook)) (fun tokensByBlockchain =>
    if loading hook && negb (refreshing hook) then Return LoadingNotice
    else if JsString.truthy (JsString.or_else (error hook) "") then
      Return (ErrorNotice (JsString.or_else (error hook) ""))
    else if Nat.eqb (List.length (wallets hook)) 0 then Return NoWalletsNotice
    else if Nat.eqb (List.length allTokens) 0 then
      Return (NoTokensNotice
                (if Nat.eqb (List.length (JsObject.keys (walletTokens hook))) 0
                 then "Loading wallet data..."
                 else "Your wallets don't contain any tokens"))
    else if groupByBlockchain then
      Return (GroupedList (map renderBlockchainSection (JsObject.entries tokensByBlockchain)))
    else Return (FlatList allTokens)).

(** The tokens of a wallet as the two lists carry them. *)
Definition walletTokensOf (walletData : WalletTokens) : list WalletToken :=
  map (fun token => {| token := token; token_wallet_address := wallet_address walletData |})
      (tokens walletData).

Definition chainTokensOf (walletData : WalletTokens) : list ChainToken :=
  map (fun token => {| walletToken := token; token_blockchain := blockchain walletData |})
      (walletTokensOf walletData).

(** The tokens of the wallets of one blockchain, in the order of [l]. *)
Definition tokensOn (k : string) (l : list WalletTokens) : list WalletToken :=
  flat_map (fun walletData =>
              if String.eqb (blockchain walletData) k then walletTokensOf walletData else [])
           l.

(** One group per blockchain, in the order of first occurrence. *)
Definition groupsOfWallets (l : list WalletTokens) : Grouped :=
  map (fun k => (k, tokensOn k l)) (first_occurrences (map blockchain l)).

(** A wallet whose blockchain is no property of [Object.prototype]. *)
Definition ownName (walletData : WalletTokens) : bool :=
  negb (JsObject.inherits (blockchain walletData)).

(** A wallet with a token, on a blockchain named like a property of
    [Object.prototype]. *)
Definition unpushable (walletData : WalletTokens) : bool :=
  JsObject.inherits (blockchain walletData)
  && match tokens walletData with [] => false | _ :: _ => true end.

End WalletView.

(** Two wallets on one blockchain and an empty one on another. *)
Definition sample_token (nm : string) : WalletView.Token :=
  WalletView.mkToken nm nm nm "0x00" "ETH" "wallet" None None None None None None None.

Definition sample_wallets : JsObject.t WalletView.WalletTokens :=
  [ ("w1", {| WalletView.wallet_address := "0xa"; WalletView.blockchain := "EVM";
              WalletView.tokens := [sample_token "USDC"; sample_token "DAI"] |});
    ("w2", {| WalletView.wallet_address := "0xb"; WalletView.blockchain := "SOLANA";
              WalletView.tokens := [] |});
    ("w3", {| WalletView.wallet_address := "0xc"; WalletView.blockchain := "EVM";
              WalletView.tokens := [sample_token "WETH"] |}) ].

Definition sample_hook : WalletView.HookState :=
  {| WalletView.wallets :=
       [ {| WalletView.wallet_id := "w1"; WalletView.user_id := "u";
            WalletView.wallet_blockchain := "EVM";
            WalletView.wallet_wallet_address := "0xa";
            WalletView.connected_at := "2025-01-01" |} ];
     WalletView.walletTokens := sample_wallets;
     WalletView.loading := false;
     WalletView.refreshing := false;
     WalletView.error := None |}.

(** Four holdings of one chain, the third with a value that does not
    parse. *)
Definition nan_ties : list TrackedWalletToken :=
  [ holding "T0" "ETH" JsUndefined (JsNum 1) None;
    holding "T1" "ETH" JsUndefined (JsNum 2) None;
    holding "T2" "ETH" JsUndefined (JsStr "abc") None;
    holding "T3" "ETH" JsUndefined (JsNum 2) None ].

(** The same holdings in the order V8 sorts them by value. *)
Definition nan_ties_by_value : list TrackedWalletToken :=
  [ holding "T1" "ETH" JsUndefined (JsNum 2) None;
    holding "T3" "ETH" JsUndefined (JsNum 2) None;
    holding "T0" "ETH" JsUndefined (JsNum 1) None;
    holding "T2" "ETH" JsUndefined (JsStr "abc") None ].

(** The sections of the grouped list for [mixed_values]. *)
Definition mixed_values_sections : list BlockchainSection :=
  [ {| blockchainTitle := "Arbitrum"; tokenCount := 1; totalValue := 0%float;
       sectionData := [holding "C" "ARB" JsUndefined JsUndefined None] |};
    {| blockchainTitle := "Ethereum"; tokenCount := 2; totalValue := 10%float;
       sectionData := [holding "A" "ETH" JsUndefined JsNull None;
                       holding "D" "ETH" JsUndefined (JsStr "10") None] |};
    {| blockchainTitle := "Solana"; tokenCount := 1; totalValue := 5%float;
       sectionData := [holding "B" "SOL" JsUndefined (JsNum 5) None] |} ].

(* ================================================================= *)
(** * Properties *)

Local Open Scope list_scope.

(** ** Strings and the chain normaliser *)

Lemma switch_lookup_none (cases : list (string * string)) (x : string) :
  ~ In x (map fst cases) -> switch_lookup cases x = None.
Proof.
  induction cases as [|[label result] rest IH]; simpl; intros Hnot.
  - reflexivity.
  - destruct (String.eqb_spec x label) as [->|Hne].
    + exfalso. apply Hnot. now left.
    + apply IH. intros Hin. apply Hnot. now right.
Qed.

Lemma toUpperCase_empty (s : string) :
  JsString.toUpperCase s = "" -> s = "".
Proof. destruct s; simpl; [reflexivity | discriminate]. Qed.

Lemma or_else_nonempty (s d : string) :
  s <> "" -> JsString.or_else (Some s) d = s.
Proof. destruct s; simpl; [congruence | reflexivity]. Qed.

(** A chain whose upper-case form is a label of the display table gets the
    name of that label. *)
Lemma getChainDisplayName_label (s label name : string) :
  JsString.case_variant s label ->
  switch_lookup display_table (JsString.toUpperCase label) = Some name ->
  getChainDisplayName (Some s) = name.
Proof.
  unfold JsString.case_variant, getChainDisplayName, chainUpper, option_map, switch_on.
  intros -> ->. reflexivity.
Qed.

(** A non-empty chain whose upper-case form is no label of the display
    table is returned as it is. *)
Lemma getChainDisplayName_verbatim (s : string) :
  s <> "" ->
  ~ In (JsString.toUpperCase s) (map fst display_table) ->
  getChainDisplayName (Some s) = s.
Proof.
  intros Hne Hnot.
  unfold getChainDisplayName, chainUpper, option_map, switch_on.
  rewrite (switch_lookup_none _ _ Hnot). now apply or_else_nonempty.
Qed.

Lemma case_variant_nonempty (s label : string) :
  JsString.case_variant s label -> JsString.toUpperCase label <> "" -> s <> "".
Proof.
  unfold JsString.case_variant. intros Heq Hne ->. simpl in Heq. congruence.
Qed.

Ltac not_a_label :=
  simpl; intuition discriminate.

(** C9.  The chain normaliser is total and has three fallbacks: an absent
    or empty chain is named "Unknown", a non-empty chain that matches no
    label of the display table is named by the raw input itself, and a
    chain that is absent or matches no label of the colour table gets the
    neutral gray "#666". *)
Theorem chain_normalizer_total_with_fallbacks (chain : option string) :
  (exists name color,
      getChainDisplayName chain = name /\ getChainColor chain = color) /\
  (chain = None \/ chain = Some "" -> getChainDisplayName chain = "Unknown") /\
  (forall s, chain = Some s -> s <> "" ->
      ~ In (JsString.toUpperCase s) (map fst display_table) ->
      getChainDisplayName chain = s) /\
  (chain = None \/
   (exists s, chain = Some s /\
      ~ In (JsString.toUpperCase s) (map fst color_table)) ->
   getChainColor chain = "#666").
Proof.
  split; [|split; [|split]].
  - eexists; eexists; split; reflexivity.
  - intros [-> | ->]; reflexivity.
  - intros s -> Hne Hnot. now apply getChainDisplayName_verbatim.
  - intros [-> | [s [-> Hnot]]]; [reflexivity|].
    unfold getChainColor, chainUpper, option_map, switch_on.
    now rewrite (switch_lookup_none _ _ Hnot).
Qed.

Lemma chain_normalizer_total_with_fallbacks_witness :
  getChainDisplayName None = "Unknown" /\
  getChainDisplayName (Some "") = "Unknown" /\
  getChainDisplayName (Some "Tron") = "Tron" /\
  getChainColor (Some "Tron") = "#666" /\
  getChainColor None = "#666".
Proof.
  destruct (chain_normalizer_total_with_fallbacks None) as (_ & Hname & _ & Hcolor).
  destruct (chain_normalizer_total_with_fallbacks (Some "")) as (_ & Hempty & _ & _).
  destruct (chain_normalizer_total_with_fallbacks (Some "Tron")) as (_ & _ & Hraw & Hgray).
  split; [|split; [|split; [|split]]].
  - apply Hname. now left.
  - apply Hempty. now right.
  - apply Hraw; [reflexivity | discriminate | not_a_label].
  - apply Hgray. right. exists "Tron". split; [reflexivity | not_a_label].
  - apply Hcolor. now left.
Defined.

(** C4, as the spec states it, fails: the long names are labels of the
    colour table only.  "ETHEREUM", "POLYGON", "ARBITRUM", "SOLANA" and
    "FANTOM" are case variants of themselves and come back unchanged. *)
Lemma long_chain_names_not_normalized :
  JsString.case_variant "ETHEREUM" "ETHEREUM" /\
  getChainDisplayName (Some "ETHEREUM") <> "Ethereum" /\
  getChainDisplayName (Some "ethereum") <> getChainDisplayName (Some "ETH") /\
  getChainDisplayName (Some "POLYGON") <> "Polygon" /\
  getChainDisplayName (Some "ARBITRUM") <> "Arbitrum" /\
  getChainDisplayName (Some "SOLANA") <> "Solana" /\
  getChainDisplayName (Some "FANTOM") <> "Fantom".
Proof. repeat split; vm_compute; discriminate. Qed.

(** C4, amended.  Matching is case-insensitive against the labels of the
    display table: every case variant of "ETH" is named "Ethereum", of
    "MATIC" "Polygon", of "ARB" "Arbitrum", of "SOL" "Solana" and of "FTM"
    "Fantom".  The long names are not labels of that table: a case variant
    of "ETHEREUM", "POLYGON", "ARBITRUM", "SOLANA" or "FANTOM" is returned
    as it was given, and shares the short alias's colour. *)
Theorem chain_display_name_case_insensitive (s : string) :
  (JsString.case_variant s "ETH" -> getChainDisplayName (Some s) = "Ethereum") /\
  (JsString.case_variant s "MATIC" -> getChainDisplayName (Some s) = "Polygon") /\
  (JsString.case_variant s "ARB" -> getChainDisplayName (Some s) = "Arbitrum") /\
  (JsString.case_variant s "SOL" -> getChainDisplayName (Some s) = "Solana") /\
  (JsString.case_variant s "FTM" -> getChainDisplayName (Some s) = "Fantom") /\
  (forall long short,
      In (long, short)
         [ ("ETHEREUM", "ETH"); ("POLYGON", "MATIC"); ("ARBITRUM", "ARB");
           ("SOLANA", "SOL"); ("FANTOM", "FTM") ] ->
      JsString.case_variant s long ->
      getChainDisplayName (Some s) = s /\
      getChainColor (Some s) = getChainColor (Some short)).
Proof.
  repeat match goal with |- _ /\ _ => split end;
    try (intros H; now apply (getChainDisplayName_label _ _ _ H)).
  intros long short Hin Hvar. simpl in Hin.
  repeat (destruct Hin as [Hin|Hin]); try contradiction;
    inversion Hin; subst; clear Hin.
  all: assert (Hne : s <> "")
    by (apply (case_variant_nonempty _ _ Hvar); discriminate).
  all: unfold JsString.case_variant in Hvar; split.
  all: try (apply getChainDisplayName_verbatim;
            [assumption | rewrite Hvar; not_a_label]).
  all: unfold getChainColor, chainUpper, option_map; rewrite Hvar; reflexivity.
Qed.

Lemma chain_display_name_case_insensitive_witness :
  getChainDisplayName (Some "eTh") = "Ethereum" /\
  getChainDisplayName (Some "matic") = "Polygon" /\
  getChainDisplayName (Some "Arb") = "Arbitrum" /\
  getChainDisplayName (Some "sol") = "Solana" /\
  getChainDisplayName (Some "fTM") = "Fantom" /\
  getChainDisplayName (Some "Solana") = "Solana" /\
  getChainDisplayName (Some "solana") = "solana" /\
  getChainColor (Some "solana") = getChainColor (Some "SOL").
Proof.
  destruct (chain_display_name_case_insensitive "eTh") as (Heth & _).
  destruct (chain_display_name_case_insensitive "matic") as (_ & Hmatic & _).
  destruct (chain_display_name_case_insensitive "Arb") as (_ & _ & Harb & _).
  destruct (chain_display_name_case_insensitive "sol") as (_ & _ & _ & Hsol & _).
  destruct (chain_display_name_case_insensitive "fTM") as (_ & _ & _ & _ & Hftm & _).
  destruct (chain_display_name_case_insensitive "Solana") as (_ & _ & _ & _ & _ & Hlong1).
  destruct (chain_display_name_case_insensitive "solana") as (_ & _ & _ & _ & _ & Hlong2).
  assert (Hin : In ("SOLANA", "SOL")
                  [ ("ETHEREUM", "ETH"); ("POLYGON", "MATIC"); ("ARBITRUM", "ARB");
                    ("SOLANA", "SOL"); ("FANTOM", "FTM") ]) by (simpl; tauto).
  repeat match goal with |- _ /\ _ => split end.
  - apply Heth. reflexivity.
  - apply Hmatic. reflexivity.
  - apply Harb. reflexivity.
  - apply Hsol. reflexivity.
  - apply Hftm. reflexivity.
  - apply (Hlong1 _ _ Hin). reflexivity.
  - apply (Hlong2 _ _ Hin). reflexivity.
  - apply (Hlong2 _ _ Hin). reflexivity.
Defined.

(** ** The sign of a difference of Numbers *)

Lemma verdict_spec (v : float) :
  JsArray.verdict v = JsArray.SFverdict (Prim2SF v).
Proof.
  unfold JsArray.verdict. rewrite !ltb_spec.
  change (Prim2SF 0) with (S754_zero false).
  destruct (Prim2SF v) as [s|s| |s m e]; try destruct s; reflexivity.
Qed.

(** Rounding does not look at the sign it is given. *)
Lemma binary_round_aux_sign (mx ex : Z) (lx : location) :
  JsArray.SFverdict (binary_round_aux prec emax true mx ex lx) =
  CompOpp (JsArray.SFverdict (binary_round_aux prec emax false mx ex lx)).
Proof.
  unfold binary_round_aux.
  destruct (shr_fexp prec emax mx ex lx) as [mrs' e'].
  destruct (shr_fexp prec emax _ e' loc_Exact) as [mrs'' e''].
  destruct (shr_m mrs''); try reflexivity.
  destruct (Z.leb e'' _); reflexivity.
Qed.

Lemma binary_normalize_opp (m e : Z) :
  JsArray.SFverdict (binary_normalize prec emax (- m) e false) =
  CompOpp (JsArray.SFverdict (binary_normalize prec emax m e false)).
Proof.
  destruct m as [|p|p]; simpl; try reflexivity; unfold binary_round;
    destruct (shl_align _ _ _) as [mz ez].
  - apply binary_round_aux_sign.
  - rewrite binary_round_aux_sign. now rewrite CompOpp_involutive.
Qed.

Lemma SFsub_antisym (x y : spec_float) :
  JsArray.SFverdict (SF64sub x y) = CompOpp (JsArray.SFverdict (SF64sub y x)).
Proof.
  unfold SF64sub.
  destruct x as [sx|sx| |sx mx ex], y as [sy|sy| |sy my ey];
    try (destruct sx); try (destruct sy); try reflexivity.
  all: unfold SFsub; rewrite Z.min_comm.
  all: match goal with
       | |- context [CompOpp (JsArray.SFverdict (binary_normalize _ _ ?b _ _))] =>
           match goal with
           | |- JsArray.SFverdict (binary_normalize _ _ ?a _ _) = _ =>
               replace a with (- b)%Z by (unfold cond_Zopp; lia)
           end
       end.
  all: apply binary_normalize_opp.
Qed.

(** [y - x] and [x - y] have opposite signs, also when the difference is
    rounded, infinite or [NaN]. *)
Lemma verdict_sub_antisym (x y : float) :
  JsArray.verdict (x - y) = CompOpp (JsArray.verdict (y - x)).
Proof. rewrite !verdict_spec, !sub_spec. apply SFsub_antisym. Qed.

(** *** Differences of Numbers that are not [NaN] *)

Local Open Scope Z_scope.

(** One shift to the right halves the mantissa. *)
Lemma shr_1_m (mrs : shr_record) :
  0 <= shr_m mrs -> shr_m (shr_1 mrs) = shr_m mrs / 2.
Proof.
  destruct mrs as [m r s]. simpl. intros Hm.
  destruct m as [|[p|p|]|p]; try lia; simpl shr_m.
  - reflexivity.
  - rewrite Pos2Z.inj_xI. apply Z.div_unique with 1; lia.
  - rewrite Pos2Z.inj_xO. apply Z.div_unique with 0; lia.
  - reflexivity.
Qed.

Lemma iter_shr_1_m (n : positive) (mrs : shr_record) :
  0 <= shr_m mrs ->
  shr_m (iter_pos shr_1 n mrs) = shr_m mrs / 2 ^ Zpos n.
Proof.
  revert mrs. induction n as [n IH|n IH|]; intros mrs Hm; simpl iter_pos.
  - assert (H1 : 0 <= shr_m (shr_1 mrs)).
    { rewrite shr_1_m by assumption. apply Z.div_pos; lia. }
    assert (H2 : 0 <= shr_m (iter_pos shr_1 n (shr_1 mrs))).
    { rewrite IH by assumption. apply Z.div_pos; [assumption|]. apply Z.pow_pos_nonneg; lia. }
    rewrite IH, IH, shr_1_m by assumption.
    rewrite !Z.div_div by (try apply Z.pow_pos_nonneg; lia).
    f_equal. replace (Zpos n~1) with (1 + Zpos n + Zpos n) by lia.
    rewrite !Z.pow_add_r by lia. rewrite Z.pow_1_r. ring.
  - assert (H2 : 0 <= shr_m (iter_pos shr_1 n mrs)).
    { rewrite IH by assumption. apply Z.div_pos; [assumption|]. apply Z.pow_pos_nonneg; lia. }
    rewrite IH, IH by assumption.
    rewrite !Z.div_div by (try apply Z.pow_pos_nonneg; lia).
    f_equal. replace (Zpos n~0) with (Zpos n + Zpos n) by lia.
    rewrite !Z.pow_add_r by lia. ring.
  - rewrite shr_1_m by assumption. reflexivity.
Qed.

(** A mantissa of [d] binary digits is at least [2 ^ (d - 1)]. *)
Lemma digits2_pos_lower (p : positive) :
  2 ^ (Zpos (digits2_pos p) - 1) <= Zpos p.
Proof.
  induction p as [p IH|p IH|]; simpl digits2_pos.
  - replace (Zpos (Pos.succ (digits2_pos p)) - 1) with (1 + (Zpos (digits2_pos p) - 1)) by lia.
    rewrite Z.pow_add_r by lia. change (2 ^ 1) with 2. lia.
  - replace (Zpos (Pos.succ (digits2_pos p)) - 1) with (1 + (Zpos (digits2_pos p) - 1)) by lia.
    rewrite Z.pow_add_r by lia. change (2 ^ 1) with 2. lia.
  - simpl. lia.
Qed.

Lemma shr_record_of_loc_m (m : Z) (l : location) : shr_m (shr_record_of_loc m l) = m.
Proof. destruct l as [|[]]; reflexivity. Qed.

(** Bringing a mantissa to its format exponent leaves at least its leading
    digit, from the least exponent on. *)
Lemma shr_fexp_pos (m e : Z) (l : location) :
  0 < m -> emin <= e ->
  0 < shr_m (fst (shr_fexp prec emax m e l)) /\ emin <= snd (shr_fexp prec emax m e l).
Proof.
  intros Hm He. unfold shr_fexp, shr.
  destruct m as [|p|p]; try lia. simpl Zdigits2.
  destruct (fexp prec emax (Zpos (digits2_pos p) + e) - e) as [|n|n] eqn:Hn; simpl fst; simpl snd;
    rewrite ?shr_record_of_loc_m; try (split; [lia | assumption]).
  unfold fexp in Hn.
  split; [|lia].
  rewrite iter_shr_1_m by (rewrite shr_record_of_loc_m; lia).
  rewrite shr_record_of_loc_m.
  assert (Hle : 2 ^ Zpos n <= Zpos p).
  { eapply Z.le_trans; [|apply digits2_pos_lower].
    apply Z.pow_le_mono_r; [lia|]. unfold prec in *. lia. }
  apply Z.div_str_pos. split; [apply Z.pow_pos_nonneg; lia | assumption].
Qed.

Lemma round_nearest_even_pos (m : Z) (l : location) : 0 < m -> 0 < round_nearest_even m l.
Proof.
  intros Hm. unfold round_nearest_even.
  destruct l as [|[]]; try lia. destruct (Z.even m); lia.
Qed.

Lemma binary_round_aux_verdict (s : bool) (m e : Z) (l : location) :
  0 < m -> emin <= e ->
  JsArray.SFverdict (binary_round_aux prec emax s m e l) = if s then Lt else Gt.
Proof.
  intros Hm He. unfold binary_round_aux.
  pose proof (shr_fexp_pos m e l Hm He) as [H1 H1e].
  destruct (shr_fexp prec emax m e l) as [mrs' e']. simpl in H1, H1e.
  pose proof (shr_fexp_pos _ e' loc_Exact
                (round_nearest_even_pos _ (loc_of_shr_record mrs') H1) H1e) as [H2 _].
  destruct (shr_fexp prec emax _ e' loc_Exact) as [mrs'' e'']. simpl in H2.
  destruct (shr_m mrs''); try lia.
  destruct (Z.leb e'' _); reflexivity.
Qed.

(** A mantissa that is not zero is not rounded to zero. *)
Lemma binary_round_verdict (s : bool) (p : positive) (e : Z) :
  emin <= e ->
  JsArray.SFverdict (binary_round prec emax s p e) = if s then Lt else Gt.
Proof.
  intros He. unfold binary_round, shl_align.
  set (f := fexp prec emax (Zpos (digits2_pos p) + e)).
  assert (Hf : emin <= f) by (unfold f, fexp; lia).
  destruct (f - e); apply binary_round_aux_verdict; lia.
Qed.

Lemma binary_normalize_verdict (m e : Z) :
  emin <= e ->
  JsArray.SFverdict (binary_normalize prec emax m e false) = (m ?= 0).
Proof.
  intros He. destruct m as [|p|p]; simpl binary_normalize.
  - reflexivity.
  - now rewrite binary_round_verdict.
  - now rewrite binary_round_verdict.
Qed.

(** A binary64 number has an exponent from [emin] on. *)
Lemma valid_emin (s : bool) (m : positive) (e : Z) :
  valid_binary (S754_finite s m e) = true -> emin <= e.
Proof.
  simpl. unfold bounded, canonical_mantissa, fexp.
  intros H. apply andb_prop in H. destruct H as [H _].
  apply Z.eqb_eq in H. lia.
Qed.

Lemma iter_xO (m d : positive) : Zpos (Pos.iter xO m d) = Zpos m * 2 ^ Zpos d.
Proof.
  induction d as [|d IH] using Pos.peano_ind.
  - simpl. lia.
  - rewrite Pos.iter_succ, Pos2Z.inj_succ, Z.pow_succ_r by lia.
    change (Zpos (Pos.iter xO m d)~0) with (2 * Zpos (Pos.iter xO m d)).
    rewrite IH. ring.
Qed.

Lemma shl_align_fst (m : positive) (e ez : Z) :
  ez <= e -> Zpos (fst (shl_align m e ez)) = Zpos m * 2 ^ (e - ez).
Proof.
  intros Hle. unfold shl_align.
  destruct (ez - e) as [|d|d] eqn:Hd; simpl fst.
  - replace (e - ez) with 0 by lia. simpl. lia.
  - lia.
  - rewrite iter_xO. f_equal. f_equal. lia.
Qed.

Lemma compare_scaled (a b k : Z) : 0 < k -> (a * k ?= b * k) = (a ?= b).
Proof.
  intros Hk. destruct (Z.compare_spec a b) as [->|Hlt|Hgt].
  - apply Z.compare_refl.
  - apply Z.compare_lt_iff. nia.
  - apply Z.compare_gt_iff. nia.
Qed.

Lemma cond_Zopp_mul (s : bool) (a k : Z) : cond_Zopp s a * k = cond_Zopp s (a * k).
Proof. destruct s; simpl; ring. Qed.

(** The difference of two finite numbers has the sign of the difference of
    their values. *)
Lemma SFsub_finite_verdict (sx sy : bool) (mx my : positive) (ex ey : Z) :
  emin <= ex -> emin <= ey ->
  JsArray.SFverdict (SF64sub (S754_finite sy my ey) (S754_finite sx mx ex)) =
  (cond_Zopp sy (JsNumber.scaled my ey) ?= cond_Zopp sx (JsNumber.scaled mx ex)).
Proof.
  intros Hx Hy. unfold SF64sub, SFsub, JsNumber.scaled.
  set (ez := Z.min ey ex).
  rewrite binary_normalize_verdict by (unfold ez; lia).
  rewrite !shl_align_fst by (unfold ez; lia).
  rewrite <- Z.compare_sub.
  rewrite <- (compare_scaled _ _ (2 ^ (ez - emin))) by (apply Z.pow_pos_nonneg; unfold ez; lia).
  rewrite !cond_Zopp_mul, <- !Z.mul_assoc, <- !Z.pow_add_r by (unfold ez; lia).
  replace (ey - ez + (ez - emin)) with (ey - emin) by lia.
  replace (ex - ez + (ez - emin)) with (ex - emin) by lia.
  reflexivity.
Qed.

Lemma scaled_pos (m : positive) (e : Z) : emin <= e -> 0 < JsNumber.scaled m e.
Proof.
  intros He. apply Z.mul_pos_pos; [lia | apply Z.pow_pos_nonneg; lia].
Qed.

Lemma cond_Zopp_compare_0 (s : bool) (v : Z) :
  0 < v ->
  (cond_Zopp s v ?= 0) = (if s then Lt else Gt) /\
  (0 ?= cond_Zopp s v) = (if s then Gt else Lt).
Proof.
  intros Hv. destruct s; cbn [cond_Zopp]; split;
    (apply Z.compare_lt_iff || apply Z.compare_gt_iff); lia.
Qed.

(** The same for every pair of numbers that are not [NaN]. *)
Lemma SFsub_rank (x y : spec_float) (rx ry : JsNumber.ext) :
  valid_binary x = true -> valid_binary y = true ->
  JsNumber.SFrank x = Some rx -> JsNumber.SFrank y = Some ry ->
  JsArray.SFverdict (SF64sub y x) = JsNumber.ext_compare ry rx.
Proof.
  intros Vx Vy Hx Hy.
  destruct x as [sx|sx| |sx mx ex], y as [sy|sy| |sy my ey];
    unfold JsNumber.SFrank in Hx, Hy; try discriminate;
    injection Hx as <-; injection Hy as <-;
    try (destruct sx, sy; reflexivity).
  - (* a finite number minus a zero *)
    apply valid_emin in Vy.
    pose proof (scaled_pos my ey Vy) as Hpos.
    cbn [SF64sub SFsub JsArray.SFverdict JsNumber.ext_compare].
    rewrite (proj1 (cond_Zopp_compare_0 sy _ Hpos)). reflexivity.
  - (* a zero minus a finite number *)
    apply valid_emin in Vx.
    pose proof (scaled_pos mx ex Vx) as Hpos.
    cbn [SF64sub SFsub JsArray.SFverdict JsNumber.ext_compare].
    rewrite (proj2 (cond_Zopp_compare_0 sx _ Hpos)). now destruct sx.
  - apply valid_emin in Vx. apply valid_emin in Vy.
    now apply SFsub_finite_verdict.
Qed.

(** The sign of [y - x] is how [y] compares with [x], for Numbers other
    than [NaN]: a difference that is not zero is not rounded to zero. *)
Lemma verdict_sub_rank (x y : float) (rx ry : JsNumber.ext) :
  JsNumber.rank x = Some rx -> JsNumber.rank y = Some ry ->
  JsArray.verdict (y - x) = JsNumber.ext_compare ry rx.
Proof.
  unfold JsNumber.rank. intros Hx Hy.
  rewrite verdict_spec, sub_spec.
  apply SFsub_rank; auto using Prim2SF_valid.
Qed.

Lemma isNaN_rank (x : float) :
  JsNumber.isNaN x = false -> exists r, JsNumber.rank x = Some r.
Proof.
  unfold JsNumber.isNaN, JsNumber.rank. rewrite eqb_spec.
  destruct (Prim2SF x); simpl; try discriminate; intros _; eexists; reflexivity.
Qed.

Lemma ext_le_trans (u v w : JsNumber.ext) :
  JsNumber.ext_compare u v <> Gt -> JsNumber.ext_compare v w <> Gt ->
  JsNumber.ext_compare u w <> Gt.
Proof.
  destruct u as [|a|], v as [|b|], w as [|c|]; simpl; try congruence.
  rewrite !Z.compare_gt_iff. lia.
Qed.

Local Close Scope Z_scope.

Lemma codeUnitCompare_antisym (s t : string) :
  JsArray.verdict (codeUnitCompare t s) = CompOpp (JsArray.verdict (codeUnitCompare s t)).
Proof.
  unfold codeUnitCompare. rewrite (String.compare_antisym s t).
  destruct (String.compare t s); reflexivity.
Qed.

Lemma string_compare_trans (s t u : string) :
  String.compare s t <> Gt -> String.compare t u <> Gt -> String.compare s u <> Gt.
Proof.
  revert t u. induction s as [|a s IH]; intros [|b t] [|c u]; simpl; try congruence.
  unfold Ascii.compare.
  destruct (N.compare_spec (N_of_ascii a) (N_of_ascii b)) as [Hab|Hab|Hab];
    destruct (N.compare_spec (N_of_ascii b) (N_of_ascii c)) as [Hbc|Hbc|Hbc];
    destruct (N.compare_spec (N_of_ascii a) (N_of_ascii c)) as [Hac|Hac|Hac];
    try congruence; try lia.
  apply IH.
Qed.

Lemma codeUnitCompare_verdict (s t : string) :
  JsArray.verdict (codeUnitCompare s t) = String.compare s t.
Proof. unfold codeUnitCompare. destruct (String.compare s t); reflexivity. Qed.

Lemma codeUnitCompare_trans (s t u : string) :
  JsArray.verdict (codeUnitCompare s t) <> Gt ->
  JsArray.verdict (codeUnitCompare t u) <> Gt ->
  JsArray.verdict (codeUnitCompare s u) <> Gt.
Proof. rewrite !codeUnitCompare_verdict. apply string_compare_trans. Qed.

(** ** [sort] *)

Section SortFacts.
Context {A : Type}.
Variable comparefn : A -> A -> float.

Local Abbreviation insert := (JsArray.insert comparefn).
Local Abbreviation sort := (JsArray.sort comparefn).
Local Abbreviation in_order := (JsArray.in_order comparefn).

Lemma insert_perm (x : A) (l : list A) : Permutation (x :: l) (insert x l).
Proof.
  induction l as [|y l IH]; simpl.
  - apply Permutation_refl.
  - destruct (JsArray.verdict (comparefn x y)); try apply Permutation_refl.
    eapply perm_trans; [apply perm_swap|]. now apply perm_skip.
Qed.

Lemma sort_perm (l : list A) : Permutation l (sort l).
Proof.
  induction l as [|x l IH]; simpl.
  - apply perm_nil.
  - eapply perm_trans; [apply perm_skip, IH | apply insert_perm].
Qed.

Lemma sort_length (l : list A) : List.length (sort l) = List.length l.
Proof. symmetry. apply Permutation_length, sort_perm. Qed.

(** Inserting an element outside a class leaves the class's subsequence
    alone. *)
Lemma filter_insert_out (P : A -> bool) (x : A) (l : list A) :
  P x = false -> filter P (insert x l) = filter P l.
Proof.
  intros Hx. induction l as [|y l IH]; simpl.
  - now rewrite Hx.
  - destruct (JsArray.verdict (comparefn x y)); simpl; rewrite ?Hx, ?IH; reflexivity.
Qed.

(** An element of a class is inserted in front of the members it is not
    greater than. *)
Lemma filter_insert_in (P : A -> bool) (x : A) (l : list A) :
  P x = true ->
  (forall y, In y l -> P y = true -> in_order x y) ->
  filter P (insert x l) = x :: filter P l.
Proof.
  intros Hx Hle. induction l as [|y l IH]; simpl.
  - now rewrite Hx.
  - destruct (JsArray.verdict (comparefn x y)) eqn:Hv; simpl; rewrite ?Hx; try reflexivity.
    destruct (P y) eqn:Hy.
    + exfalso. now apply (Hle y (or_introl eq_refl) Hy).
    + apply IH. intros z Hz. apply Hle. now right.
Qed.

Lemma tie_class_tail (P : A -> bool) (x : A) (l : list A) :
  JsArray.tie_class comparefn (x :: l) P -> JsArray.tie_class comparefn l P.
Proof. intros H u v Hu Hv. apply H; now right. Qed.

Lemma sort_stable (P : A -> bool) (l : list A) :
  JsArray.tie_class comparefn l P ->
  filter P (sort l) = filter P l.
Proof.
  induction l as [|x l IH]; intros Heq; simpl; [reflexivity|].
  specialize (IH (tie_class_tail P x l Heq)).
  destruct (P x) eqn:Hx.
  - rewrite filter_insert_in; [now rewrite IH | assumption |].
    intros y Hin Hy. unfold JsArray.in_order.
    rewrite (Heq x y); [discriminate | now left | | assumption | assumption].
    right. now apply (Permutation_in _ (Permutation_sym (sort_perm l))).
  - now rewrite filter_insert_out, IH.
Qed.

Lemma insert_keeps_before (a b x : A) (l : list A) :
  JsArray.occurs_before a b l -> JsArray.occurs_before a b (insert x l).
Proof.
  induction 1 as [l Hin | y l Hb IH]; simpl.
  - destruct (JsArray.verdict (comparefn x a)).
    + now apply JsArray.before_later, JsArray.before_here.
    + now apply JsArray.before_later, JsArray.before_here.
    + apply JsArray.before_here.
      apply (Permutation_in _ (insert_perm x l)). now right.
  - destruct (JsArray.verdict (comparefn x y)).
    + now apply JsArray.before_later, JsArray.before_later.
    + now apply JsArray.before_later, JsArray.before_later.
    + now apply JsArray.before_later.
Qed.

Lemma insert_before (a b : A) (l : list A) :
  In b l -> in_order a b -> JsArray.occurs_before a b (insert a l).
Proof.
  intros Hin Hab. induction l as [|y l IH]; simpl; [destruct Hin|].
  destruct (JsArray.verdict (comparefn a y)) eqn:Hv;
    try now apply JsArray.before_here.
  destruct Hin as [->|Hin]; [now elim Hab|].
  apply JsArray.before_later. now apply IH.
Qed.

(** An element placed before one it is not greater than stays before it. *)
Lemma sort_keeps_before (a b : A) (l : list A) :
  in_order a b ->
  JsArray.occurs_before a b l -> JsArray.occurs_before a b (sort l).
Proof.
  intros Hab. induction 1 as [l Hin | y l Hb IH]; simpl.
  - apply insert_before; [|assumption].
    now apply (Permutation_in _ (sort_perm l)).
  - now apply insert_keeps_before.
Qed.

Lemma insert_in_order (x : A) (l : list A) :
  HdRel in_order x l -> insert x l = x :: l.
Proof.
  intros [|y l' Hxy]; simpl; [reflexivity|].
  unfold JsArray.in_order in Hxy.
  destruct (JsArray.verdict (comparefn x y)); congruence.
Qed.

(** A sequence whose neighbours are in order is left as it is. *)
Lemma sort_sorted_id (l : list A) : Sorted in_order l -> sort l = l.
Proof.
  induction 1 as [|x l Hs IH Hhd]; simpl; [reflexivity|].
  rewrite IH. now apply insert_in_order.
Qed.

Lemma sort_all_equal (l : list A) :
  (forall x y, JsArray.verdict (comparefn x y) = Eq) -> sort l = l.
Proof.
  intros Heq. apply sort_sorted_id.
  induction l as [|x l IH]; constructor; [assumption|].
  destruct l; constructor. unfold JsArray.in_order. now rewrite Heq.
Qed.

Hypothesis comparefn_antisym :
  forall x y, JsArray.verdict (comparefn y x) = CompOpp (JsArray.verdict (comparefn x y)).

Lemma insert_sorted (x : A) (l : list A) :
  Sorted in_order l -> Sorted in_order (insert x l).
Proof.
  induction 1 as [|y l Hs IH Hhd]; simpl.
  - repeat constructor.
  - destruct (JsArray.verdict (comparefn x y)) eqn:Hv.
    + repeat constructor; try assumption. unfold JsArray.in_order. now rewrite Hv.
    + repeat constructor; try assumption. unfold JsArray.in_order. now rewrite Hv.
    + constructor; [exact IH|].
      assert (Hyx : in_order y x).
      { unfold JsArray.in_order. rewrite comparefn_antisym, Hv. discriminate. }
      destruct Hhd as [|z l' Hyz]; simpl.
      * now constructor.
      * destruct (JsArray.verdict (comparefn x z)); now constructor.
Qed.

Lemma sort_sorted (l : list A) : Sorted in_order (sort l).
Proof.
  induction l as [|x l IH]; simpl; [constructor | now apply insert_sorted].
Qed.


(** *** The model against ECMA-262

    For a comparator that is consistent on the elements to sort
    (antisymmetric and transitive) ECMA-262 prescribes the result of
    [sort]: the permutation that is in order and keeps tied elements as
    they were.  There is one such sequence, and it is the one the model
    computes.  For a comparator that is not consistent the order is left to
    the engine, and the model is one engine. *)

Lemma in_order_refl (x : A) : in_order x x.
Proof.
  unfold JsArray.in_order. intros Hgt.
  pose proof (comparefn_antisym x x) as Hop. rewrite Hgt in Hop. discriminate.
Qed.

Lemma tie_iff (x y : A) :
  JsArray.verdict (comparefn x y) = Eq <-> in_order x y /\ in_order y x.
Proof.
  unfold JsArray.in_order. rewrite (comparefn_antisym x y).
  destruct (JsArray.verdict (comparefn x y)); simpl; intuition congruence.
Qed.

Lemma ties_with_refl (x : A) : JsArray.ties_with comparefn x x = true.
Proof.
  unfold JsArray.ties_with.
  now rewrite (proj2 (tie_iff x x) (conj (in_order_refl x) (in_order_refl x))).
Qed.

Lemma ties_with_class (l : list A) (x : A) :
  JsArray.transitive_on comparefn l -> In x l ->
  JsArray.tie_class comparefn l (JsArray.ties_with comparefn x).
Proof.
  intros Htrans Hx u v Hinu Hinv Hu Hv. unfold JsArray.ties_with in *.
  destruct (JsArray.verdict (comparefn x u)) eqn:Hxu; try discriminate.
  destruct (JsArray.verdict (comparefn x v)) eqn:Hxv; try discriminate.
  apply tie_iff in Hxu, Hxv. apply tie_iff. split.
  - apply (Htrans u x v); tauto.
  - apply (Htrans v x u); tauto.
Qed.

Lemma transitive_on_perm (l l' : list A) :
  Permutation l l' ->
  JsArray.transitive_on comparefn l -> JsArray.transitive_on comparefn l'.
Proof.
  intros Hperm Htrans x y z Hx Hy Hz.
  apply Htrans; now apply (Permutation_in _ (Permutation_sym Hperm)).
Qed.

Lemma transitive_on_tail (x : A) (l : list A) :
  JsArray.transitive_on comparefn (x :: l) -> JsArray.transitive_on comparefn l.
Proof. intros Htrans u v w Hu Hv Hw. apply Htrans; now right. Qed.

Lemma sorted_head_least (x : A) (l : list A) :
  JsArray.transitive_on comparefn (x :: l) ->
  Sorted in_order (x :: l) -> forall y, In y (x :: l) -> in_order x y.
Proof.
  revert x. induction l as [|z l IH]; intros x Htrans Hs y Hin.
  - destruct Hin as [<-|[]]. apply in_order_refl.
  - destruct Hin as [<-|Hin]; [apply in_order_refl|].
    inversion Hs as [|? ? Hs' Hhd]; subst.
    inversion Hhd as [|? ? Hxz]; subst.
    apply (Htrans x z y); [now left | now right; left | now right | exact Hxz |].
    apply IH; [now apply transitive_on_tail in Htrans | assumption | assumption].
Qed.

Lemma sorted_stable_unique (a b : list A) :
  JsArray.transitive_on comparefn a ->
  Permutation a b ->
  Sorted in_order a -> Sorted in_order b ->
  (forall z, In z a ->
     filter (JsArray.ties_with comparefn z) a = filter (JsArray.ties_with comparefn z) b) ->
  a = b.
Proof.
  revert b. induction a as [|x a IH]; intros b Htrans Hperm Hsa Hsb Hst.
  - now apply Permutation_nil in Hperm.
  - destruct b as [|y b].
    { apply Permutation_sym, Permutation_nil in Hperm. discriminate. }
    assert (Hxy : JsArray.verdict (comparefn x y) = Eq).
    { apply tie_iff. split.
      - apply (sorted_head_least x a Htrans Hsa).
        apply (Permutation_in _ (Permutation_sym Hperm)). now left.
      - apply (sorted_head_least y b (transitive_on_perm _ _ Hperm Htrans) Hsb).
        apply (Permutation_in _ Hperm). now left. }
    assert (Heq : x = y).
    { assert (Hty : JsArray.ties_with comparefn x y = true).
      { unfold JsArray.ties_with. now rewrite Hxy. }
      pose proof (Hst x (or_introl eq_refl)) as Hf.
      cbn [filter] in Hf. rewrite ties_with_refl, Hty in Hf. now inversion Hf. }
    subst y. f_equal. apply IH.
    + now apply transitive_on_tail in Htrans.
    + now apply Permutation_cons_inv in Hperm.
    + now inversion Hsa.
    + now inversion Hsb.
    + intros z Hz. specialize (Hst z (or_intror Hz)). cbn [filter] in Hst.
      destruct (JsArray.ties_with comparefn z x); [now inversion Hst | assumption].
Qed.

(** Whatever sequence an engine returns for a comparator that is
    consistent on the elements, it is the one of the model. *)
Lemma sort_unique (l l' : list A) :
  JsArray.transitive_on comparefn l ->
  Permutation l l' ->
  Sorted in_order l' ->
  (forall P, JsArray.tie_class comparefn l P -> filter P l' = filter P l) ->
  l' = sort l.
Proof.
  intros Htrans Hperm Hs Hst. apply sorted_stable_unique.
  - now apply (transitive_on_perm l).
  - apply perm_trans with l; [now apply Permutation_sym | apply sort_perm].
  - assumption.
  - apply sort_sorted.
  - intros z Hz.
    assert (Hclass : JsArray.tie_class comparefn l (JsArray.ties_with comparefn z)).
    { apply ties_with_class; [assumption|].
      now apply (Permutation_in _ (Permutation_sym Hperm)). }
    rewrite (Hst _ Hclass). symmetry. now apply sort_stable.
Qed.

End SortFacts.

(** A comparator that subtracts keys is transitive where no key is
    [NaN]. *)
Lemma difference_transitive {A : Type} (key : A -> float) (l : list A) :
  (forall a, In a l -> JsNumber.isNaN (key a) = false) ->
  JsArray.transitive_on (fun a b => (key b - key a)%float) l.
Proof.
  intros Hkeys x y z Hx Hy Hz. unfold JsArray.in_order.
  destruct (isNaN_rank _ (Hkeys x Hx)) as [rx Hrx].
  destruct (isNaN_rank _ (Hkeys y Hy)) as [ry Hry].
  destruct (isNaN_rank _ (Hkeys z Hz)) as [rz Hrz].
  rewrite (verdict_sub_rank _ _ _ _ Hrx Hry), (verdict_sub_rank _ _ _ _ Hry Hrz),
          (verdict_sub_rank _ _ _ _ Hrx Hrz).
  intros Hxy Hyz. now apply ext_le_trans with ry.
Qed.

Lemma number_or_0_not_NaN (x : option float) : JsNumber.isNaN (number_or_0 x) = false.
Proof.
  destruct x as [v|]; simpl; [|reflexivity].
  unfold JsNumber.truthy, JsNumber.isNaN.
  destruct (PrimFloat.eqb v v) eqn:Hv.
  - destruct (negb (PrimFloat.eqb v 0)); simpl; [now rewrite Hv | reflexivity].
  - rewrite andb_false_r. reflexivity.
Qed.

(** Only the criteria by value and by quantity can meet a key that is
    [NaN]. *)
Lemma keysParse_other (sortBy : string) (tokens : list TrackedWalletToken) :
  String.eqb sortBy "value" = false ->
  String.eqb sortBy "balance" = false ->
  keysParse sortBy tokens = true.
Proof.
  intros Hv Hb. unfold keysParse. apply forallb_forall. intros t _.
  unfold sortKey. rewrite Hv, Hb.
  destruct (String.eqb sortBy "performance");
    [now rewrite number_or_0_not_NaN | reflexivity].
Qed.

(** ** The sort engine *)

Section SortEngine.

Variable localeCompare : string -> string -> float.

(** C1.  Whatever the holdings and the criterion, [sortedTokens] is a
    permutation of its input, of the same length. *)
Theorem sortedTokens_permutation (tokens : list TrackedWalletToken) (sortBy : string) :
  Permutation tokens (sortedTokens localeCompare tokens sortBy) /\
  List.length (sortedTokens localeCompare tokens sortBy) = List.length tokens.
Proof.
  unfold sortedTokens. split; [apply sort_perm | apply sort_length].
Qed.

Lemma sortBy_unknown (sortBy : string) :
  ~ In sortBy sortOptions ->
  String.eqb sortBy "value" = false /\
  String.eqb sortBy "balance" = false /\
  String.eqb sortBy "performance" = false /\
  String.eqb sortBy "alphabetical" = false /\
  String.eqb sortBy "chain" = false.
Proof.
  intros Hnot. repeat split; apply String.eqb_neq; intros ->; apply Hnot;
    simpl; tauto.
Qed.

(** C10.  For a criterion outside the five documented ones the comparator
    returns 0 for every pair of holdings, and [sortedTokens] is its input,
    every holding at its place. *)
Theorem sortedTokens_unknown_criterion (tokens : list TrackedWalletToken) (sortBy : string) :
  ~ In sortBy sortOptions ->
  (forall a b, compareTokens localeCompare sortBy a b = 0%float) /\
  sortedTokens localeCompare tokens sortBy = tokens.
Proof.
  intros Hnot.
  destruct (sortBy_unknown sortBy Hnot) as (H1 & H2 & H3 & H4 & H5).
  assert (Hzero : forall a b, compareTokens localeCompare sortBy a b = 0%float).
  { intros a b. unfold compareTokens. now rewrite H1, H2, H3, H4, H5. }
  split; [exact Hzero|].
  unfold sortedTokens. apply sort_all_equal.
  intros a b. now rewrite Hzero.
Qed.

Hypothesis localeCompare_antisym :
  forall s t, JsArray.verdict (localeCompare t s) = CompOpp (JsArray.verdict (localeCompare s t)).

Lemma compareTokens_antisym (sortBy : string) (a b : TrackedWalletToken) :
  JsArray.verdict (compareTokens localeCompare sortBy b a) =
  CompOpp (JsArray.verdict (compareTokens localeCompare sortBy a b)).
Proof.
  unfold compareTokens.
  repeat match goal with
         | |- context [String.eqb sortBy ?c] => destruct (String.eqb sortBy c)
         end;
    cbv zeta;
    try apply verdict_sub_antisym; try apply localeCompare_antisym.
  reflexivity.
Qed.

(** Where the comparator is also transitive on the holdings to sort, the
    sequence of the model is the one every engine returns: the permutation
    that is in order and keeps tied holdings as they were. *)
Lemma sortedTokens_unique (tokens sorted : list TrackedWalletToken) (sortBy : string) :
  JsArray.transitive_on (compareTokens localeCompare sortBy) tokens ->
  Permutation tokens sorted ->
  Sorted (JsArray.in_order (compareTokens localeCompare sortBy)) sorted ->
  (forall P, JsArray.tie_class (compareTokens localeCompare sortBy) tokens P ->
             filter P sorted = filter P tokens) ->
  sorted = sortedTokens localeCompare tokens sortBy.
Proof.
  intros Htrans Hperm Hsorted Hstable. unfold sortedTokens.
  apply sort_unique; try assumption.
  intros a b. apply compareTokens_antisym.
Qed.

Hypothesis localeCompare_trans :
  forall s t u,
    JsArray.verdict (localeCompare s t) <> Gt ->
    JsArray.verdict (localeCompare t u) <> Gt ->
    JsArray.verdict (localeCompare s u) <> Gt.

(** The comparator is transitive on holdings whose keys are not [NaN]. *)
Lemma compareTokens_transitive (tokens : list TrackedWalletToken) (sortBy : string) :
  keysParse sortBy tokens = true ->
  JsArray.transitive_on (compareTokens localeCompare sortBy) tokens.
Proof.
  unfold keysParse. rewrite forallb_forall. intros Hkeys.
  assert (Hnum : forall t, In t tokens -> JsNumber.isNaN (sortKey sortBy t) = false).
  { intros t Ht. apply negb_true_iff. now apply Hkeys. }
  clear Hkeys. unfold sortKey in Hnum.
  unfold JsArray.transitive_on, JsArray.in_order, compareTokens.
  destruct (String.eqb sortBy "value");
    [exact (difference_transitive (fun t => parseFloat_or_0 (Token.value t)) tokens Hnum)|].
  destruct (String.eqb sortBy "balance");
    [exact (difference_transitive (fun t => parseFloat_or_0 (Token.quantity t)) tokens Hnum)|].
  destruct (String.eqb sortBy "performance");
    [exact (difference_transitive (fun t => number_or_0 (Token.price_change_24h t)) tokens Hnum)|].
  destruct (String.eqb sortBy "alphabetical");
    [intros x y z _ _ _; apply localeCompare_trans|].
  destruct (String.eqb sortBy "chain");
    [intros x y z _ _ _; apply localeCompare_trans|].
  intros x y z _ _ _ _ _. discriminate.
Qed.

(** On holdings whose keys are not [NaN], whatever engine sorts them
    returns the sequence of the model. *)
Lemma sortedTokens_any_engine (tokens sorted : list TrackedWalletToken) (sortBy : string) :
  keysParse sortBy tokens = true ->
  Permutation tokens sorted ->
  Sorted (JsArray.in_order (compareTokens localeCompare sortBy)) sorted ->
  (forall P, JsArray.tie_class (compareTokens localeCompare sortBy) tokens P ->
             filter P sorted = filter P tokens) ->
  sorted = sortedTokens localeCompare tokens sortBy.
Proof.
  intros Hkeys. apply sortedTokens_unique. now apply compareTokens_transitive.
Qed.

End SortEngine.

(** ** Ties and order in a sequence *)

Lemma occurs_before_In {A : Type} (a b : A) (l : list A) :
  JsArray.occurs_before a b l -> In a l /\ In b l.
Proof.
  induction 1 as [l Hb|x l Hab [Ha Hb]]; split; simpl; auto.
Qed.

Lemma occurs_before_trans {A : Type} (a b c : A) (l : list A) :
  NoDup l ->
  JsArray.occurs_before a b l -> JsArray.occurs_before b c l -> JsArray.occurs_before a c l.
Proof.
  intros Hnd Hab. revert Hnd. induction Hab as [l Hb|x l Hab IH]; intros Hnd Hbc.
  - inversion Hnd as [|? ? Hnotin Hnd']; subst.
    inversion Hbc as [l' Hc|x l' Hbc']; subst.
    + contradiction.
    + apply JsArray.before_here. now apply occurs_before_In in Hbc'.
  - inversion Hnd as [|? ? Hnotin Hnd']; subst.
    inversion Hbc as [l' Hc|x' l' Hbc']; subst.
    + exfalso. apply Hnotin. now apply occurs_before_In in Hab.
    + apply JsArray.before_later. now apply IH.
Qed.

Lemma strongly_sorted_before {A : Type} (R : A -> A -> Prop) (a b : A) (l : list A) :
  StronglySorted R l -> JsArray.occurs_before a b l -> R a b.
Proof.
  intros Hs Hab. induction Hab as [l Hb|x l Hab IH].
  - inversion Hs as [|? ? _ Hall]; subst. rewrite Forall_forall in Hall. now apply Hall.
  - inversion Hs; subst. now apply IH.
Qed.

Lemma nan_ties_NoDup : NoDup nan_ties.
Proof.
  unfold nan_ties, holding.
  repeat first [ apply NoDup_cons | apply NoDup_nil ]; simpl; intros H;
    repeat (destruct H as [H|H]; [discriminate H|]); exact H.
Qed.

Ltac occurs_before_here :=
  repeat first [ apply JsArray.before_here; simpl; tauto | apply JsArray.before_later ].

Section ConsistentCollation.

Variable localeCompare : string -> string -> float.
Hypothesis localeCompare_antisym :
  forall s t, JsArray.verdict (localeCompare t s) = CompOpp (JsArray.verdict (localeCompare s t)).
Hypothesis localeCompare_trans :
  forall s t u,
    JsArray.verdict (localeCompare s t) <> Gt ->
    JsArray.verdict (localeCompare t u) <> Gt ->
    JsArray.verdict (localeCompare s u) <> Gt.

(** The sequence of the model is one that every engine may return. *)
Lemma sortedTokens_conforms (tokens : list TrackedWalletToken) (sortBy : string) :
  Permutation tokens (sortedTokens localeCompare tokens sortBy) /\
  Sorted (JsArray.in_order (compareTokens localeCompare sortBy))
         (sortedTokens localeCompare tokens sortBy) /\
  (forall P, JsArray.tie_class (compareTokens localeCompare sortBy) tokens P ->
             filter P (sortedTokens localeCompare tokens sortBy) = filter P tokens).
Proof.
  unfold sortedTokens. split; [apply sort_perm|]. split.
  - apply sort_sorted. now apply compareTokens_antisym.
  - intros P HP. now apply sort_stable.
Qed.

(** C2.  Sorting is stable where the keys parse, and only there.

    On holdings whose keys are not [NaN], under a consistent collation,
    the comparator is consistent: whatever sequence an engine returns
    within what ECMA-262 asks of it (a permutation, in the order of the
    comparator, ties kept) is the sequence of the model, and two holdings
    the comparator ties keep their relative order.

    A key that is [NaN] (a value that does not parse, the defect of C3)
    ties with every other key.  With the values 1, 2, "abc", 2 the
    comparator ties T0 with T2 and T2 with T3 and puts T3 strictly before
    T0: no arrangement of the four holdings is both in the order of the
    comparator and keeps the ties as they came in.  The standard leaves
    the order to the engine; the arrangement T1, T3, T0, T2, the one V8
    returns, is in the order of the comparator and has T3 before T2,
    which tie and came in the other order. *)
Theorem sortedTokens_stable_unless_NaN_key :
  (forall tokens sorted sortBy,
     keysParse sortBy tokens = true ->
     Permutation tokens sorted ->
     Sorted (JsArray.in_order (compareTokens localeCompare sortBy)) sorted ->
     (forall P, JsArray.tie_class (compareTokens localeCompare sortBy) tokens P ->
                filter P sorted = filter P tokens) ->
     sorted = sortedTokens localeCompare tokens sortBy /\
     forall a b,
       JsArray.verdict (compareTokens localeCompare sortBy a b) = Eq ->
       JsArray.occurs_before a b tokens -> JsArray.occurs_before a b sorted) /\
  (JsArray.verdict (compareTokens localeCompare "value"
                      (holding "T0" "ETH" JsUndefined (JsNum 1) None)
                      (holding "T2" "ETH" JsUndefined (JsStr "abc") None)) = Eq /\
   JsArray.verdict (compareTokens localeCompare "value"
                      (holding "T2" "ETH" JsUndefined (JsStr "abc") None)
                      (holding "T3" "ETH" JsUndefined (JsNum 2) None)) = Eq /\
   JsArray.verdict (compareTokens localeCompare "value"
                      (holding "T0" "ETH" JsUndefined (JsNum 1) None)
                      (holding "T3" "ETH" JsUndefined (JsNum 2) None)) = Gt) /\
  (forall sorted,
     Permutation nan_ties sorted ->
     StronglySorted (JsArray.in_order (compareTokens localeCompare "value")) sorted ->
     ~ (forall a b,
          JsArray.verdict (compareTokens localeCompare "value" a b) = Eq ->
          JsArray.occurs_before a b nan_ties -> JsArray.occurs_before a b sorted)) /\
  (Permutation nan_ties nan_ties_by_value /\
   StronglySorted (JsArray.in_order (compareTokens localeCompare "value")) nan_ties_by_value /\
   JsArray.occurs_before (holding "T2" "ETH" JsUndefined (JsStr "abc") None)
                         (holding "T3" "ETH" JsUndefined (JsNum 2) None) nan_ties /\
   JsArray.occurs_before (holding "T3" "ETH" JsUndefined (JsNum 2) None)
                         (holding "T2" "ETH" JsUndefined (JsStr "abc") None) nan_ties_by_value).
Proof.
  split.
  { intros tokens sorted sortBy Hkeys Hperm Hsorted Hstable.
    assert (Heq : sorted = sortedTokens localeCompare tokens sortBy).
    { apply sortedTokens_unique; try assumption.
      now apply compareTokens_transitive. }
    split; [exact Heq|]. subst sorted.
    intros a b Htie Hbefore. unfold sortedTokens. apply sort_keeps_before; [|assumption].
    unfold JsArray.in_order. rewrite Htie. discriminate. }
  assert (H02 : JsArray.verdict (compareTokens localeCompare "value"
                       (holding "T0" "ETH" JsUndefined (JsNum 1) None)
                       (holding "T2" "ETH" JsUndefined (JsStr "abc") None)) = Eq)
    by (vm_compute; reflexivity).
  assert (H23 : JsArray.verdict (compareTokens localeCompare "value"
                       (holding "T2" "ETH" JsUndefined (JsStr "abc") None)
                       (holding "T3" "ETH" JsUndefined (JsNum 2) None)) = Eq)
    by (vm_compute; reflexivity).
  assert (H03 : JsArray.verdict (compareTokens localeCompare "value"
                       (holding "T0" "ETH" JsUndefined (JsNum 1) None)
                       (holding "T3" "ETH" JsUndefined (JsNum 2) None)) = Gt)
    by (vm_compute; reflexivity).
  split; [exact (conj H02 (conj H23 H03))|]. split.
  - intros sorted Hperm Hss Hkeep.
    assert (Hnd : NoDup sorted).
    { apply (Permutation_NoDup Hperm). exact nan_ties_NoDup. }
    assert (B02 : JsArray.occurs_before (holding "T0" "ETH" JsUndefined (JsNum 1) None)
                    (holding "T2" "ETH" JsUndefined (JsStr "abc") None) sorted).
    { apply Hkeep; [exact H02|]. unfold nan_ties. occurs_before_here. }
    assert (B23 : JsArray.occurs_before (holding "T2" "ETH" JsUndefined (JsStr "abc") None)
                    (holding "T3" "ETH" JsUndefined (JsNum 2) None) sorted).
    { apply Hkeep; [exact H23|]. unfold nan_ties. occurs_before_here. }
    pose proof (occurs_before_trans _ _ _ _ Hnd B02 B23) as B03.
    apply (strongly_sorted_before _ _ _ _ Hss) in B03.
    exact (B03 H03).
  - clear H02 H23 H03. split; [|split; [|split]].
    + apply NoDup_Permutation.
      * exact nan_ties_NoDup.
      * unfold nan_ties_by_value, holding.
        repeat first [ apply NoDup_cons | apply NoDup_nil ]; simpl; intros H;
          repeat (destruct H as [H|H]; [discriminate H|]); exact H.
      * intros x. unfold nan_ties, nan_ties_by_value. simpl. tauto.
    + unfold nan_ties_by_value.
      repeat first [ apply SSorted_cons | apply SSorted_nil | apply Forall_cons
                   | apply Forall_nil ];
        unfold JsArray.in_order; vm_compute; discriminate.
    + unfold nan_ties. occurs_before_here.
    + unfold nan_ties_by_value. occurs_before_here.
Qed.


End ConsistentCollation.


Lemma no_value_tie_class (l : list TrackedWalletToken) :
  JsArray.tie_class (compareTokens codeUnitCompare "value") l no_value.
Proof.
  intros a b _ _ Ha Hb. unfold compareTokens, no_value in *. simpl.
  destruct (Token.value a); try discriminate;
    destruct (Token.value b); try discriminate; reflexivity.
Qed.

Lemma sortedTokens_stable_unless_NaN_key_witness :
  JsArray.occurs_before
    (holding "A" "ETH" JsUndefined JsNull None)
    (holding "C" "ARB" JsUndefined JsUndefined None)
    (sortedTokens codeUnitCompare mixed_values "value") /\
  StronglySorted (JsArray.in_order (compareTokens codeUnitCompare "value")) nan_ties_by_value.
Proof.
  destruct (sortedTokens_stable_unless_NaN_key codeUnitCompare codeUnitCompare_antisym
              codeUnitCompare_trans) as (Hstable & _ & _ & _ & Hordered & _).
  destruct (sortedTokens_conforms codeUnitCompare codeUnitCompare_antisym mixed_values "value")
    as (Hperm & Hsorted & Hkeep).
  split; [|exact Hordered].
  apply (Hstable mixed_values (sortedTokens codeUnitCompare mixed_values "value") "value"
           eq_refl Hperm Hsorted Hkeep).
  - reflexivity.
  - apply JsArray.before_here. simpl. tauto.
Defined.

Lemma sortedTokens_unknown_criterion_witness :
  (forall a b, compareTokens codeUnitCompare "price" a b = 0%float) /\
  sortedTokens codeUnitCompare spec_example "price" = spec_example.
Proof.
  apply (sortedTokens_unknown_criterion codeUnitCompare spec_example "price").
  unfold sortOptions. simpl. intuition discriminate.
Defined.


(** The code-unit collation is a consistent comparator, so on holdings
    whose keys are not [NaN] no engine can sort otherwise than the model. *)
Lemma sortedTokens_any_engine_codeUnit (tokens sorted : list TrackedWalletToken) (sortBy : string) :
  keysParse sortBy tokens = true ->
  Permutation tokens sorted ->
  Sorted (JsArray.in_order (compareTokens codeUnitCompare sortBy)) sorted ->
  (forall P, JsArray.tie_class (compareTokens codeUnitCompare sortBy) tokens P ->
             filter P sorted = filter P tokens) ->
  sorted = sortedTokens codeUnitCompare tokens sortBy.
Proof.
  apply sortedTokens_any_engine;
    [apply codeUnitCompare_antisym | apply codeUnitCompare_trans].
Qed.

(** The examples of section 8 of the spec. *)
Example sort_by_value_example :
  map Token.id (sortedTokens codeUnitCompare spec_example "value") = ["USDC"; "SOL"; "ARB"].
Proof. vm_compute. reflexivity. Qed.

Example sort_by_name_example :
  map Token.id (sortedTokens codeUnitCompare mixed_names "alphabetical") =
  ["aave"; "Bitcoin"; "Chainlink"].
Proof. vm_compute. reflexivity. Qed.

Example sort_empty_example (sortBy : string) :
  sortedTokens codeUnitCompare [] sortBy = [].
Proof. reflexivity. Qed.

(** ** Objects as maps *)

Lemma mem_In (k : string) (l : list string) : mem k l = true <-> In k l.
Proof.
  unfold mem. rewrite existsb_exists. split.
  - intros [x [Hin Heq]]. apply String.eqb_eq in Heq. now subst.
  - intros Hin. exists k. split; [assumption | apply String.eqb_refl].
Qed.

Lemma mem_app (k : string) (l1 l2 : list string) :
  mem k (l1 ++ l2) = mem k l1 || mem k l2.
Proof. apply existsb_app. Qed.

Lemma first_occurrences_snoc (l : list string) (k : string) :
  first_occurrences (l ++ [k]) =
  if mem k (first_occurrences l) then first_occurrences l
  else (first_occurrences l ++ [k])%list.
Proof. unfold first_occurrences. now rewrite fold_left_app. Qed.

Lemma mem_first_occurrences (k : string) (l : list string) :
  mem k (first_occurrences l) = mem k l.
Proof.
  induction l as [|x l IH] using rev_ind; [reflexivity|].
  rewrite first_occurrences_snoc, mem_app.
  destruct (mem x (first_occurrences l)) eqn:Hx.
  - rewrite IH. simpl. rewrite orb_false_r.
    destruct (String.eqb_spec k x) as [->|Hne]; [|now rewrite orb_false_r].
    rewrite <- IH, Hx. reflexivity.
  - now rewrite mem_app, IH.
Qed.

Lemma NoDup_first_occurrences (l : list string) : NoDup (first_occurrences l).
Proof.
  induction l as [|x l IH] using rev_ind; [constructor|].
  rewrite first_occurrences_snoc.
  destruct (mem x (first_occurrences l)) eqn:Hx; [assumption|].
  apply NoDup_app; [assumption | repeat constructor; intros [] | ].
  intros a Ha [<-|[]]. apply mem_In in Ha. congruence.
Qed.

Section MapObject.
Context {V : Type}.
Variable f : string -> V.

Lemma get_own_map (keys : list string) (x : string) :
  JsObject.get_own (map (fun k => (k, f k)) keys) x =
  if mem x keys then Some (f x) else None.
Proof.
  induction keys as [|k keys IH]; simpl; [reflexivity|].
  destruct (String.eqb_spec x k) as [->|Hne]; simpl; [reflexivity | exact IH].
Qed.

Lemma set_map_new (keys : list string) (x : string) (v : V) :
  mem x keys = false ->
  JsObject.set (map (fun k => (k, f k)) keys) x v =
  (map (fun k => (k, f k)) keys ++ [(x, v)])%list.
Proof.
  induction keys as [|k keys IH]; simpl; [reflexivity|].
  destruct (String.eqb_spec x k) as [->|Hne]; simpl; [discriminate|].
  intros Hm. now rewrite IH.
Qed.

Lemma set_map_old (g : string -> V) (keys : list string) (x : string) :
  NoDup keys -> mem x keys = true ->
  (forall k, k <> x -> g k = f k) ->
  JsObject.set (map (fun k => (k, f k)) keys) x (g x) = map (fun k => (k, g k)) keys.
Proof.
  intros Hnd Hm Hother.
  induction keys as [|k keys IH]; simpl in *; [discriminate|].
  inversion Hnd as [|? ? Hnotin Hnd']; subst.
  destruct (String.eqb_spec x k) as [->|Hne]; simpl.
  - f_equal. apply map_ext_in. intros a Ha.
    rewrite (Hother a); [reflexivity|]. intros ->. contradiction.
  - rewrite (Hother k) by congruence. f_equal. now apply IH.
Qed.

End MapObject.

Lemma get_own_app {V : Type} (l1 l2 : JsObject.t V) (x : string) :
  JsObject.get_own (l1 ++ l2) x =
  match JsObject.get_own l1 x with
  | Some v => Some v
  | None => JsObject.get_own l2 x
  end.
Proof.
  induction l1 as [|[k v] l1 IH]; simpl; [reflexivity|].
  destruct (String.eqb x k); [reflexivity | exact IH].
Qed.

Lemma set_app_new {V : Type} (l1 l2 : JsObject.t V) (x : string) (v : V) :
  JsObject.get_own l1 x = None ->
  JsObject.set (l1 ++ l2) x v = (l1 ++ JsObject.set l2 x v)%list.
Proof.
  induction l1 as [|[k w] l1 IH]; simpl; [reflexivity|].
  destruct (String.eqb x k); [discriminate|].
  intros Hnone. now rewrite IH.
Qed.

(** ** The grouping engine *)

Lemma holdingsOf_snoc (k : string) (l : list TrackedWalletToken) (t : TrackedWalletToken) :
  holdingsOf k (l ++ [t]) =
  (holdingsOf k l ++ if String.eqb (chainOf t) k then [t] else [])%list.
Proof. unfold holdingsOf. rewrite filter_app. reflexivity. Qed.

Lemma holdingsOf_absent (k : string) (l : list TrackedWalletToken) :
  mem k (map chainOf l) = false -> holdingsOf k l = [].
Proof.
  induction l as [|t l IH]; simpl; [reflexivity|].
  rewrite String.eqb_sym.
  destruct (String.eqb (chainOf t) k); simpl; [discriminate | exact IH].
Qed.

Lemma mem_chain_not_inherited (k : string) (l : list TrackedWalletToken) :
  (forall u, In u l -> inheritedName u = false) ->
  mem k (map chainOf l) = true -> JsObject.inherits k = false.
Proof.
  intros Hall Hm. apply mem_In, in_map_iff in Hm.
  destruct Hm as [u [<- Hin]]. exact (Hall u Hin).
Qed.

Lemma get_groupsOf (pre : list TrackedWalletToken) (c : string) :
  JsObject.get (groupsOf pre) c =
  if mem c (map chainOf pre) then JsObject.Own (holdingsOf c pre)
  else if JsObject.inherits c then JsObject.Inherited else JsObject.Undefined.
Proof.
  unfold JsObject.get, groupsOf.
  rewrite get_own_map, mem_first_occurrences.
  destruct (mem c (map chainOf pre)); reflexivity.
Qed.

Lemma groupsOf_snoc_old (pre : list TrackedWalletToken) (t : TrackedWalletToken) :
  mem (chainOf t) (map chainOf pre) = true ->
  JsObject.set (groupsOf pre) (chainOf t) (holdingsOf (chainOf t) pre ++ [t]) =
  groupsOf (pre ++ [t]).
Proof.
  intros Hm. set (c := chainOf t) in *.
  unfold groupsOf. rewrite map_app. simpl. fold c.
  rewrite first_occurrences_snoc, mem_first_occurrences, Hm.
  replace (holdingsOf c pre ++ [t]) with (holdingsOf c (pre ++ [t])).
  - apply (set_map_old (fun k => holdingsOf k pre) (fun k => holdingsOf k (pre ++ [t]))).
    + apply NoDup_first_occurrences.
    + now rewrite mem_first_occurrences.
    + intros k Hk. rewrite holdingsOf_snoc. fold c.
      destruct (String.eqb_spec c k) as [->|_]; [congruence|].
      apply app_nil_r.
  - rewrite holdingsOf_snoc. fold c. now rewrite String.eqb_refl.
Qed.

Lemma groupsOf_snoc_new (pre : list TrackedWalletToken) (t : TrackedWalletToken) :
  mem (chainOf t) (map chainOf pre) = false ->
  groupsOf pre ++ [(chainOf t, [t])] = groupsOf (pre ++ [t]).
Proof.
  intros Hm. set (c := chainOf t) in *.
  unfold groupsOf. rewrite map_app. simpl. fold c.
  rewrite first_occurrences_snoc, mem_first_occurrences, Hm.
  rewrite map_app. simpl. f_equal.
  - apply map_ext_in. intros k Hk. f_equal.
    rewrite holdingsOf_snoc. fold c.
    destruct (String.eqb_spec c k) as [<-|_]; [|now rewrite app_nil_r].
    apply mem_In in Hk. rewrite mem_first_occurrences in Hk. congruence.
  - rewrite holdingsOf_snoc. fold c.
    now rewrite String.eqb_refl, (holdingsOf_absent c pre Hm).
Qed.

(** One step of the [forEach] of [getTokensByBlockchain], from the groups
    of the holdings seen so far. *)
Lemma groupToken_groupsOf (pre : list TrackedWalletToken) (t : TrackedWalletToken) :
  (forall u, In u pre -> inheritedName u = false) ->
  groupToken (groupsOf pre) t =
  if inheritedName t then Throw TypeError else Return (groupsOf (pre ++ [t])).
Proof.
  intros Hpre. unfold groupToken, inheritedName. fold (chainOf t).
  rewrite get_groupsOf.
  destruct (mem (chainOf t) (map chainOf pre)) eqn:Hm.
  - (* the chain already has its array *)
    rewrite (mem_chain_not_inherited _ pre Hpre Hm).
    rewrite get_groupsOf, Hm. f_equal. now apply groupsOf_snoc_old.
  - destruct (JsObject.inherits (chainOf t)) eqn:Hinh.
    + (* a name found on the prototype: no array, and no [push] *)
      now rewrite get_groupsOf, Hm, Hinh.
    + (* a new chain: an empty array is stored, then pushed to *)
      assert (Hnone : JsObject.get_own (groupsOf pre) (chainOf t) = None).
      { unfold groupsOf. now rewrite get_own_map, mem_first_occurrences, Hm. }
      assert (Hset : forall v, JsObject.set (groupsOf pre) (chainOf t) v =
                               groupsOf pre ++ [(chainOf t, v)]).
      { intros v. unfold groupsOf. apply set_map_new.
        now rewrite mem_first_occurrences. }
      rewrite Hset. unfold JsObject.get.
      rewrite get_own_app, Hnone. simpl. rewrite String.eqb_refl.
      f_equal. rewrite (set_app_new _ _ _ _ Hnone). simpl.
      rewrite String.eqb_refl. now apply groupsOf_snoc_new.
Qed.

Lemma forEach_groupToken (l pre : list TrackedWalletToken) :
  (forall u, In u pre -> inheritedName u = false) ->
  forEach groupToken l (groupsOf pre) =
  if existsb inheritedName l then Throw TypeError else Return (groupsOf (pre ++ l)).
Proof.
  revert pre. induction l as [|t l IH]; intros pre Hpre; simpl.
  - now rewrite app_nil_r.
  - rewrite (groupToken_groupsOf pre t Hpre).
    destruct (inheritedName t) eqn:Ht; simpl; [reflexivity|].
    rewrite IH.
    + now rewrite <- app_assoc.
    + intros u Hu. apply in_app_or in Hu.
      destruct Hu as [Hu | [<-|[]]]; [now apply Hpre | exact Ht].
Qed.

(** What [getTokensByBlockchain] computes: it throws when a display name
    is a property of [Object.prototype], and returns the groups otherwise. *)
Lemma getTokensByBlockchain_spec (l : list TrackedWalletToken) :
  getTokensByBlockchain l =
  if existsb inheritedName l then Throw TypeError else Return (groupsOf l).
Proof.
  unfold getTokensByBlockchain.
  change (@nil (string * list TrackedWalletToken)) with (groupsOf []).
  rewrite forEach_groupToken; [reflexivity | intros u []].
Qed.

Lemma groupsOf_keys (l : list TrackedWalletToken) :
  map fst (groupsOf l) = first_occurrences (map chainOf l).
Proof. unfold groupsOf. rewrite map_map. simpl. apply map_id. Qed.

Lemma In_groupsOf (l : list TrackedWalletToken) (k : string) (arr : list TrackedWalletToken) :
  In (k, arr) (groupsOf l) <-> In k (map chainOf l) /\ arr = holdingsOf k l.
Proof.
  unfold groupsOf. rewrite in_map_iff. split.
  - intros [k' [Heq Hin]]. inversion Heq; subst. split; [|reflexivity].
    apply mem_In. rewrite <- mem_first_occurrences. now apply mem_In.
  - intros [Hin ->]. exists k. split; [reflexivity|].
    apply mem_In. rewrite mem_first_occurrences. now apply mem_In.
Qed.

Lemma filter_split {A : Type} (P : A -> bool) (l : list A) :
  Permutation (filter P l ++ filter (fun x => negb (P x)) l) l.
Proof.
  induction l as [|x l IH]; simpl; [constructor|].
  destruct (P x); simpl.
  - now constructor.
  - apply Permutation_sym. eapply perm_trans.
    + apply perm_skip, Permutation_sym, IH.
    + apply Permutation_middle.
Qed.

Lemma holdingsOf_others (k k' : string) (l : list TrackedWalletToken) :
  k' <> k ->
  holdingsOf k' (filter (fun t => negb (String.eqb (chainOf t) k)) l) = holdingsOf k' l.
Proof.
  intros Hne. unfold holdingsOf. induction l as [|t l IH]; simpl; [reflexivity|].
  destruct (String.eqb_spec (chainOf t) k) as [Hk|Hk]; simpl.
  - destruct (String.eqb_spec (chainOf t) k'); [congruence | exact IH].
  - now rewrite IH.
Qed.

(** The holdings of pairwise distinct names that cover a sequence make up
    the sequence. *)
Lemma holdings_partition (keys : list string) (l : list TrackedWalletToken) :
  NoDup keys ->
  (forall t, In t l -> In (chainOf t) keys) ->
  Permutation (List.concat (map (fun k => holdingsOf k l) keys)) l.
Proof.
  intros Hnd. revert l. induction Hnd as [|k ks Hnotin Hnd IH]; intros l Hcover; simpl.
  - destruct l as [|t l]; [constructor|]. destruct (Hcover t (or_introl eq_refl)).
  - set (rest := filter (fun t => negb (String.eqb (chainOf t) k)) l).
    apply perm_trans with (holdingsOf k l ++ rest); [|apply filter_split].
    apply Permutation_app_head.
    replace (map (fun k' => holdingsOf k' l) ks)
      with (map (fun k' => holdingsOf k' rest) ks).
    + apply IH. intros t Ht. apply filter_In in Ht. destruct Ht as [Ht Hk].
      destruct (Hcover t Ht) as [Heq|Hin]; [|assumption].
      now rewrite <- Heq, String.eqb_refl in Hk.
    + apply map_ext_in. intros k' Hk'. apply holdingsOf_others. congruence.
Qed.

Lemma groupsOf_partition (l : list TrackedWalletToken) :
  Permutation (List.concat (map snd (groupsOf l))) l.
Proof.
  unfold groupsOf. rewrite map_map. simpl.
  apply holdings_partition; [apply NoDup_first_occurrences|].
  intros t Ht. apply mem_In. rewrite mem_first_occurrences. apply mem_In.
  now apply in_map.
Qed.

(** ** [Object.entries] *)

Section Entries.
Context {V : Type}.

Lemma insert_index_perm (i : Z) (p : string * V) (l : list (Z * (string * V))) :
  Permutation ((i, p) :: l) (JsObject.insert_index i p l).
Proof.
  induction l as [|[j q] l IH]; simpl; [apply Permutation_refl|].
  destruct (Z.leb i j); [apply Permutation_refl|].
  eapply perm_trans; [apply perm_swap | now apply perm_skip].
Qed.

Lemma index_properties_perm (obj : JsObject.t V) :
  Permutation (map snd (JsObject.index_properties obj))
              (filter (fun p => JsObject.is_array_index (fst p)) obj).
Proof.
  induction obj as [|[k v] obj IH]; simpl; [constructor|].
  unfold JsObject.is_array_index. simpl.
  destruct (JsObject.array_index k) as [i|]; [|exact IH].
  eapply perm_trans.
  - apply Permutation_map, Permutation_sym, insert_index_perm.
  - simpl. now apply perm_skip.
Qed.

Lemma entries_perm (obj : JsObject.t V) : Permutation (JsObject.entries obj) obj.
Proof.
  unfold JsObject.entries, JsObject.string_properties.
  eapply perm_trans; [|apply (filter_split (fun p => JsObject.is_array_index (fst p)))].
  apply Permutation_app_tail, index_properties_perm.
Qed.

Lemma index_properties_ok (obj : JsObject.t V) :
  Forall indexed_ok (JsObject.index_properties obj).
Proof.
  induction obj as [|[k v] obj IH]; simpl; [constructor|].
  destruct (JsObject.array_index k) as [i|] eqn:Hi; [|exact IH].
  eapply Permutation_Forall; [apply insert_index_perm|].
  constructor; [exact Hi | exact IH].
Qed.

Lemma insert_index_sorted (i : Z) (p : string * V) (l : list (Z * (string * V))) :
  Sorted (fun a b => (fst a <= fst b)%Z) l ->
  Sorted (fun a b => (fst a <= fst b)%Z) (JsObject.insert_index i p l).
Proof.
  induction 1 as [|[j q] l Hs IH Hhd]; simpl.
  - repeat constructor.
  - destruct (Z.leb_spec i j).
    + repeat constructor; assumption.
    + constructor; [exact IH|].
      destruct Hhd as [|[j' q'] l' Hjj']; simpl.
      * constructor. simpl. lia.
      * destruct (Z.leb i j'); constructor; simpl in *; lia.
Qed.

Lemma index_properties_sorted (obj : JsObject.t V) :
  Sorted (fun a b => (fst a <= fst b)%Z) (JsObject.index_properties obj).
Proof.
  induction obj as [|[k v] obj IH]; simpl; [constructor|].
  destruct (JsObject.array_index k); [now apply insert_index_sorted | exact IH].
Qed.

Lemma indexed_names_sorted (l : list (Z * (string * V))) :
  Forall indexed_ok l ->
  Sorted (fun a b => (fst a <= fst b)%Z) l ->
  Sorted index_le (map fst (map snd l)).
Proof.
  intros Hok Hs. induction Hs as [|e l Hs IH Hhd]; simpl; [constructor|].
  inversion Hok as [|? ? He Hl]; subst.
  constructor; [now apply IH|].
  destruct Hhd as [|e' l' Hee']; simpl; constructor.
  inversion Hl as [|? ? He' _]; subst.
  unfold index_le, indexed_ok in *. now rewrite He, He'.
Qed.

Lemma map_fst_filter (P : string -> bool) (obj : JsObject.t V) :
  map fst (filter (fun p => P (fst p)) obj) = filter P (map fst obj).
Proof.
  induction obj as [|[k v] obj IH]; simpl; [reflexivity|].
  destruct (P k); simpl; now rewrite IH.
Qed.

(** The order of [Object.keys]: the array indices, ascending, then the
    other names as they were created. *)
Lemma keys_order (obj : JsObject.t V) :
  exists indices,
    JsObject.keys obj = indices ++ filter notIndex (map fst obj) /\
    Permutation indices (filter JsObject.is_array_index (map fst obj)) /\
    Sorted index_le indices.
Proof.
  exists (map fst (map snd (JsObject.index_properties obj))).
  split; [|split].
  - unfold JsObject.keys, JsObject.entries, JsObject.string_properties.
    rewrite map_app. f_equal. apply (map_fst_filter notIndex).
  - rewrite <- (map_fst_filter JsObject.is_array_index).
    apply Permutation_map, index_properties_perm.
  - apply indexed_names_sorted;
      [apply index_properties_ok | apply index_properties_sorted].
Qed.

Lemma keys_no_index (obj : JsObject.t V) :
  forallb notIndex (map fst obj) = true -> JsObject.keys obj = map fst obj.
Proof.
  intros Hall. unfold JsObject.keys, JsObject.entries.
  assert (Hnil : JsObject.index_properties obj = []).
  { induction obj as [|[k v] obj IH]; simpl in *; [reflexivity|].
    apply andb_prop in Hall. destruct Hall as [Hk Hrest].
    unfold notIndex, JsObject.is_array_index in Hk.
    destruct (JsObject.array_index k); [discriminate | now apply IH]. }
  rewrite Hnil. simpl. unfold JsObject.string_properties.
  f_equal. clear Hnil.
  induction obj as [|[k v] obj IH]; simpl in *; [reflexivity|].
  apply andb_prop in Hall. destruct Hall as [Hk Hrest].
  unfold notIndex in Hk. rewrite Hk. f_equal. now apply IH.
Qed.

End Entries.

(** ** The grouped view *)

Lemma existsb_perm {A : Type} (P : A -> bool) (l l' : list A) :
  Permutation l l' -> existsb P l = existsb P l'.
Proof.
  induction 1 as [|x l l' _ IH|x y l|l l' l'' _ IH1 _ IH2]; simpl.
  - reflexivity.
  - now rewrite IH.
  - now rewrite !orb_assoc, (orb_comm (P y)).
  - now rewrite IH1.
Qed.

Lemma concat_perm {A : Type} (l l' : list (list A)) :
  Permutation l l' -> Permutation (List.concat l) (List.concat l').
Proof.
  induction 1 as [|x l l' _ IH|x y l|l l' l'' _ IH1 _ IH2]; simpl.
  - constructor.
  - now apply Permutation_app_head.
  - rewrite !app_assoc. apply Permutation_app_tail, Permutation_app_comm.
  - now apply perm_trans with (List.concat l').
Qed.

(** Grouping completes exactly when no display name is inherited from
    [Object.prototype]; it then partitions its input: every holding is in
    the group of its display name and in no other, the groups have distinct
    names and together hold the input, each in the input's order, and the
    count shown for a group is its length. *)
Lemma grouping_partitions (sorted : list TrackedWalletToken) :
  existsb inheritedName sorted = false ->
  exists grouped,
    getTokensByBlockchain sorted = Return grouped /\
    (forall t, In t sorted ->
       In (chainOf t, holdingsOf (chainOf t) sorted) (JsObject.entries grouped) /\
       In t (holdingsOf (chainOf t) sorted)) /\
    (forall k arr t, In (k, arr) (JsObject.entries grouped) -> In t arr ->
       k = chainOf t /\ arr = holdingsOf k sorted) /\
    NoDup (JsObject.keys grouped) /\
    Permutation (List.concat (map snd (JsObject.entries grouped))) sorted /\
    (forall item, In item (JsObject.entries grouped) ->
       tokenCount (renderBlockchainSection item) = List.length (snd item)).
Proof.
  intros Hok. exists (groupsOf sorted).
  rewrite getTokensByBlockchain_spec, Hok.
  pose proof (entries_perm (groupsOf sorted)) as Hperm.
  split; [reflexivity|].
  split; [|split; [|split; [|split]]].
  - intros t Ht. split.
    + apply (Permutation_in _ (Permutation_sym Hperm)).
      apply In_groupsOf. split; [now apply in_map | reflexivity].
    + unfold holdingsOf. apply filter_In.
      split; [assumption | apply String.eqb_refl].
  - intros k arr t Hentry Ht.
    apply (Permutation_in _ Hperm), In_groupsOf in Hentry.
    destruct Hentry as [_ ->]. split; [|reflexivity].
    unfold holdingsOf in Ht. apply filter_In in Ht.
    symmetry. now apply String.eqb_eq.
  - unfold JsObject.keys.
    apply (Permutation_NoDup (Permutation_map fst (Permutation_sym Hperm))).
    rewrite groupsOf_keys. apply NoDup_first_occurrences.
  - eapply perm_trans; [|apply groupsOf_partition].
    apply concat_perm, Permutation_map, Hperm.
  - intros [k arr] _. reflexivity.
Qed.

(** Sorting moves no display name in or out. *)
Lemma grouped_list_throws (localeCompare : string -> string -> float)
    (l : list TrackedWalletToken) :
  l <> [] ->
  existsb inheritedName l = true ->
  PortfolioTokenDisplay localeCompare (loaded l) "chain" = Throw TypeError.
Proof.
  intros Hne Hex. unfold PortfolioTokenDisplay, blockchainSections, sortedTokens. simpl.
  destruct l as [|t l]; [congruence|]. cbn [List.length Nat.eqb].
  rewrite getTokensByBlockchain_spec.
  rewrite <- (existsb_perm _ _ _ (sort_perm _ (t :: l))), Hex. reflexivity.
Qed.

(** C5.  The exact partition is what grouping is written to produce and
    does produce ([grouping_partitions]), except on a holding
    whose chain display name is a property every object inherits.  For the
    chain "constructor", [grouped[chain]] is the inherited function, no
    array is stored, [push] is missing and the call throws: no group is
    returned, and the grouped list fails under any collation. *)
Theorem grouping_throws_on_prototype_name (localeCompare : string -> string -> float) :
  getTokensByBlockchain prototype_chain = Throw TypeError /\
  PortfolioTokenDisplay localeCompare (loaded prototype_chain) "chain" = Throw TypeError.
Proof.
  split.
  - reflexivity.
  - apply grouped_list_throws; [discriminate | reflexivity].
Qed.

(** C7, as the spec states it, fails: for the chains "10" and "9", sorted
    by chain, the first occurrences are "10" then "9", and the sections are
    presented "9" then "10". *)
Lemma groups_not_in_first_occurrence_order :
  first_occurrences (map chainOf (sortedTokens codeUnitCompare numeric_chains "chain")) = ["10"; "9"] /\
  titles (PortfolioTokenDisplay codeUnitCompare (loaded numeric_chains) "chain") = Some ["9"; "10"] /\
  first_occurrences (map chainOf numeric_chains) = ["10"; "9"] /\
  bind (getTokensByBlockchain numeric_chains) (fun g => Return (JsObject.keys g)) = Return ["9"; "10"].
Proof. repeat split; vm_compute; reflexivity. Qed.

(** C7, amended.  When grouping completes, each group holds the holdings
    of its chain in the relative order of the input sequence, and the
    groups are presented in the order of first occurrence of their chain,
    except that chains named by an array index ("9", "10", ...) come first,
    by ascending index.  In particular, when no chain is named by an array
    index the groups are presented in the order of first occurrence. *)
Theorem grouping_keeps_order (sorted : list TrackedWalletToken) (grouped : Grouped) :
  getTokensByBlockchain sorted = Return grouped ->
  let names := first_occurrences (map chainOf sorted) in
  (forall k arr, In (k, arr) (JsObject.entries grouped) -> arr = holdingsOf k sorted) /\
  (exists indices,
      JsObject.keys grouped = indices ++ filter notIndex names /\
      Permutation indices (filter JsObject.is_array_index names) /\
      Sorted index_le indices) /\
  (forallb notIndex names = true -> JsObject.keys grouped = names).
Proof.
  rewrite getTokensByBlockchain_spec.
  destruct (existsb inheritedName sorted); [discriminate|].
  intros Heq. inversion Heq; subst grouped. clear Heq. cbv zeta.
  rewrite <- groupsOf_keys.
  split; [|split].
  - intros k arr Hin.
    apply (Permutation_in _ (entries_perm _)), In_groupsOf in Hin. tauto.
  - apply keys_order.
  - apply keys_no_index.
Qed.

Lemma grouping_keeps_order_witness :
  getTokensByBlockchain spec_example = Return spec_example_grouped /\
  JsObject.keys spec_example_grouped = ["Ethereum"; "SOLANA"; "Arbitrum"].
Proof.
  assert (Hrun : getTokensByBlockchain spec_example = Return spec_example_grouped)
    by reflexivity.
  split; [exact Hrun|].
  apply (grouping_keeps_order spec_example spec_example_grouped Hrun). reflexivity.
Defined.

(** ** Keys and subtotals of fields that are absent or do not parse *)

(** An absent field, and an empty string, have the key zero. *)
Lemma absent_field_key_is_zero :
  parseFloat_or_0 JsUndefined = 0%float /\
  parseFloat_or_0 JsNull = 0%float /\
  parseFloat_or_0 (JsStr "") = 0%float /\
  number_or_0 None = 0%float /\
  number_or_0 (Some JsNumber.NaN) = 0%float.
Proof. repeat split; vm_compute; reflexivity. Qed.

(** On values that parse to finite numbers the subtotal of the program is
    the subtotal of the spec. *)
Lemma totalValue_is_subtotal_when_parseable (blockchain : string) (group : list TrackedWalletToken) :
  Forall (fun token => PrimFloat.is_finite (parseFloat_or_0 (Token.value token)) = true) group ->
  totalValue (renderBlockchainSection (blockchain, group)) = subtotalUsd group.
Proof.
  unfold renderBlockchainSection, subtotalUsd, JsArray.reduce. simpl.
  generalize 0%float. induction group as [|t group IH]; intros acc Hall; simpl.
  - reflexivity.
  - inversion Hall as [|? ? Ht Hrest]; subst.
    rewrite IH by assumption. unfold sumValue, parseOrZero. now rewrite Ht.
Qed.

(** C3.  An absent field has the key zero ([absent_field_key_is_zero]),
    and sorting has no way to fail; but a string that is no number has the
    key [NaN]: only the falsy value is replaced by '0' before [parseFloat].
    With the quantities "1", "abc" and "2", every comparison with "abc"
    yields [NaN], read as a tie: A ties with N and N with B while B goes
    before A, so the comparator is not consistent and the holdings stay
    A, N, B; with a zero key they would come out B, A, N.  In the subtotal
    the same [NaN] swallows the sum. *)
Theorem non_numeric_field_key_is_NaN (localeCompare : string -> string -> float) :
  let A := holding "A" "ETH" (JsStr "1") JsUndefined None in
  let N := holding "N" "ETH" (JsStr "abc") JsUndefined None in
  let B := holding "B" "ETH" (JsStr "2") JsUndefined None in
  parseFloat_or_0 (JsStr "abc") = JsNumber.NaN /\
  parseOrZero (JsStr "abc") = 0%float /\
  JsArray.verdict (compareTokens localeCompare "balance" A N) = Eq /\
  JsArray.verdict (compareTokens localeCompare "balance" N B) = Eq /\
  JsArray.verdict (compareTokens localeCompare "balance" A B) = Gt /\
  map Token.id (sortedTokens localeCompare [A; N; B] "balance") = ["A"; "N"; "B"] /\
  map Token.id (sortByQuantityOrZero [A; N; B]) = ["B"; "A"; "N"] /\
  totalValue (renderBlockchainSection ("Ethereum", unparseable_value)) = JsNumber.NaN.
Proof. cbv zeta. repeat split; vm_compute; reflexivity. Qed.

(** C6.  The subtotal is the sum of [parseFloat] of the values with only an
    absent value replaced by zero.  A value that does not parse contributes
    [NaN]: for the values "N/A" and 5 the section shows [NaN], where the
    sum of the spec is 5.  The same holds for a value that is the Number
    [NaN]. *)
Theorem subtotal_NaN_on_unparseable_value :
  PortfolioTokenDisplay codeUnitCompare (loaded unparseable_value) "chain" =
    Return (GroupedList
      [ {| blockchainTitle := "Ethereum"; tokenCount := 2;
           totalValue := JsNumber.NaN; sectionData := unparseable_value |} ]) /\
  subtotalUsd unparseable_value = 5%float /\
  PortfolioTokenDisplay codeUnitCompare (loaded nan_value) "chain" =
    Return (GroupedList
      [ {| blockchainTitle := "Ethereum"; tokenCount := 2;
           totalValue := JsNumber.NaN; sectionData := nan_value |} ]) /\
  subtotalUsd nan_value = 5%float.
Proof. repeat split; vm_compute; reflexivity. Qed.

(** The grouped example of section 8 of the spec; the chain "SOLANA" keeps
    its raw name. *)
Example grouped_example :
  PortfolioTokenDisplay codeUnitCompare (loaded spec_example) "chain" =
  Return (GroupedList
    [ {| blockchainTitle := "Arbitrum"; tokenCount := 1; totalValue := 0%float;
         sectionData := [holding "ARB" "ARB" JsUndefined JsNull None] |};
      {| blockchainTitle := "Ethereum"; tokenCount := 1; totalValue := 100.5%float;
         sectionData := [holding "USDC" "ETH" JsUndefined (JsStr "100.50") None] |};
      {| blockchainTitle := "SOLANA"; tokenCount := 1; totalValue := 50%float;
         sectionData := [holding "SOL" "SOLANA" JsUndefined (JsStr "50") None] |} ]).
Proof. vm_compute. reflexivity. Qed.

(** Without holdings the component shows its notice; grouping itself
    returns the empty object. *)
Example grouped_empty_example (sortBy : string) :
  PortfolioTokenDisplay codeUnitCompare (loaded []) sortBy = Return EmptyNotice /\
  getTokensByBlockchain [] = Return [].
Proof. split; reflexivity. Qed.

(* ================================================================= *)
(** * Further properties *)

(** ** The order of binary64 *)

Local Open Scope Z_scope.

(** A mantissa of [d] binary digits is below [2 ^ d]. *)
Lemma digits2_pos_upper (p : positive) : Zpos p < 2 ^ Zpos (digits2_pos p).
Proof.
  induction p as [p IH|p IH|]; simpl digits2_pos.
  - rewrite Pos2Z.inj_succ, Z.pow_succ_r by lia. lia.
  - rewrite Pos2Z.inj_succ, Z.pow_succ_r by lia. lia.
  - simpl. lia.
Qed.

(** Of two binary64 numbers, the one with the greater exponent is the
    greater. *)
Lemma scaled_lt (s1 s2 : bool) (m1 m2 : positive) (e1 e2 : Z) :
  valid_binary (S754_finite s1 m1 e1) = true ->
  valid_binary (S754_finite s2 m2 e2) = true ->
  e1 < e2 -> JsNumber.scaled m1 e1 < JsNumber.scaled m2 e2.
Proof.
  simpl. unfold bounded, canonical_mantissa, fexp.
  intros V1 V2 Hlt.
  apply andb_prop in V1. destruct V1 as [V1 _]. apply Z.eqb_eq in V1.
  apply andb_prop in V2. destruct V2 as [V2 _]. apply Z.eqb_eq in V2.
  pose proof (digits2_pos_upper m1) as U1.
  pose proof (digits2_pos_lower m2) as L2.
  assert (Hd1 : Zpos (digits2_pos m1) <= prec) by lia.
  assert (Hd2 : Zpos (digits2_pos m2) = prec) by lia.
  assert (He1 : emin <= e1) by lia.
  rewrite Hd2 in L2.
  assert (U1' : Zpos m1 < 2 ^ prec).
  { eapply Z.lt_le_trans; [exact U1|]. apply Z.pow_le_mono_r; lia. }
  unfold JsNumber.scaled.
  replace (e2 - emin) with ((e2 - e1 - 1) + 1 + (e1 - emin)) by lia.
  rewrite !Z.pow_add_r by lia.
  assert (Hk : 0 < 2 ^ (e1 - emin)) by (apply Z.pow_pos_nonneg; lia).
  assert (Hj : 1 <= 2 ^ (e2 - e1 - 1)) by (apply (Z.pow_le_mono_r 2 0); lia).
  assert (Hp : 2 ^ prec = 2 * 2 ^ (prec - 1)) by reflexivity.
  change (2 ^ 1) with 2.
  rewrite Z.mul_assoc. apply Z.mul_lt_mono_pos_r; [assumption|]. nia.
Qed.

Lemma finite_compare (s1 s2 : bool) (m1 m2 : positive) (e1 e2 : Z) :
  valid_binary (S754_finite s1 m1 e1) = true ->
  valid_binary (S754_finite s2 m2 e2) = true ->
  match e1 ?= e2 with
  | Lt => Lt
  | Gt => Gt
  | Eq => Pos.compare_cont Eq m1 m2
  end = (JsNumber.scaled m1 e1 ?= JsNumber.scaled m2 e2).
Proof.
  intros V1 V2. destruct (Z.compare_spec e1 e2) as [->|Hlt|Hgt].
  - unfold JsNumber.scaled. apply valid_emin in V2.
    rewrite compare_scaled by (apply Z.pow_pos_nonneg; lia). reflexivity.
  - symmetry. apply Z.compare_lt_iff. now apply (scaled_lt s1 s2).
  - symmetry. apply Z.compare_gt_iff. now apply (scaled_lt s2 s1).
Qed.

(** The comparison of binary64 is the comparison of the ranks. *)
Lemma SFcompare_rank (x y : spec_float) (rx ry : JsNumber.ext) :
  valid_binary x = true -> valid_binary y = true ->
  JsNumber.SFrank x = Some rx -> JsNumber.SFrank y = Some ry ->
  SFcompare x y = Some (JsNumber.ext_compare rx ry).
Proof.
  intros Vx Vy Hx Hy.
  destruct x as [sx|sx| |sx mx ex], y as [sy|sy| |sy my ey];
    unfold JsNumber.SFrank in Hx, Hy; try discriminate;
    injection Hx as <-; injection Hy as <-;
    try (destruct sx, sy; reflexivity).
  - apply valid_emin in Vy. pose proof (scaled_pos my ey Vy) as Hpos.
    cbn [SFcompare JsNumber.ext_compare].
    rewrite (proj2 (cond_Zopp_compare_0 sy _ Hpos)). reflexivity.
  - apply valid_emin in Vx. pose proof (scaled_pos mx ex Vx) as Hpos.
    cbn [SFcompare JsNumber.ext_compare].
    rewrite (proj1 (cond_Zopp_compare_0 sx _ Hpos)). reflexivity.
  - pose proof (scaled_pos mx ex (valid_emin _ _ _ Vx)) as Px.
    pose proof (scaled_pos my ey (valid_emin _ _ _ Vy)) as Py.
    cbn [SFcompare JsNumber.ext_compare].
    destruct sx, sy; cbn [cond_Zopp]; f_equal.
    + rewrite Z.compare_opp, <- (finite_compare true true my mx ey ex) by assumption.
      rewrite (Z.compare_antisym ey ex).
      destruct (ey ?= ex); simpl; try reflexivity.
      rewrite Pos.compare_cont_antisym. reflexivity.
    + symmetry. apply Z.compare_lt_iff. lia.
    + symmetry. apply Z.compare_gt_iff. lia.
    + now apply (finite_compare false false).
Qed.

(** [x <= y] on Numbers other than [NaN]. *)
Lemma leb_rank (x y : float) (rx ry : JsNumber.ext) :
  JsNumber.rank x = Some rx -> JsNumber.rank y = Some ry ->
  PrimFloat.leb x y = match JsNumber.ext_compare rx ry with Gt => false | _ => true end.
Proof.
  unfold JsNumber.rank. intros Hx Hy.
  rewrite leb_spec. unfold SFleb.
  rewrite (SFcompare_rank _ _ rx ry) by auto using Prim2SF_valid.
  now destruct (JsNumber.ext_compare rx ry).
Qed.

Local Close Scope Z_scope.

(** ** The colours of the badges and of the section headers *)

(** The colour of a chain is the colour of its display name. *)
Lemma getChainColor_display_name (chain : option string) :
  getChainColor (Some (getChainDisplayName chain)) = getChainColor chain.
Proof.
  destruct chain as [s|]; [|reflexivity].
  assert (HR : getChainColor (Some s) =
               match switch_lookup color_table (JsString.toUpperCase s) with
               | Some color => color
               | None => "#666"
               end) by reflexivity.
  rewrite HR. unfold getChainDisplayName, chainUpper, option_map, switch_on.
  remember (JsString.toUpperCase s) as u eqn:Hu.
  unfold display_table. cbn [switch_lookup].
  repeat match goal with
         | |- context [String.eqb u ?label] =>
             destruct (String.eqb_spec u label) as [->|_]; [reflexivity|]
         end.
  destruct s as [|c r]; subst u; reflexivity.
Qed.

Lemma grouped_entry (sorted : list TrackedWalletToken) (grouped : Grouped)
    (item : string * list TrackedWalletToken) :
  getTokensByBlockchain sorted = Return grouped ->
  In item (JsObject.entries grouped) ->
  In (fst item) (map chainOf sorted) /\ snd item = holdingsOf (fst item) sorted.
Proof.
  rewrite getTokensByBlockchain_spec.
  destruct (existsb inheritedName sorted); [discriminate|].
  intros Heq Hin. injection Heq as <-.
  apply (Permutation_in _ (entries_perm _)) in Hin.
  destruct item as [k arr]. now apply In_groupsOf in Hin.
Qed.

Lemma holdingsOf_chain (k : string) (l : list TrackedWalletToken) (token : TrackedWalletToken) :
  In token (holdingsOf k l) -> chainOf token = k /\ In token l.
Proof.
  unfold holdingsOf. rewrite filter_In. intros [Hin Heq].
  split; [now apply String.eqb_eq | assumption].
Qed.

(** X1.  In the grouped view every card wears the colour of its section:
    the badge of a holding, coloured from its chain, and the indicator of
    the section it is listed in, coloured from the display name, agree. *)
Theorem section_indicator_matches_badges (sorted : list TrackedWalletToken) (grouped : Grouped)
    (item : string * list TrackedWalletToken) (token : TrackedWalletToken)
    (showWalletAddress : bool) :
  getTokensByBlockchain sorted = Return grouped ->
  In item (JsObject.entries grouped) ->
  In token (snd item) ->
  chainBadge (renderToken showWalletAddress token) = chainIndicator item /\
  chainText (renderToken showWalletAddress token) = fst item.
Proof.
  intros Hg Hitem Htoken.
  destruct (grouped_entry _ _ _ Hg Hitem) as [_ Harr].
  rewrite Harr in Htoken. apply holdingsOf_chain in Htoken.
  destruct Htoken as [Hk _]. unfold chainIndicator. rewrite <- Hk.
  split; [|reflexivity].
  unfold chainOf. now rewrite getChainColor_display_name.
Qed.

Lemma section_indicator_matches_badges_witness :
  chainBadge (renderToken true (holding "USDC" "ETH" JsUndefined (JsStr "100.50") None)) =
  chainIndicator ("Ethereum", [holding "USDC" "ETH" JsUndefined (JsStr "100.50") None]) /\
  chainText (renderToken true (holding "USDC" "ETH" JsUndefined (JsStr "100.50") None)) =
  "Ethereum".
Proof.
  apply (section_indicator_matches_badges spec_example spec_example_grouped
           ("Ethereum", [holding "USDC" "ETH" JsUndefined (JsStr "100.50") None])).
  - reflexivity.
  - simpl. left. reflexivity.
  - simpl. left. reflexivity.
Defined.

Lemma switch_lookup_In (cases : list (string * string)) (x result : string) :
  switch_lookup cases x = Some result -> In (x, result) cases.
Proof.
  induction cases as [|[label r] rest IH]; simpl; [discriminate|].
  destruct (String.eqb_spec x label) as [->|_].
  - intros H. injection H as ->. now left.
  - intros H. right. now apply IH.
Qed.

(** X2.  A chain that is given a display name of the table is never left
    with the grey of unknown chains. *)
Theorem named_chain_has_a_colour (chain : option string) (name : string) :
  switch_on display_table (chainUpper chain) = Some name ->
  getChainDisplayName chain = name /\
  getChainColor chain <> "#666" /\
  getChainColor (Some name) = getChainColor chain.
Proof.
  intros Hname. split; [unfold getChainDisplayName; now rewrite Hname|].
  split.
  - destruct chain as [s|]; [|discriminate].
    unfold chainUpper, option_map, switch_on in Hname.
    apply switch_lookup_In in Hname.
    unfold getChainColor, chainUpper, option_map, switch_on.
    unfold display_table in Hname.
    repeat (destruct Hname as [Hname|Hname];
            [injection Hname as <- _; simpl; discriminate|]).
    destruct Hname.
  - rewrite <- (getChainColor_display_name chain).
    unfold getChainDisplayName. now rewrite Hname.
Qed.

Lemma named_chain_has_a_colour_witness :
  getChainDisplayName (Some "matic") = "Polygon" /\
  getChainColor (Some "matic") <> "#666" /\
  getChainColor (Some "Polygon") = getChainColor (Some "matic").
Proof. apply (named_chain_has_a_colour (Some "matic") "Polygon"). reflexivity. Defined.

(** ** What the component returns *)

Lemma PortfolioTokenDisplay_listed (localeCompare : string -> string -> float)
    (props : PortfolioTokenDisplayProps) (sortBy : string) :
  listed props ->
  PortfolioTokenDisplay localeCompare props sortBy =
  if String.eqb sortBy "chain" then
    bind (blockchainSections (sortedTokens localeCompare (tokens props) sortBy))
         (fun sections => Return (GroupedList sections))
  else Return (FlatList (sortedTokens localeCompare (tokens props) sortBy)).
Proof.
  intros (Hl & He & Ht). unfold PortfolioTokenDisplay. rewrite Hl, He.
  destruct (tokens props); [congruence | reflexivity].
Qed.

Lemma PortfolioTokenDisplay_notice (localeCompare : string -> string -> float)
    (props : PortfolioTokenDisplayProps) (sortBy : string) :
  ~ listed props ->
  PortfolioTokenDisplay localeCompare props sortBy = Return LoadingNotice \/
  PortfolioTokenDisplay localeCompare props sortBy =
    Return (ErrorNotice (JsString.or_else (error props) "")) \/
  PortfolioTokenDisplay localeCompare props sortBy = Return EmptyNotice.
Proof.
  unfold listed, PortfolioTokenDisplay. intros Hn.
  destruct (loading props); [now left|].
  destruct (JsString.truthy _); [now right; left|].
  destruct (tokens props); [now right; right|].
  exfalso. apply Hn. repeat split. discriminate.
Qed.

Lemma inheritedName_sorted (localeCompare : string -> string -> float)
    (l : list TrackedWalletToken) (sortBy : string) :
  existsb inheritedName (sortedTokens localeCompare l sortBy) = existsb inheritedName l.
Proof. symmetry. apply existsb_perm, sort_perm. Qed.

(** X3.  The component throws in one situation only: the lists are shown
    (no loading, no error, some holding), the criterion is the chain, and
    the display name of a holding is a property every object inherits.
    Under any other criterion such a holding is listed like the others. *)
Theorem PortfolioTokenDisplay_throws_iff (localeCompare : string -> string -> float)
    (props : PortfolioTokenDisplayProps) (sortBy : string) :
  PortfolioTokenDisplay localeCompare props sortBy = Throw TypeError <->
  loading props = false /\
  JsString.truthy (JsString.or_else (error props) "") = false /\
  tokens props <> [] /\
  sortBy = "chain" /\
  exists token, In token (tokens props) /\
                JsObject.inherits (getChainDisplayName (Token.chain token)) = true.
Proof.
  split.
  - intros Hthrow.
    assert (Hlisted : listed props).
    { unfold listed. unfold PortfolioTokenDisplay in Hthrow.
      destruct (loading props); [discriminate|].
      destruct (JsString.truthy _); [discriminate|].
      destruct (tokens props); [discriminate|]. repeat split. discriminate. }
    rewrite (PortfolioTokenDisplay_listed _ _ _ Hlisted) in Hthrow.
    destruct Hlisted as (Hl & He & Ht).
    destruct (String.eqb_spec sortBy "chain") as [Hchain|_]; [|discriminate].
    repeat (split; [assumption|]). rewrite Hchain in Hthrow.
    unfold blockchainSections in Hthrow.
    rewrite getTokensByBlockchain_spec, inheritedName_sorted in Hthrow.
    destruct (existsb inheritedName (tokens props)) eqn:Hex; [|discriminate].
    apply existsb_exists in Hex. exact Hex.
  - intros (Hl & He & Ht & -> & Hex).
    rewrite PortfolioTokenDisplay_listed by (repeat split; assumption).
    simpl String.eqb. unfold blockchainSections.
    rewrite getTokensByBlockchain_spec, inheritedName_sorted.
    apply existsb_exists in Hex. unfold inheritedName, chainOf. rewrite Hex. reflexivity.
Qed.

(** The sections of a grouped list. *)
Lemma grouped_list_sections (localeCompare : string -> string -> float)
    (props : PortfolioTokenDisplayProps) (sections : list BlockchainSection) :
  PortfolioTokenDisplay localeCompare props "chain" = Return (GroupedList sections) ->
  sections = map renderBlockchainSection
                 (JsObject.entries (groupsOf (sortedTokens localeCompare (tokens props) "chain"))).
Proof.
  unfold PortfolioTokenDisplay.
  destruct (loading props); [discriminate|].
  destruct (JsString.truthy _); [discriminate|].
  destruct (Nat.eqb _ 0); [discriminate|].
  simpl String.eqb. unfold blockchainSections.
  rewrite getTokensByBlockchain_spec.
  destruct (existsb inheritedName _); [discriminate|].
  simpl. intros H. now injection H as <-.
Qed.

Lemma sectionData_entries (entries : list (string * list TrackedWalletToken)) :
  map sectionData (map renderBlockchainSection entries) = map snd entries.
Proof. rewrite map_map. apply map_ext. now intros [k arr]. Qed.

Lemma blockchainTitle_entries (entries : list (string * list TrackedWalletToken)) :
  map blockchainTitle (map renderBlockchainSection entries) = map fst entries.
Proof. rewrite map_map. apply map_ext. now intros [k arr]. Qed.

Lemma tokenCount_entries (entries : list (string * list TrackedWalletToken)) :
  map tokenCount (map renderBlockchainSection entries) =
  map (@List.length TrackedWalletToken) (map snd entries).
Proof. rewrite !map_map. apply map_ext. now intros [k arr]. Qed.

(** X4.  The grouped list shows every holding once: the sections have
    distinct titles, none is empty, each lists holdings of its own chain
    only, together they hold the holdings that came in, and the counts in
    the headers add up to the number of holdings. *)
Theorem grouped_list_shows_every_holding_once (localeCompare : string -> string -> float)
    (props : PortfolioTokenDisplayProps) (sections : list BlockchainSection) :
  PortfolioTokenDisplay localeCompare props "chain" = Return (GroupedList sections) ->
  Permutation (List.concat (map sectionData sections)) (tokens props) /\
  NoDup (map blockchainTitle sections) /\
  list_sum (map tokenCount sections) = List.length (tokens props) /\
  forall s, In s sections ->
    sectionData s <> [] /\
    tokenCount s = List.length (sectionData s) /\
    forall token, In token (sectionData s) ->
      getChainDisplayName (Token.chain token) = blockchainTitle s.
Proof.
  intros Hr. apply grouped_list_sections in Hr. subst sections.
  set (sorted := sortedTokens localeCompare (tokens props) "chain").
  pose proof (entries_perm (groupsOf sorted)) as Hperm.
  assert (Hall : Permutation (List.concat (map snd (JsObject.entries (groupsOf sorted))))
                             (tokens props)).
  { eapply perm_trans; [apply concat_perm, Permutation_map, Hperm|].
    eapply perm_trans; [apply groupsOf_partition|].
    apply Permutation_sym, sort_perm. }
  split; [now rewrite sectionData_entries|].
  split.
  { rewrite blockchainTitle_entries.
    apply (Permutation_NoDup (Permutation_map fst (Permutation_sym Hperm))).
    rewrite groupsOf_keys. apply NoDup_first_occurrences. }
  split.
  { rewrite tokenCount_entries, <- length_concat. now apply Permutation_length. }
  intros s Hs. apply in_map_iff in Hs. destruct Hs as [[k arr] [<- Hin]].
  apply (Permutation_in _ Hperm), In_groupsOf in Hin. destruct Hin as [Hk ->].
  cbn [renderBlockchainSection sectionData tokenCount blockchainTitle].
  split; [|split; [reflexivity|]].
  - apply in_map_iff in Hk. destruct Hk as [t [Heq Ht]].
    intros Hnil.
    assert (Hin : In t (holdingsOf k sorted)).
    { unfold holdingsOf. apply filter_In. split; [assumption | now apply String.eqb_eq]. }
    rewrite Hnil in Hin. destruct Hin.
  - intros token Htoken. now apply holdingsOf_chain in Htoken.
Qed.

Lemma grouped_list_shows_every_holding_once_witness :
  Permutation (List.concat (map sectionData spec_example_sections)) spec_example /\
  list_sum (map tokenCount spec_example_sections) = 3.
Proof.
  assert (Hr : PortfolioTokenDisplay codeUnitCompare (loaded spec_example) "chain" =
               Return (GroupedList spec_example_sections)) by (vm_compute; reflexivity).
  destruct (grouped_list_shows_every_holding_once codeUnitCompare (loaded spec_example)
              spec_example_sections Hr) as (Hperm & _ & Hsum & _).
  split; [exact Hperm | exact Hsum].
Defined.

(** X5.  Sorting by chain leaves the holdings of a chain as they came in:
    under a collation that answers a pair and the swapped pair with
    opposite signs, each section lists its holdings in the order of the
    props. *)
Theorem sections_keep_incoming_order (localeCompare : string -> string -> float)
    (props : PortfolioTokenDisplayProps) (sections : list BlockchainSection) :
  (forall s t, JsArray.verdict (localeCompare t s) =
               CompOpp (JsArray.verdict (localeCompare s t))) ->
  PortfolioTokenDisplay localeCompare props "chain" = Return (GroupedList sections) ->
  forall s, In s sections ->
    sectionData s = holdingsOf (blockchainTitle s) (tokens props).
Proof.
  intros Hanti Hr s Hs. apply grouped_list_sections in Hr. subst sections.
  apply in_map_iff in Hs. destruct Hs as [[k arr] [<- Hin]].
  apply (Permutation_in _ (entries_perm _)), In_groupsOf in Hin. destruct Hin as [_ ->].
  cbn [renderBlockchainSection sectionData blockchainTitle].
  unfold holdingsOf, sortedTokens. apply sort_stable.
  intros x y _ _ Hx Hy. apply String.eqb_eq in Hx, Hy.
  unfold compareTokens. simpl String.eqb. fold (chainOf x) (chainOf y). rewrite Hx, Hy.
  specialize (Hanti (JsString.toLowerCase k) (JsString.toLowerCase k)).
  destruct (JsArray.verdict _); [reflexivity | discriminate | discriminate].
Qed.

Lemma sections_keep_incoming_order_witness :
  [holding "A" "ETH" JsUndefined JsNull None; holding "D" "ETH" JsUndefined (JsStr "10") None] =
  holdingsOf "Ethereum" mixed_values.
Proof.
  apply (sections_keep_incoming_order codeUnitCompare (loaded mixed_values)
           mixed_values_sections codeUnitCompare_antisym
           (eq_refl (Return (GroupedList mixed_values_sections)))
           {| blockchainTitle := "Ethereum"; tokenCount := 2; totalValue := 10%float;
              sectionData := [holding "A" "ETH" JsUndefined JsNull None;
                              holding "D" "ETH" JsUndefined (JsStr "10") None] |}).
  right. left. reflexivity.
Defined.

(** ** Descending order *)

Lemma sorted_strongly {A : Type} (comparefn : A -> A -> float) (l : list A) :
  (forall x y, JsArray.verdict (comparefn y x) = CompOpp (JsArray.verdict (comparefn x y))) ->
  JsArray.transitive_on comparefn l ->
  Sorted (JsArray.in_order comparefn) l ->
  StronglySorted (JsArray.in_order comparefn) l.
Proof.
  intros Hanti. induction l as [|x l IH]; intros Htrans Hs; constructor.
  - apply IH.
    + intros u v w Hu Hv Hw. apply Htrans; now right.
    + now inversion Hs.
  - apply Forall_forall. intros y Hy.
    apply (sorted_head_least comparefn Hanti x l Htrans Hs). now right.
Qed.

Lemma strongly_sorted_weaken {A : Type} (R R' : A -> A -> Prop) (l : list A) :
  (forall a b, In a l -> In b l -> R a b -> R' a b) ->
  StronglySorted R l -> StronglySorted R' l.
Proof.
  intros Himp Hs. induction Hs as [|x l Hs IH Hall]; constructor.
  - apply IH. intros a b Ha Hb. apply Himp; now right.
  - rewrite Forall_forall in *. intros y Hy.
    apply Himp; [now left | now right | now apply Hall].
Qed.

(** Sorting by the difference of keys puts the greater key first. *)
Lemma sort_by_key_descending {A : Type} (key : A -> float) (l : list A) :
  (forall a, In a l -> JsNumber.isNaN (key a) = false) ->
  StronglySorted (fun a b => PrimFloat.leb (key b) (key a) = true)
                 (JsArray.sort (fun a b => (key b - key a)%float) l).
Proof.
  intros Hkeys.
  set (comparefn := fun a b : A => (key b - key a)%float).
  assert (Hanti : forall x y, JsArray.verdict (comparefn y x) =
                              CompOpp (JsArray.verdict (comparefn x y))).
  { intros x y. apply verdict_sub_antisym. }
  assert (Hsorted : forall a, In a (JsArray.sort comparefn l) -> JsNumber.isNaN (key a) = false).
  { intros a Ha. apply Hkeys. apply (Permutation_in _ (Permutation_sym (sort_perm comparefn l)) Ha). }
  apply (strongly_sorted_weaken (JsArray.in_order comparefn)).
  - intros a b Ha Hb. unfold JsArray.in_order, comparefn.
    destruct (isNaN_rank _ (Hsorted a Ha)) as [ra Hra].
    destruct (isNaN_rank _ (Hsorted b Hb)) as [rb Hrb].
    rewrite (verdict_sub_rank _ _ _ _ Hra Hrb), (leb_rank _ _ _ _ Hrb Hra).
    destruct (JsNumber.ext_compare rb ra); congruence.
  - apply sorted_strongly; [exact Hanti | | now apply sort_sorted].
    now apply difference_transitive.
Qed.

(** X6.  Sorted by holdings, by quantity or by the 24h change, the list
    is in descending order when no key is [NaN]: every holding has a key
    at least as great as the key of every holding listed after it. *)
Theorem sortedTokens_descending (localeCompare : string -> string -> float)
    (tokens : list TrackedWalletToken) (sortBy : string) :
  In sortBy ["value"; "balance"; "performance"] ->
  keysParse sortBy tokens = true ->
  StronglySorted
    (fun a b => PrimFloat.leb (sortKey sortBy b) (sortKey sortBy a) = true)
    (sortedTokens localeCompare tokens sortBy).
Proof.
  intros Hin Hkeys. unfold keysParse in Hkeys. rewrite forallb_forall in Hkeys.
  assert (Hnum : forall t, In t tokens -> JsNumber.isNaN (sortKey sortBy t) = false).
  { intros t Ht. apply negb_true_iff. now apply Hkeys. }
  clear Hkeys.
  destruct Hin as [<-|[<-|[<-|[]]]].
  - exact (sort_by_key_descending (fun t => parseFloat_or_0 (Token.value t)) tokens Hnum).
  - exact (sort_by_key_descending (fun t => parseFloat_or_0 (Token.quantity t)) tokens Hnum).
  - exact (sort_by_key_descending (fun t => number_or_0 (Token.price_change_24h t)) tokens Hnum).
Qed.

Lemma sortedTokens_descending_witness :
  StronglySorted
    (fun a b => PrimFloat.leb (sortKey "value" b) (sortKey "value" a) = true)
    (sortedTokens codeUnitCompare mixed_values "value").
Proof.
  apply (sortedTokens_descending codeUnitCompare mixed_values "value").
  - left. reflexivity.
  - vm_compute. reflexivity.
Defined.

(** ** Subtotals *)

Lemma isNaN_spec (x : float) : JsNumber.isNaN x = true <-> Prim2SF x = S754_nan.
Proof.
  unfold JsNumber.isNaN. rewrite eqb_spec.
  destruct (Prim2SF x) as [s|s| |s m e]; unfold SFeqb; cbn [SFcompare].
  - split; discriminate.
  - destruct s; split; discriminate.
  - split; reflexivity.
  - destruct s; rewrite Z.compare_refl, Pos.compare_cont_refl; split; discriminate.
Qed.

Lemma add_NaN (x y : float) :
  JsNumber.isNaN x = true \/ JsNumber.isNaN y = true -> JsNumber.isNaN (x + y) = true.
Proof.
  rewrite !isNaN_spec, add_spec. intros [H|H]; rewrite H.
  - reflexivity.
  - now destruct (Prim2SF x).
Qed.

Lemma sumValue_NaN (l : list TrackedWalletToken) (sum : float) :
  JsNumber.isNaN sum = true \/
  (exists t, In t l /\ JsNumber.isNaN (parseFloat_or_0 (Token.value t)) = true) ->
  JsNumber.isNaN (fold_left sumValue l sum) = true.
Proof.
  revert sum. induction l as [|t l IH]; intros sum H; simpl.
  - destruct H as [H|[t [[] _]]]. exact H.
  - apply IH. destruct H as [H|[u [[<-|Hin] Hu]]].
    + left. apply add_NaN. now left.
    + left. apply add_NaN. now right.
    + right. now exists u.
Qed.

(** X7.  One value that does not parse spoils the subtotal of its
    section: the subtotal is [NaN] whatever the other values are. *)
Theorem subtotal_NaN_when_a_value_is (item : string * list TrackedWalletToken)
    (token : TrackedWalletToken) :
  In token (snd item) ->
  JsNumber.isNaN (parseFloat_or_0 (Token.value token)) = true ->
  JsNumber.isNaN (totalValue (renderBlockchainSection item)) = true.
Proof.
  destruct item as [blockchain group]. simpl snd. intros Hin Hnan.
  cbn [renderBlockchainSection totalValue]. unfold JsArray.reduce.
  apply sumValue_NaN. right. now exists token.
Qed.

Lemma subtotal_NaN_when_a_value_is_witness :
  JsNumber.isNaN (totalValue (renderBlockchainSection ("Ethereum", unparseable_value))) = true.
Proof.
  apply (subtotal_NaN_when_a_value_is ("Ethereum", unparseable_value)
           (holding "X" "ETH" JsUndefined (JsStr "N/A") None)).
  - left. reflexivity.
  - vm_compute. reflexivity.
Defined.

(** ** The sort buttons *)

Lemma pressSortButton_option (sortBy : string) (i : nat) :
  In sortBy sortOptions -> In (pressSortButton sortBy i) sortOptions.
Proof.
  intros Hin. unfold pressSortButton.
  do 5 (destruct i as [|i]; [simpl; auto 10|]).
  destruct i; exact Hin.
Qed.

Lemma pressSortButtons_option (presses : list nat) (sortBy : string) :
  In sortBy sortOptions -> In (fold_left pressSortButton presses sortBy) sortOptions.
Proof.
  revert sortBy. induction presses as [|i presses IH]; intros sortBy Hin; simpl.
  - exact Hin.
  - apply IH. now apply pressSortButton_option.
Qed.

(** X8.  Whatever buttons are pressed, in whatever order, the criterion
    is one of the five the comparator handles and exactly one button is
    lit; a press lights the button pressed. *)
Theorem sort_buttons_select_a_criterion (presses : list nat) :
  In (pressSortButtons presses) sortOptions /\
  count_occ Bool.bool_dec (activeSortButtons (pressSortButtons presses)) true = 1 /\
  forall i, i < List.length sortButtons ->
    nth_error (activeSortButtons (pressSortButtons (presses ++ [i]))) i = Some true.
Proof.
  assert (Hin : In (pressSortButtons presses) sortOptions).
  { apply pressSortButtons_option. now left. }
  split; [exact Hin|]. split.
  - simpl in Hin.
    repeat (destruct Hin as [Hin|Hin]; [rewrite <- Hin; reflexivity|]). destruct Hin.
  - intros i Hi. unfold pressSortButtons. rewrite fold_left_app. simpl fold_left.
    unfold pressSortButton.
    do 5 (destruct i as [|i]; [reflexivity|]).
    simpl in Hi. lia.
Qed.

(** ** The boxes of a card *)

Lemma digits_loop_truthy (fuel : nat) (n : Z) (acc : string) :
  JsString.truthy acc = true -> JsString.truthy (JsNumber.digits_loop fuel n acc) = true.
Proof.
  revert n acc. induction fuel as [|fuel IH]; intros n acc Hacc; simpl; [exact Hacc|].
  destruct (n <? 10)%Z; [reflexivity | now apply IH].
Qed.

Lemma digits_truthy (n : Z) : JsString.truthy (JsNumber.digits n) = true.
Proof.
  unfold JsNumber.digits. simpl JsNumber.digits_loop.
  destruct (n <? 10)%Z; [reflexivity | now apply digits_loop_truthy].
Qed.

Lemma append_truthy_l (s t : string) :
  JsString.truthy s = true -> JsString.truthy (s ++ t) = true.
Proof. now destruct s. Qed.

Lemma append_truthy_r (s t : string) :
  JsString.truthy t = true -> JsString.truthy (s ++ t) = true.
Proof. destruct s; [now simpl | reflexivity]. Qed.

Lemma format_decimal_truthy (n k s : Z) :
  JsString.truthy (JsNumber.format_decimal n k s) = true.
Proof.
  unfold JsNumber.format_decimal.
  pose proof (digits_truthy s) as Hd.
  destruct (_ && _); [now apply append_truthy_l|].
  destruct (_ && _); [apply append_truthy_r; reflexivity|].
  destruct (_ && _); [reflexivity|].
  destruct (k =? 1)%Z.
  - now apply append_truthy_l.
  - apply append_truthy_r. reflexivity.
Qed.

(** The text of a Number is never empty. *)
Lemma toString_truthy (x : float) : JsString.truthy (JsNumber.toString x) = true.
Proof.
  unfold JsNumber.toString.
  destruct (Prim2SF x) as [s|s| |s m e]; try reflexivity.
  - now destruct s.
  - destruct (JsNumber.shortest_decimal _) as [[n k] d].
    apply append_truthy_r, format_decimal_truthy.
Qed.

Lemma valueBox_key (v : jsval) (x : float) :
  valueBox v = ValueBox x -> parseFloat_or_0 v = x /\ JsNumber.isNaN x = false.
Proof.
  unfold valueBox, parseFloat_or_0, parsedBox.
  destruct v as [| |y|s]; try discriminate; cbn [toString_opt JsString.or_else].
  - rewrite toString_truthy.
    destruct (JsNumber.truthy y); [|discriminate].
    destruct (JsNumber.isNaN _) eqn:Hn; [discriminate|].
    intros H. injection H as <-. now split.
  - destruct (JsString.truthy s); [|discriminate].
    destruct (JsNumber.isNaN _) eqn:Hn; [discriminate|].
    intros H. injection H as <-. now split.
Qed.

(** X9.  The Number a card shows in its holdings box, or in its quantity
    box, is the key the holding is sorted by under the criterion of that
    name, and it is never [NaN]. *)
Theorem boxes_show_the_sort_keys (showWalletAddress : bool) (item : TrackedWalletToken)
    (x : float) :
  (holdingsBox (renderToken showWalletAddress item) = ValueBox x ->
   sortKey "value" item = x /\ JsNumber.isNaN x = false) /\
  (quantityBox (renderToken showWalletAddress item) = ValueBox x ->
   sortKey "balance" item = x /\ JsNumber.isNaN x = false) /\
  (priceBox (renderToken showWalletAddress item) = ValueBox x ->
   JsNumber.isNaN x = false).
Proof.
  split; [|split]; cbn [renderToken holdingsBox quantityBox priceBox]; intros H;
    apply valueBox_key in H.
  - exact H.
  - exact H.
  - apply H.
Qed.

Lemma boxes_show_the_sort_keys_witness :
  sortKey "value" (holding "USDC" "ETH" JsUndefined (JsStr "100.50") None) = 100.5%float /\
  JsNumber.isNaN 100.5%float = false.
Proof.
  destruct (boxes_show_the_sort_keys true
              (holding "USDC" "ETH" JsUndefined (JsStr "100.50") None) 100.5%float)
    as [H _].
  apply H. vm_compute. reflexivity.
Defined.

(** ** The total of the home screen *)

Lemma total_after_text (l : list TrackedWalletToken) (s : string) :
  exists s', fold_left (fun total token => plus total (or_0 (Token.value token))) l (Str s) = Str s'.
Proof.
  revert s. induction l as [|t l IH]; intros s; simpl; [now exists s|].
  destruct (or_0 (Token.value t)); apply IH.
Qed.

Lemma or_0_textValue (t : TrackedWalletToken) :
  if textValue t then exists s, or_0 (Token.value t) = Str s
  else exists x, or_0 (Token.value t) = Num x.
Proof.
  unfold textValue, or_0.
  destruct (Token.value t) as [| |x|s]; try (now eexists).
  - destruct (JsNumber.truthy x); now eexists.
  - destruct (JsString.truthy s); now eexists.
Qed.

Lemma total_kind (l : list TrackedWalletToken) (x : float) :
  if existsb textValue l
  then exists s, fold_left (fun total token => plus total (or_0 (Token.value token))) l (Num x) = Str s
  else exists y, fold_left (fun total token => plus total (or_0 (Token.value token))) l (Num x) = Num y.
Proof.
  revert x. induction l as [|t l IH]; intros x; simpl; [now exists x|].
  pose proof (or_0_textValue t) as Ht.
  destruct (textValue t); simpl.
  - destruct Ht as [s ->]. simpl. apply total_after_text.
  - destruct Ht as [y ->]. simpl. apply IH.
Qed.

(** X10.  The total of the home screen is a Number exactly when no
    holding brings its value as a text that is not empty; one such value
    turns the total into a String, the values written one after the
    other. *)
Theorem getTotalValue_Number_iff (tokens : list TrackedWalletToken) :
  ((exists x, getTotalValue tokens = Num x) <-> existsb textValue tokens = false) /\
  ((exists s, getTotalValue tokens = Str s) <-> existsb textValue tokens = true).
Proof.
  unfold getTotalValue, JsArray.reduce.
  pose proof (total_kind tokens 0%float) as H.
  destruct (existsb textValue tokens); destruct H as [r ->]; split; split;
    try reflexivity; try discriminate; try (intros [? ?]; discriminate);
    intros _; now exists r.
Qed.

(** ** The sign of the 24h change *)

Local Open Scope Z_scope.

(** Bringing a mantissa to its format exponent leaves its leading digit
    when its value is above the least exponent. *)
Lemma shr_fexp_pos_digits (m : positive) (e : Z) (l : location) :
  emin < Zpos (digits2_pos m) + e ->
  0 < shr_m (fst (shr_fexp prec emax (Zpos m) e l)) /\
  emin <= snd (shr_fexp prec emax (Zpos m) e l).
Proof.
  intros Hd. unfold shr_fexp, shr. simpl Zdigits2.
  destruct (fexp prec emax (Zpos (digits2_pos m) + e) - e) as [|n|n] eqn:Hn;
    simpl fst; simpl snd; rewrite ?shr_record_of_loc_m; unfold fexp in Hn.
  - split; lia.
  - split; [|lia].
    rewrite iter_shr_1_m by (rewrite shr_record_of_loc_m; lia).
    rewrite shr_record_of_loc_m.
    assert (Hle : 2 ^ Zpos n <= Zpos m).
    { eapply Z.le_trans; [|apply digits2_pos_lower].
      apply Z.pow_le_mono_r; [lia|]. unfold prec in *. lia. }
    apply Z.div_str_pos. split; [apply Z.pow_pos_nonneg; lia | assumption].
  - split; lia.
Qed.

Lemma binary_round_aux_verdict_digits (s : bool) (m : positive) (e : Z) (l : location) :
  emin < Zpos (digits2_pos m) + e ->
  JsArray.SFverdict (binary_round_aux prec emax s (Zpos m) e l) = if s then Lt else Gt.
Proof.
  intros Hd. unfold binary_round_aux.
  pose proof (shr_fexp_pos_digits m e l Hd) as [H1 H1e].
  destruct (shr_fexp prec emax (Zpos m) e l) as [mrs' e']. simpl in H1, H1e.
  pose proof (shr_fexp_pos _ e' loc_Exact
                (round_nearest_even_pos _ (loc_of_shr_record mrs') H1) H1e) as [H2 _].
  destruct (shr_fexp prec emax _ e' loc_Exact) as [mrs'' e'']. simpl in H2.
  destruct (shr_m mrs''); try lia.
  destruct (Z.leb e'' _); reflexivity.
Qed.

Lemma digits2_pos_mul (a b : positive) :
  Zpos (digits2_pos b) <= Zpos (digits2_pos (a * b)).
Proof.
  pose proof (digits2_pos_lower b) as Hl.
  pose proof (digits2_pos_upper (a * b)) as Hu.
  assert (Hab : Zpos b <= Zpos (a * b)) by nia.
  assert (Hlt : 2 ^ (Zpos (digits2_pos b) - 1) < 2 ^ Zpos (digits2_pos (a * b))) by lia.
  apply Z.pow_lt_mono_r_iff in Hlt; lia.
Qed.

(** A hundred times a Number has the sign of the Number: the product of a
    Number that is not zero is not rounded to zero. *)
Lemma verdict_mul_100 (x : float) :
  JsArray.verdict (x * 100) = JsArray.verdict x.
Proof.
  rewrite !verdict_spec, mul_spec.
  pose proof (Prim2SF_valid x) as Hv.
  change (Prim2SF 100) with (S754_finite false 7036874417766400 (-46)).
  destruct (Prim2SF x) as [s|s| |s m e]; try reflexivity.
  - now destruct s.
  - apply valid_emin in Hv.
    unfold SF64mul. cbn [SFmul JsArray.SFverdict]. rewrite xorb_false_r.
    rewrite binary_round_aux_verdict_digits; [reflexivity|].
    pose proof (digits2_pos_mul m 7036874417766400) as Hd.
    change (Zpos (digits2_pos 7036874417766400)) with 53 in Hd. lia.
Qed.

Local Close Scope Z_scope.

(** A Number that is not [NaN] and not [>= 0] is negative. *)
Lemma not_leb_0_negative (x : float) :
  JsNumber.isNaN x = false -> PrimFloat.leb 0 x = false -> JsArray.verdict x = Lt.
Proof.
  rewrite verdict_spec, leb_spec. unfold JsNumber.isNaN. rewrite eqb_spec.
  change (Prim2SF 0) with (S754_zero false).
  destruct (Prim2SF x) as [s|s| |s m e]; unfold SFleb, SFeqb; cbn [SFcompare JsArray.SFverdict];
    try discriminate; destruct s; try discriminate; reflexivity.
Qed.

(** A negative Number is written with a minus sign in front. *)
Lemma toFixed_negative (x : float) (fractionDigits : nat) :
  JsArray.verdict x = Lt -> exists rest, toFixed x fractionDigits = String "-" rest.
Proof.
  rewrite verdict_spec. unfold toFixed, JsNumber.toString.
  destruct (Prim2SF x) as [s|s| |s m e]; cbn [JsArray.SFverdict]; try discriminate;
    destruct s; try discriminate; intros _.
  - now eexists.
  - destruct (if (0 <=? e)%Z then _ else _) as [num den].
    destruct (_ <=? _)%Z.
    + destruct (JsNumber.shortest_decimal _) as [[n k] d]. now eexists.
    + now eexists.
Qed.

(** X11.  The 24h change of a card always starts with a sign: a plus when
    the change is zero, absent or positive, and the minus of the number
    itself when it is negative, however small.  A change that is absent,
    zero or [NaN] reads [+0.00%]. *)
Theorem performance_text_has_a_sign (showWalletAddress : bool) (item : TrackedWalletToken) :
  (exists rest,
     performanceText (renderToken showWalletAddress item) =
     String (if performancePositive (renderToken showWalletAddress item)
             then "+" else "-")%char rest) /\
  (number_or_0 (Token.price_change_24h item) = 0%float ->
   performanceText (renderToken showWalletAddress item) = "+0.00%").
Proof.
  cbn [renderToken performanceText performancePositive]. split.
  - destruct (PrimFloat.leb 0 _) eqn:Hle; [now eexists|].
    destruct (toFixed_negative (number_or_0 (Token.price_change_24h item) * 100) 2)
      as [rest ->]; [|now eexists].
    rewrite verdict_mul_100.
    apply not_leb_0_negative; [apply number_or_0_not_NaN | exact Hle].
  - intros ->. reflexivity.
Qed.

Lemma performance_text_has_a_sign_witness :
  performanceText (renderToken true (holding "ARB" "ARB" JsUndefined JsNull None)) = "+0.00%".
Proof.
  destruct (performance_text_has_a_sign true (holding "ARB" "ARB" JsUndefined JsNull None))
    as [_ H].
  apply H. reflexivity.
Defined.

(** ** The keys of the rows *)

Local Open Scope Z_scope.

Lemma string_app_assoc (s t u : string) : ((s ++ t) ++ u)%string = (s ++ t ++ u)%string.
Proof. induction s as [|c s IH]; simpl; [reflexivity | now rewrite IH]. Qed.

Lemma string_app_length (s t : string) :
  String.length (s ++ t) = (String.length s + String.length t)%nat.
Proof. induction s as [|c s IH]; simpl; [reflexivity | now rewrite IH]. Qed.

Lemma decimal_value_app (s t : string) (acc : Z) :
  decimal_value (s ++ t) acc = decimal_value t (decimal_value s acc).
Proof. revert acc. induction s as [|c s IH]; intros acc; simpl; [reflexivity | apply IH]. Qed.

Lemma all_digits_app (s t : string) :
  all_digits (s ++ t) = (all_digits s && all_digits t)%bool.
Proof.
  induction s as [|c s IH]; simpl; [reflexivity|]. now rewrite IH, andb_assoc.
Qed.

Lemma digit_char_spec (d : Z) :
  0 <= d < 10 ->
  JsNumber.digit_value (JsNumber.digit_char d) = d /\
  JsNumber.is_digit (JsNumber.digit_char d) = true.
Proof.
  intros Hd.
  assert (H : d = 0 \/ d = 1 \/ d = 2 \/ d = 3 \/ d = 4 \/ d = 5 \/ d = 6 \/ d = 7 \/
              d = 8 \/ d = 9) by lia.
  repeat (destruct H as [->|H]; [split; reflexivity|]). subst d. split; reflexivity.
Qed.

(** [digits_loop] writes, in front of [acc], digits whose value is [n]. *)
Lemma digits_loop_spec (fuel : nat) (n : Z) (acc : string) :
  0 <= n < 2 ^ Z.of_nat fuel ->
  exists pre, JsNumber.digits_loop fuel n acc = (pre ++ acc)%string /\
              all_digits pre = true /\
              forall a, decimal_value pre a = a * 10 ^ Z.of_nat (String.length pre) + n.
Proof.
  revert n acc. induction fuel as [|fuel IH]; intros n acc Hn.
  - change (2 ^ Z.of_nat 0) with 1 in Hn. exists EmptyString. repeat split.
    intros a. change (a = a * 1 + n). lia.
  - cbn [JsNumber.digits_loop].
    assert (Hmod : 0 <= n mod 10 < 10) by (apply Z.mod_pos_bound; lia).
    destruct (digit_char_spec _ Hmod) as [Hval Hdig].
    destruct (Z.ltb_spec n 10) as [Hlt|Hge].
    + exists (String (JsNumber.digit_char (n mod 10)) EmptyString).
      split; [reflexivity|]. split; [simpl; now rewrite Hdig|].
      intros a. cbn [decimal_value String.length]. rewrite Hval, Z.mod_small by lia.
      change (10 ^ Z.of_nat 1) with 10. lia.
    + assert (Hdiv : 0 <= n / 10 < 2 ^ Z.of_nat fuel).
      { rewrite Nat2Z.inj_succ, Z.pow_succ_r in Hn by lia.
        split; [apply Z.div_pos; lia|].
        apply Z.div_lt_upper_bound; lia. }
      destruct (IH (n / 10) (String (JsNumber.digit_char (n mod 10)) acc) Hdiv)
        as (pre & Heq & Hall & Hpre).
      exists (pre ++ String (JsNumber.digit_char (n mod 10)) EmptyString)%string.
      split; [|split].
      * rewrite Heq, string_app_assoc. reflexivity.
      * rewrite all_digits_app, Hall. simpl. now rewrite Hdig.
      * intros a. rewrite decimal_value_app, Hpre. cbn [decimal_value]. rewrite Hval.
        rewrite string_app_length. cbn [String.length].
        rewrite Nat2Z.inj_add, Z.pow_add_r by lia.
        change (10 ^ Z.of_nat 1) with 10.
        pose proof (Z.div_mod n 10). lia.
Qed.

Lemma digits_spec (n : Z) :
  0 <= n -> all_digits (JsNumber.digits n) = true /\ decimal_value (JsNumber.digits n) 0 = n.
Proof.
  intros Hn. unfold JsNumber.digits.
  destruct (digits_loop_spec (S (Z.to_nat (Z.log2 n))) n EmptyString) as (pre & -> & Hall & Hval).
  - split; [assumption|]. rewrite Nat2Z.inj_succ, Z2Nat.id by apply Z.log2_nonneg.
    destruct (Z.eq_dec n 0) as [->|Hnz]; [simpl; lia|].
    apply Z.log2_spec. lia.
  - assert (Hpre : (pre ++ "")%string = pre).
    { clear. induction pre as [|c pre IH]; simpl; [reflexivity | now rewrite IH]. }
    rewrite Hpre. split; [assumption|]. rewrite Hval. lia.
Qed.

Local Close Scope Z_scope.

(** What follows the last hyphen of a key is the index. *)
Lemma key_suffix (p q d1 d2 : string) :
  all_digits d1 = true -> all_digits d2 = true ->
  (p ++ "-" ++ d1)%string = (q ++ "-" ++ d2)%string -> d1 = d2.
Proof.
  intros H1 H2. revert q. induction p as [|c p IH]; intros [|c' q] Heq; simpl in Heq.
  - now injection Heq.
  - injection Heq as _ Heq. rewrite Heq, all_digits_app in H1.
    simpl in H1. now rewrite andb_false_r in H1.
  - injection Heq as _ Heq. rewrite <- Heq, all_digits_app in H2.
    simpl in H2. now rewrite andb_false_r in H2.
  - injection Heq as _ Heq. now apply IH with q.
Qed.

Lemma tokenKey_index (a b : TrackedWalletToken) (i j : nat) :
  tokenKey a i = tokenKey b j -> i = j.
Proof.
  unfold tokenKey. intros Heq.
  destruct (digits_spec (Z.of_nat i)) as [Hi Hvi]; [lia|].
  destruct (digits_spec (Z.of_nat j)) as [Hj Hvj]; [lia|].
  apply key_suffix in Heq; [|assumption|assumption].
  rewrite Heq in Hvi. lia.
Qed.

Lemma sectionTokenKey_index (blockchain : string) (a b : TrackedWalletToken) (i j : nat) :
  sectionTokenKey blockchain a i = sectionTokenKey blockchain b j -> i = j.
Proof.
  unfold sectionTokenKey, tokenKey. intros Heq.
  destruct (digits_spec (Z.of_nat i)) as [Hi Hvi]; [lia|].
  destruct (digits_spec (Z.of_nat j)) as [Hj Hvj]; [lia|].
  rewrite <- !(string_app_assoc blockchain "-") in Heq.
  rewrite <- !(string_app_assoc (blockchain ++ "-")) in Heq.
  apply key_suffix in Heq; [|assumption|assumption].
  rewrite Heq in Hvi. lia.
Qed.

Lemma rowKeys_NoDup (keyExtractor : TrackedWalletToken -> nat -> string)
    (data : list TrackedWalletToken) :
  (forall a b i j, keyExtractor a i = keyExtractor b j -> i = j) ->
  NoDup (rowKeys keyExtractor data).
Proof.
  intros Hinj. unfold rowKeys.
  assert (Hgen : forall start (l : list TrackedWalletToken),
            NoDup (map (fun row => keyExtractor (snd row) (fst row))
                       (combine (seq start (List.length l)) l)) /\
            forall k, In k (map (fun row => keyExtractor (snd row) (fst row))
                                (combine (seq start (List.length l)) l)) ->
                      exists a i, k = keyExtractor a i /\ start <= i).
  { intros start l. revert start. induction l as [|x l IH]; intros start; simpl.
    - split; [constructor | intros k []].
    - destruct (IH (S start)) as [Hnd Hin]. split.
      + constructor; [|assumption]. intros Hk.
        destruct (Hin _ Hk) as (a & i & Heq & Hle). apply Hinj in Heq. lia.
      + intros k [<-|Hk]; [exists x, start; split; [reflexivity | lia]|].
        destruct (Hin _ Hk) as (a & i & Heq & Hle). exists a, i. split; [assumption | lia]. }
  apply Hgen.
Qed.

(** X12.  No two rows of a list share a key, even when holdings share
    their id: the index ends the key, and nothing that stands before it
    can be taken for a part of it. *)
Theorem row_keys_are_distinct (data : list TrackedWalletToken) (blockchain : string) :
  NoDup (rowKeys tokenKey data) /\
  NoDup (rowKeys (sectionTokenKey blockchain) data).
Proof.
  split; apply rowKeys_NoDup.
  - apply tokenKey_index.
  - apply sectionTokenKey_index.
Qed.

(** ** The wallet view *)

Lemma get_own_set {V : Type} (obj : JsObject.t V) (k : string) (v : V) :
  JsObject.get_own (JsObject.set obj k v) k = Some v.
Proof.
  induction obj as [|[k' w] obj IH]; simpl.
  - now rewrite String.eqb_refl.
  - destruct (String.eqb k k') eqn:Hk; simpl; rewrite Hk; [reflexivity | exact IH].
Qed.

Lemma set_set {V : Type} (obj : JsObject.t V) (k : string) (v v' : V) :
  JsObject.set (JsObject.set obj k v) k v' = JsObject.set obj k v'.
Proof.
  induction obj as [|[k' w] obj IH]; simpl.
  - now rewrite String.eqb_refl.
  - destruct (String.eqb k k') eqn:Hk; simpl; rewrite Hk; [reflexivity | now rewrite IH].
Qed.

Lemma set_same {V : Type} (obj : JsObject.t V) (k : string) (v : V) :
  JsObject.get_own obj k = Some v -> JsObject.set obj k v = obj.
Proof.
  induction obj as [|[k' w] obj IH]; simpl; [discriminate|].
  destruct (String.eqb_spec k k') as [->|_].
  - intros H. now injection H as ->.
  - intros H. now rewrite IH.
Qed.

Lemma get_of_own {V : Type} (obj : JsObject.t V) (k : string) (v : V) :
  JsObject.get_own obj k = Some v -> JsObject.get obj k = JsObject.Own v.
Proof. unfold JsObject.get. now intros ->. Qed.

Lemma getAllTokens_flat (walletTokens : JsObject.t WalletView.WalletTokens) :
  WalletView.getAllTokens walletTokens =
  flat_map WalletView.chainTokensOf (Object_values walletTokens).
Proof.
  unfold WalletView.getAllTokens.
  assert (Hinner : forall (w : WalletView.WalletTokens) l acc,
            fold_left
              (fun allTokens token =>
                 allTokens ++ [ {| WalletView.walletToken :=
                                     {| WalletView.token := token;
                                        WalletView.token_wallet_address :=
                                          WalletView.wallet_address w |};
                                   WalletView.token_blockchain := WalletView.blockchain w |} ])
              l acc =
            acc ++ map (fun token =>
                          {| WalletView.walletToken :=
                               {| WalletView.token := token;
                                  WalletView.token_wallet_address :=
                                    WalletView.wallet_address w |};
                             WalletView.token_blockchain := WalletView.blockchain w |}) l).
  { intros w l. induction l as [|t l IH]; intros acc; simpl.
    - now rewrite app_nil_r.
    - rewrite IH, <- app_assoc. reflexivity. }
  assert (Houter : forall l acc,
            fold_left
              (fun allTokens walletData =>
                 fold_left
                   (fun allTokens token =>
                      allTokens ++ [ {| WalletView.walletToken :=
                                          {| WalletView.token := token;
                                             WalletView.token_wallet_address :=
                                               WalletView.wallet_address walletData |};
                                        WalletView.token_blockchain :=
                                          WalletView.blockchain walletData |} ])
                   (WalletView.tokens walletData) allTokens)
              l acc =
            acc ++ flat_map WalletView.chainTokensOf l).
  { intros l. induction l as [|w l IH]; intros acc; simpl.
    - now rewrite app_nil_r.
    - rewrite IH, Hinner, <- app_assoc. f_equal. f_equal.
      unfold WalletView.chainTokensOf, WalletView.walletTokensOf. now rewrite map_map. }
  apply Houter.
Qed.

(** Pushing the tokens of a wallet onto the array of its blockchain. *)
Lemma forEach_pushToken (w : WalletView.WalletTokens) (l : list WalletView.Token)
    (grouped : WalletView.Grouped) (arr : list WalletView.WalletToken) :
  JsObject.get_own grouped (WalletView.blockchain w) = Some arr ->
  forEach (WalletView.pushToken w) l grouped =
  Return (JsObject.set grouped (WalletView.blockchain w)
            (arr ++ map (fun token => {| WalletView.token := token;
                                         WalletView.token_wallet_address :=
                                           WalletView.wallet_address w |}) l)).
Proof.
  revert grouped arr. induction l as [|t l IH]; intros grouped arr Hget; simpl.
  - now rewrite app_nil_r, set_same.
  - unfold WalletView.pushToken at 1. rewrite (get_of_own _ _ _ Hget). simpl.
    rewrite (IH _ _ (get_own_set _ _ _)), set_set, <- app_assoc. reflexivity.
Qed.

Lemma tokensOn_snoc (k : string) (l : list WalletView.WalletTokens) (w : WalletView.WalletTokens) :
  WalletView.tokensOn k (l ++ [w]) =
  WalletView.tokensOn k l ++
  (if String.eqb (WalletView.blockchain w) k then WalletView.walletTokensOf w else []).
Proof. unfold WalletView.tokensOn. rewrite flat_map_app. simpl. now rewrite app_nil_r. Qed.

Lemma tokensOn_absent (k : string) (l : list WalletView.WalletTokens) :
  mem k (map WalletView.blockchain l) = false -> WalletView.tokensOn k l = [].
Proof.
  induction l as [|w l IH]; simpl; [reflexivity|].
  rewrite String.eqb_sym.
  destruct (String.eqb (WalletView.blockchain w) k); simpl; [discriminate | exact IH].
Qed.

Lemma groupsOfWallets_snoc_old (p : list WalletView.WalletTokens) (w : WalletView.WalletTokens) :
  mem (WalletView.blockchain w) (map WalletView.blockchain p) = true ->
  JsObject.set (WalletView.groupsOfWallets p) (WalletView.blockchain w)
    (WalletView.tokensOn (WalletView.blockchain w) p ++ WalletView.walletTokensOf w) =
  WalletView.groupsOfWallets (p ++ [w]).
Proof.
  intros Hm. set (b := WalletView.blockchain w) in *.
  unfold WalletView.groupsOfWallets. rewrite map_app. simpl. fold b.
  rewrite first_occurrences_snoc, mem_first_occurrences, Hm.
  replace (WalletView.tokensOn b p ++ WalletView.walletTokensOf w)
    with (WalletView.tokensOn b (p ++ [w])).
  - apply (set_map_old (fun k => WalletView.tokensOn k p)
                       (fun k => WalletView.tokensOn k (p ++ [w]))).
    + apply NoDup_first_occurrences.
    + now rewrite mem_first_occurrences.
    + intros k Hk. rewrite tokensOn_snoc. fold b.
      destruct (String.eqb_spec b k) as [->|_]; [congruence|].
      apply app_nil_r.
  - rewrite tokensOn_snoc. fold b. now rewrite String.eqb_refl.
Qed.

Lemma groupsOfWallets_snoc_new (p : list WalletView.WalletTokens) (w : WalletView.WalletTokens) :
  mem (WalletView.blockchain w) (map WalletView.blockchain p) = false ->
  WalletView.groupsOfWallets p ++ [(WalletView.blockchain w, WalletView.walletTokensOf w)] =
  WalletView.groupsOfWallets (p ++ [w]).
Proof.
  intros Hm. set (b := WalletView.blockchain w) in *.
  unfold WalletView.groupsOfWallets. rewrite map_app. simpl. fold b.
  rewrite first_occurrences_snoc, mem_first_occurrences, Hm.
  rewrite map_app. simpl. f_equal.
  - apply map_ext_in. intros k Hk. f_equal.
    rewrite tokensOn_snoc. fold b.
    destruct (String.eqb_spec b k) as [<-|_]; [|now rewrite app_nil_r].
    apply mem_In in Hk. rewrite mem_first_occurrences in Hk. congruence.
  - rewrite tokensOn_snoc. fold b.
    now rewrite String.eqb_refl, (tokensOn_absent b p Hm).
Qed.

Lemma get_groupsOfWallets (p : list WalletView.WalletTokens) (b : string) :
  JsObject.get_own (WalletView.groupsOfWallets p) b =
  if mem b (map WalletView.blockchain p) then Some (WalletView.tokensOn b p) else None.
Proof.
  unfold WalletView.groupsOfWallets. now rewrite get_own_map, mem_first_occurrences.
Qed.

Lemma own_names_mem (p : list WalletView.WalletTokens) (b : string) :
  (forall u, In u p -> WalletView.ownName u = true) ->
  mem b (map WalletView.blockchain p) = true -> JsObject.inherits b = false.
Proof.
  intros Hall Hm. apply mem_In, in_map_iff in Hm. destruct Hm as [u [<- Hu]].
  apply Hall in Hu. unfold WalletView.ownName in Hu. now apply negb_true_iff in Hu.
Qed.

(** One wallet, from the groups of the wallets seen so far. *)
Lemma groupWallet_step (p : list WalletView.WalletTokens) (w : WalletView.WalletTokens) :
  (forall u, In u p -> WalletView.ownName u = true) ->
  WalletView.groupWallet (WalletView.groupsOfWallets p) w =
  if WalletView.unpushable w then Throw TypeError
  else Return (WalletView.groupsOfWallets (p ++ filter WalletView.ownName [w])).
Proof.
  intros Hp. unfold WalletView.groupWallet, WalletView.unpushable, JsObject.get.
  cbn [filter]. unfold WalletView.ownName.
  rewrite get_groupsOfWallets.
  destruct (mem (WalletView.blockchain w) (map WalletView.blockchain p)) eqn:Hm.
  - (* the blockchain has its array *)
    rewrite (own_names_mem p _ Hp Hm). simpl.
    rewrite (forEach_pushToken w _ _ (WalletView.tokensOn (WalletView.blockchain w) p))
      by (now rewrite get_groupsOfWallets, Hm).
    f_equal. now apply groupsOfWallets_snoc_old.
  - destruct (JsObject.inherits (WalletView.blockchain w)) eqn:Hinh; simpl.
    + (* a name found on the prototype: nothing is stored, and the first
         token finds no [push] *)
      destruct (WalletView.tokens w) as [|t l]; simpl.
      * now rewrite app_nil_r.
      * unfold WalletView.pushToken, JsObject.get.
        now rewrite get_groupsOfWallets, Hm, Hinh.
    + (* a new blockchain: an empty array is stored, then pushed to *)
      assert (Hnone : JsObject.get_own (WalletView.groupsOfWallets p) (WalletView.blockchain w) = None)
        by (now rewrite get_groupsOfWallets, Hm).
      assert (Hset : JsObject.set (WalletView.groupsOfWallets p) (WalletView.blockchain w) [] =
                     WalletView.groupsOfWallets p ++ [(WalletView.blockchain w, [])]).
      { unfold WalletView.groupsOfWallets. apply set_map_new.
        now rewrite mem_first_occurrences. }
      rewrite Hset.
      rewrite (forEach_pushToken w _ _ []).
      * f_equal. rewrite (set_app_new _ _ _ _ Hnone). simpl.
        rewrite String.eqb_refl. now apply groupsOfWallets_snoc_new.
      * rewrite get_own_app, Hnone. simpl. now rewrite String.eqb_refl.
Qed.

Lemma forEach_groupWallet (l p : list WalletView.WalletTokens) :
  (forall u, In u p -> WalletView.ownName u = true) ->
  forEach WalletView.groupWallet l (WalletView.groupsOfWallets p) =
  if existsb WalletView.unpushable l then Throw TypeError
  else Return (WalletView.groupsOfWallets (p ++ filter WalletView.ownName l)).
Proof.
  revert p. induction l as [|w l IH]; intros p Hp.
  - simpl. now rewrite app_nil_r.
  - cbn [forEach existsb]. rewrite (groupWallet_step p w Hp).
    destruct (WalletView.unpushable w); simpl; [reflexivity|].
    rewrite IH.
    + destruct (existsb WalletView.unpushable l); [reflexivity|].
      f_equal. f_equal. rewrite <- app_assoc. f_equal.
      now destruct (WalletView.ownName w).
    + intros u Hu. apply in_app_or in Hu. destruct Hu as [Hu|Hu]; [now apply Hp|].
      destruct (WalletView.ownName w) eqn:Hw; simpl in Hu; [|destruct Hu].
      destruct Hu as [<-|[]]. exact Hw.
Qed.

(** What the hook's [getTokensByBlockchain] computes. *)
Lemma wallet_getTokensByBlockchain_spec (walletTokens : JsObject.t WalletView.WalletTokens) :
  WalletView.getTokensByBlockchain walletTokens =
  if existsb WalletView.unpushable (Object_values walletTokens) then Throw TypeError
  else Return (WalletView.groupsOfWallets
                 (filter WalletView.ownName (Object_values walletTokens))).
Proof.
  unfold WalletView.getTokensByBlockchain.
  change (@nil (string * list WalletView.WalletToken)) with (WalletView.groupsOfWallets []).
  rewrite forEach_groupWallet; [reflexivity | intros u []].
Qed.

(** X13.  The wallet view throws exactly when some wallet that holds a
    token is on a blockchain named like a property every object inherits,
    and then under every prop and in every state: in the flat list and
    behind the notices too, since both lists are built first. *)
Theorem TokenDisplay_throws_iff (groupByBlockchain : bool) (hook : WalletView.HookState) :
  WalletView.TokenDisplay groupByBlockchain hook = Throw TypeError <->
  exists walletData,
    In walletData (Object_values (WalletView.walletTokens hook)) /\
    JsObject.inherits (WalletView.blockchain walletData) = true /\
    WalletView.tokens walletData <> [].
Proof.
  unfold WalletView.TokenDisplay. rewrite wallet_getTokensByBlockchain_spec.
  destruct (existsb WalletView.unpushable _) eqn:Hex.
  - split; [intros _|reflexivity].
    apply existsb_exists in Hex. destruct Hex as [w [Hin Hw]].
    exists w. unfold WalletView.unpushable in Hw. apply andb_prop in Hw.
    destruct Hw as [Hinh Htok]. repeat split; try assumption.
    intros Hnil. rewrite Hnil in Htok. discriminate.
  - split.
    + cbn [bind].
      destruct (_ && _); [discriminate|].
      destruct (JsString.truthy _); [discriminate|].
      destruct (Nat.eqb _ 0); [discriminate|].
      destruct (Nat.eqb _ 0); [discriminate|].
      destruct groupByBlockchain; discriminate.
    + intros [w (Hin & Hinh & Htok)].
      assert (Hw : existsb WalletView.unpushable
                     (Object_values (WalletView.walletTokens hook)) = true).
      { apply existsb_exists. exists w. split; [assumption|].
        unfold WalletView.unpushable. rewrite Hinh.
        destruct (WalletView.tokens w); [contradiction | reflexivity]. }
      congruence.
Qed.

Lemma chainTokensOf_blockchain (w : WalletView.WalletTokens) (ct : WalletView.ChainToken) :
  In ct (WalletView.chainTokensOf w) ->
  WalletView.token_blockchain ct = WalletView.blockchain w /\ WalletView.tokens w <> [].
Proof.
  unfold WalletView.chainTokensOf, WalletView.walletTokensOf. rewrite map_map.
  intros Hin. apply in_map_iff in Hin. destruct Hin as [t [<- Ht]].
  split; [reflexivity|]. intros Hnil. rewrite Hnil in Ht. destruct Ht.
Qed.

Lemma filter_chainTokensOf (k : string) (w : WalletView.WalletTokens) :
  filter (fun ct => String.eqb (WalletView.token_blockchain ct) k) (WalletView.chainTokensOf w) =
  if String.eqb (WalletView.blockchain w) k then WalletView.chainTokensOf w else [].
Proof.
  unfold WalletView.chainTokensOf.
  induction (WalletView.walletTokensOf w) as [|t l IH]; simpl.
  - now destruct (String.eqb _ k).
  - rewrite IH. now destruct (String.eqb (WalletView.blockchain w) k).
Qed.

(** A group, with the blockchain put back on its tokens, is what the flat
    list holds for that blockchain. *)
Lemma tokensOn_flat (k : string) (ws : list WalletView.WalletTokens) :
  existsb WalletView.unpushable ws = false ->
  map (fun token => {| WalletView.walletToken := token; WalletView.token_blockchain := k |})
      (WalletView.tokensOn k (filter WalletView.ownName ws)) =
  filter (fun ct => String.eqb (WalletView.token_blockchain ct) k)
         (flat_map WalletView.chainTokensOf ws).
Proof.
  induction ws as [|w ws IH]; [reflexivity|].
  cbn [existsb filter flat_map]. intros Hex. apply orb_false_elim in Hex.
  destruct Hex as [Hw Hws]. rewrite filter_app, filter_chainTokensOf, <- (IH Hws).
  unfold WalletView.ownName at 1.
  destruct (JsObject.inherits (WalletView.blockchain w)) eqn:Hinh; cbn [negb].
  - unfold WalletView.unpushable in Hw. rewrite Hinh in Hw. simpl in Hw.
    unfold WalletView.chainTokensOf, WalletView.walletTokensOf.
    destruct (WalletView.tokens w); [|discriminate].
    now destruct (String.eqb _ k).
  - cbn [WalletView.tokensOn flat_map]. rewrite map_app. f_equal.
    destruct (String.eqb_spec (WalletView.blockchain w) k) as [<-|_]; reflexivity.
Qed.

(** The sections of the grouped wallet view. *)
Lemma wallet_sections (hook : WalletView.HookState) (sections : list WalletView.BlockchainSection) :
  WalletView.TokenDisplay true hook = Return (WalletView.GroupedList sections) ->
  existsb WalletView.unpushable (Object_values (WalletView.walletTokens hook)) = false /\
  sections =
    map WalletView.renderBlockchainSection
        (JsObject.entries
           (WalletView.groupsOfWallets
              (filter WalletView.ownName (Object_values (WalletView.walletTokens hook))))) /\
  WalletView.TokenDisplay false hook =
    Return (WalletView.FlatList (WalletView.getAllTokens (WalletView.walletTokens hook))).
Proof.
  unfold WalletView.TokenDisplay. rewrite wallet_getTokensByBlockchain_spec.
  destruct (existsb WalletView.unpushable _); [discriminate|]. cbn [bind].
  destruct (_ && _); [discriminate|].
  destruct (JsString.truthy _); [discriminate|].
  destruct (Nat.eqb _ 0); [discriminate|].
  destruct (Nat.eqb _ 0); [discriminate|].
  intros H. injection H as <-. repeat split.
Qed.

(** X14.  The grouped wallet view and the flat one show the same tokens:
    each section lists, in the order of the flat list, the tokens the
    flat list holds for its blockchain, and every token of the flat list
    has the section of its blockchain.  Titles are distinct, and a count
    is the number of rows under it. *)
Theorem grouped_wallet_view_matches_flat_list (hook : WalletView.HookState)
    (sections : list WalletView.BlockchainSection) :
  WalletView.TokenDisplay true hook = Return (WalletView.GroupedList sections) ->
  WalletView.TokenDisplay false hook =
    Return (WalletView.FlatList (WalletView.getAllTokens (WalletView.walletTokens hook))) /\
  NoDup (map WalletView.blockchainTitle sections) /\
  (forall s, In s sections ->
     WalletView.sectionData s =
       filter (fun ct => String.eqb (WalletView.token_blockchain ct) (WalletView.blockchainTitle s))
              (WalletView.getAllTokens (WalletView.walletTokens hook)) /\
     WalletView.tokenCount s = List.length (WalletView.sectionData s)) /\
  (forall ct, In ct (WalletView.getAllTokens (WalletView.walletTokens hook)) ->
     exists s, In s sections /\ WalletView.blockchainTitle s = WalletView.token_blockchain ct).
Proof.
  intros Hr. apply wallet_sections in Hr. destruct Hr as (Hex & -> & Hflat).
  split; [exact Hflat|].
  set (ws := Object_values (WalletView.walletTokens hook)) in *.
  set (own := filter WalletView.ownName ws).
  pose proof (entries_perm (WalletView.groupsOfWallets own)) as Hperm.
  rewrite getAllTokens_flat. fold ws.
  split; [|split].
  - rewrite map_map.
    assert (Hkeys : map (fun item => WalletView.blockchainTitle (WalletView.renderBlockchainSection item))
                        (JsObject.entries (WalletView.groupsOfWallets own)) =
                    map fst (JsObject.entries (WalletView.groupsOfWallets own))).
    { apply map_ext. now intros [k arr]. }
    rewrite Hkeys.
    apply (Permutation_NoDup (Permutation_map fst (Permutation_sym Hperm))).
    unfold WalletView.groupsOfWallets. rewrite map_map. simpl. rewrite map_id.
    apply NoDup_first_occurrences.
  - intros s Hs. apply in_map_iff in Hs. destruct Hs as [[k arr] [<- Hin]].
    apply (Permutation_in _ Hperm) in Hin.
    unfold WalletView.groupsOfWallets in Hin. apply in_map_iff in Hin.
    destruct Hin as [k' [Heq _]]. injection Heq as <- <-.
    cbn [WalletView.renderBlockchainSection WalletView.sectionData
         WalletView.blockchainTitle WalletView.tokenCount].
    split; [now apply tokensOn_flat | now rewrite length_map].
  - intros ct Hct. apply in_flat_map in Hct. destruct Hct as [w [Hw Hin]].
    apply chainTokensOf_blockchain in Hin. destruct Hin as [Hb Htok].
    assert (Hown : WalletView.ownName w = true).
    { unfold WalletView.ownName. apply negb_true_iff.
      destruct (JsObject.inherits (WalletView.blockchain w)) eqn:Hinh; [|reflexivity].
      assert (Hbad : existsb WalletView.unpushable ws = true).
      { apply existsb_exists. exists w. split; [assumption|].
        unfold WalletView.unpushable. rewrite Hinh.
        destruct (WalletView.tokens w); [contradiction | reflexivity]. }
      congruence. }
    exists (WalletView.renderBlockchainSection
              (WalletView.blockchain w, WalletView.tokensOn (WalletView.blockchain w) own)).
    split; [|now rewrite Hb].
    apply in_map. apply (Permutation_in _ (Permutation_sym Hperm)).
    unfold WalletView.groupsOfWallets. apply in_map_iff.
    exists (WalletView.blockchain w). split; [reflexivity|].
    apply mem_In. rewrite mem_first_occurrences. apply mem_In. apply in_map.
    unfold own. apply filter_In. now split.
Qed.

Lemma grouped_wallet_view_matches_flat_list_witness :
  WalletView.TokenDisplay false sample_hook =
  Return (WalletView.FlatList (WalletView.getAllTokens sample_wallets)).
Proof.
  destruct (grouped_wallet_view_matches_flat_list sample_hook
              (map WalletView.renderBlockchainSection
                   [ ("EVM", WalletView.tokensOn "EVM" (Object_values sample_wallets));
                     ("SOLANA", []) ]))
    as [H _]; [reflexivity | exact H].
Defined.

(** ** The sorted list, characterised *)

Section Collation.

Variable localeCompare : string -> string -> float.
Hypothesis localeCompare_antisym :
  forall s t, JsArray.verdict (localeCompare t s) = CompOpp (JsArray.verdict (localeCompare s t)).
Hypothesis localeCompare_trans :
  forall s t u,
    JsArray.verdict (localeCompare s t) <> Gt ->
    JsArray.verdict (localeCompare t u) <> Gt ->
    JsArray.verdict (localeCompare s u) <> Gt.

(** X15.  Under a consistent collation and without [NaN] keys, the sorted
    list is the one arrangement of the holdings that is in the order of
    the comparator and keeps holdings that tie in the order they came
    in. *)
Theorem sortedTokens_characterised (tokens sorted : list TrackedWalletToken) (sortBy : string) :
  keysParse sortBy tokens = true ->
  sorted = sortedTokens localeCompare tokens sortBy <->
  Permutation tokens sorted /\
  Sorted (JsArray.in_order (compareTokens localeCompare sortBy)) sorted /\
  (forall P, JsArray.tie_class (compareTokens localeCompare sortBy) tokens P ->
             filter P sorted = filter P tokens).
Proof.
  intros Hkeys. split.
  - intros ->. split; [apply sort_perm|]. split.
    + apply sort_sorted. now apply compareTokens_antisym.
    + intros P HP. now apply sort_stable.
  - intros (Hperm & Hsorted & Hstable).
    apply sortedTokens_unique; try assumption.
    now apply compareTokens_transitive.
Qed.

Lemma compareTokens_strongly_sorted (tokens : list TrackedWalletToken) (sortBy : string) :
  keysParse sortBy tokens = true ->
  StronglySorted (JsArray.in_order (compareTokens localeCompare sortBy))
                 (sortedTokens localeCompare tokens sortBy).
Proof.
  intros Hkeys. apply sorted_strongly.
  - now apply compareTokens_antisym.
  - apply (transitive_on_perm _ tokens); [apply sort_perm|].
    now apply compareTokens_transitive.
  - apply sort_sorted. now apply compareTokens_antisym.
Qed.

(** X16.  Sorted by name, the list is in ascending order of the
    lower-cased names under a consistent collation: no holding is listed
    before one whose name the collation puts first.  Sorted by chain, the
    same holds of the lower-cased display names. *)
Theorem sortedTokens_ascending_by_text (tokens : list TrackedWalletToken) :
  StronglySorted
    (fun a b => JsArray.verdict (localeCompare (nameKey a) (nameKey b)) <> Gt)
    (sortedTokens localeCompare tokens "alphabetical") /\
  StronglySorted
    (fun a b => JsArray.verdict (localeCompare (chainKey a) (chainKey b)) <> Gt)
    (sortedTokens localeCompare tokens "chain").
Proof.
  split.
  - exact (compareTokens_strongly_sorted tokens "alphabetical"
             (keysParse_other "alphabetical" tokens eq_refl eq_refl)).
  - exact (compareTokens_strongly_sorted tokens "chain"
             (keysParse_other "chain" tokens eq_refl eq_refl)).
Qed.

(** *** The order of the sections *)

Lemma strongly_sorted_snoc {A : Type} (R : A -> A -> Prop) (l : list A) (k : A) :
  StronglySorted R (l ++ [k]) <-> StronglySorted R l /\ forall x, In x l -> R x k.
Proof.
  induction l as [|y l IH]; simpl.
  - split; [intros _; split; [constructor | intros x []]|].
    intros _. repeat constructor.
  - split.
    + intros Hs. inversion Hs as [|? ? Hs' Hall]; subst.
      apply IH in Hs'. destruct Hs' as [Hl Hk].
      rewrite Forall_app in Hall. destruct Hall as [Hall Hyk].
      split; [now constructor|].
      intros x [<-|Hx]; [now inversion Hyk | now apply Hk].
    + intros [Hs Hk]. inversion Hs as [|? ? Hs' Hall]; subst.
      constructor.
      * apply IH. split; [assumption|]. intros x Hx. apply Hk. now right.
      * rewrite Forall_app. split; [assumption|]. constructor; [|constructor].
        apply Hk. now left.
Qed.

Lemma first_occurrences_strongly_sorted (R : string -> string -> Prop) (l : list string) :
  StronglySorted R l -> StronglySorted R (first_occurrences l).
Proof.
  induction l as [|k l IH] using rev_ind; [intros _; constructor|].
  intros Hs. apply strongly_sorted_snoc in Hs. destruct Hs as [Hl Hk].
  rewrite first_occurrences_snoc.
  destruct (mem k (first_occurrences l)); [now apply IH|].
  apply strongly_sorted_snoc. split; [now apply IH|].
  intros x Hx. apply Hk. apply mem_In. rewrite <- mem_first_occurrences. now apply mem_In.
Qed.

Lemma strongly_sorted_map {A B : Type} (f : A -> B) (R : B -> B -> Prop) (l : list A) :
  StronglySorted (fun a b => R (f a) (f b)) l -> StronglySorted R (map f l).
Proof.
  induction 1 as [|x l Hs IH Hall]; simpl; constructor; [assumption|].
  rewrite Forall_forall in *. intros y Hy. apply in_map_iff in Hy.
  destruct Hy as [a [<- Ha]]. now apply Hall.
Qed.

(** X17.  The sections of the grouped list stand in ascending order of
    their lower-cased titles, under a consistent collation, when no title
    is an array index. *)
Theorem sections_in_title_order (props : PortfolioTokenDisplayProps)
    (sections : list BlockchainSection) :
  PortfolioTokenDisplay localeCompare props "chain" = Return (GroupedList sections) ->
  (forall token, In token (tokens props) ->
     JsObject.is_array_index (getChainDisplayName (Token.chain token)) = false) ->
  StronglySorted
    (fun s s' => JsArray.verdict
                   (localeCompare (JsString.toLowerCase s) (JsString.toLowerCase s')) <> Gt)
    (map blockchainTitle sections).
Proof.
  intros Hr Hnames. apply grouped_list_sections in Hr. subst sections.
  rewrite blockchainTitle_entries.
  set (sorted := sortedTokens localeCompare (tokens props) "chain").
  change (map fst (JsObject.entries (groupsOf sorted))) with (JsObject.keys (groupsOf sorted)).
  rewrite keys_no_index.
  - rewrite groupsOf_keys. apply first_occurrences_strongly_sorted.
    apply strongly_sorted_map.
    exact (compareTokens_strongly_sorted (tokens props) "chain"
             (keysParse_other "chain" (tokens props) eq_refl eq_refl)).
  - apply forallb_forall. intros k Hk. rewrite groupsOf_keys in Hk.
    apply mem_In in Hk. rewrite mem_first_occurrences in Hk. apply mem_In in Hk.
    apply in_map_iff in Hk. destruct Hk as [t [<- Ht]].
    unfold notIndex, chainOf. rewrite Hnames; [reflexivity|].
    apply (Permutation_in _ (Permutation_sym (sort_perm _ (tokens props))) Ht).
Qed.

End Collation.

Lemma sortedTokens_characterised_witness :
  Permutation mixed_values (sortedTokens codeUnitCompare mixed_values "value").
Proof.
  apply (proj1 (sortedTokens_characterised codeUnitCompare codeUnitCompare_antisym
                  codeUnitCompare_trans mixed_values
                  (sortedTokens codeUnitCompare mixed_values "value") "value" eq_refl)
               eq_refl).
Defined.

Lemma sortedTokens_ascending_by_text_witness :
  StronglySorted
    (fun a b => JsArray.verdict (codeUnitCompare (nameKey a) (nameKey b)) <> Gt)
    (sortedTokens codeUnitCompare mixed_names "alphabetical").
Proof.
  apply (proj1 (sortedTokens_ascending_by_text codeUnitCompare codeUnitCompare_antisym
                  codeUnitCompare_trans mixed_names)).
Defined.

Lemma sections_in_title_order_witness :
  StronglySorted
    (fun s s' => JsArray.verdict
                   (codeUnitCompare (JsString.toLowerCase s) (JsString.toLowerCase s')) <> Gt)
    (map blockchainTitle spec_example_sections).
Proof.
  apply (sections_in_title_order codeUnitCompare codeUnitCompare_antisym codeUnitCompare_trans
           (loaded spec_example) spec_example_sections).
  - vm_compute. reflexivity.
  - intros token Hin. simpl in Hin.
    repeat (destruct Hin as [<-|Hin]; [vm_compute; reflexivity|]). destruct Hin.
Defined.
